(** * Wayfinder: the destination search engine, verified against its specification

    Shallow embedding of [src/js/search.js] (class [SearchEngine]) and of the
    two utilities it imports, [escapeRegExp] and [levenshteinDistance], whose
    bodies are the methods of the same names in [src/app.js].

    Conventions of the embedding.
    - A JavaScript string is the list of its code units.  The development
      covers the code units 0..255 (ASCII and Latin-1), on which
      [String.prototype.toLowerCase] works one unit at a time; a code unit is
      an [ascii].
    - A JavaScript number that holds an integer is a [Z]; the single
      non-integer quantity of the program, the similarity ratio of the fuzzy
      stage, is a [Q].  A binary64 model of that computation gives the same
      scores for all words and queries of up to 200 code units
      ([binary64_agrees]).
    - [undefined] and [NaN] are [None].
    - Regular expressions are values of a small abstract syntax, and run on a
      backtracking matcher with the priorities of ECMAScript (ordered
      alternatives, greedy quantifiers). *)

From Stdlib Require Import ZArith QArith Qround Ascii String Bool Lia.
From Stdlib Require Import Permutation Sorted.
From Stdlib Require SpecFloat DecimalString.
From stdpp Require Import base option list strings gmap.

Open Scope Z_scope.

(** ** JavaScript strings *)

Abbreviation jsstring := (list ascii).

(** A string literal of the source, as a list of code units. *)
Definition lit (s : string) : jsstring := list_ascii_of_string s.

Module Js.

Definition code (c : ascii) : Z := Z.of_N (N_of_ascii c).

Definition inRange (lo hi : Z) (c : ascii) : bool :=
  (lo <=? code c) && (code c <=? hi).

(** [[0-9]] and [\d]. *)
Definition isDigit (c : ascii) : bool := inRange 48 57 c.

(** [[A-Za-z]], without the [i] flag. *)
Definition isAlpha (c : ascii) : bool := inRange 65 90 c || inRange 97 122 c.

(** [\s], and the characters [trim] strips: WhiteSpace and LineTerminator
    of ECMAScript, below code 256: TAB, LF, VT, FF, CR, SP and NBSP. *)
Definition isSpace (c : ascii) : bool :=
  inRange 9 13 c || (code c =? 32) || (code c =? 160).

(** [toLowerCase] on one code unit: A-Z, and the Latin-1 capitals
    U+00C0..U+00DE except the multiplication sign U+00D7. *)
Definition isUpper (c : ascii) : bool :=
  inRange 65 90 c || (inRange 192 222 c && negb (code c =? 215)).

Definition lowerChar (c : ascii) : ascii :=
  if isUpper c then ascii_of_N (Z.to_N (code c + 32)) else c.

(** [s.toLowerCase()] on a string of code units 0..255, the strings of the
    development: there the mapping goes unit by unit and keeps the length.
    Outside them it does not (U+0130 becomes two units), and such strings
    are no values of [jsstring]. *)
Definition toLowerCase (s : jsstring) : jsstring := map lowerChar s.

(** [Canonicalize] of the [i] flag (non-unicode mode): the code unit of
    [toUpperCase] when that is a single unit.  Below 256 this moves a-z and
    U+00E0..U+00FE except the division sign U+00F7; sharp s has a two-unit
    upper case and stays, and the upper cases of U+00B5 and U+00FF lie above
    255 and are shared with no other unit of the range. *)
Definition isLower (c : ascii) : bool :=
  inRange 97 122 c || (inRange 224 254 c && negb (code c =? 247)).

Definition canonicalize (c : ascii) : ascii :=
  if isLower c then ascii_of_N (Z.to_N (code c - 32)) else c.

Definition len (s : jsstring) : Z := Z.of_nat (length s).

Definition eqb (a b : jsstring) : bool := bool_decide (a = b).

(** [s.startsWith(q)] *)
Fixpoint startsWith (s q : jsstring) {struct q} : bool :=
  match q, s with
  | [], _ => true
  | _ :: _, [] => false
  | b :: q', a :: s' => bool_decide (a = b) && startsWith s' q'
  end.

(** [s.endsWith(q)] *)
Definition endsWith (s q : jsstring) : bool := startsWith (rev s) (rev q).

(** [s.includes(q)]: [q] occurs at some index of [s]. *)
Fixpoint includes (s q : jsstring) : bool :=
  startsWith s q || match s with [] => false | _ :: s' => includes s' q end.

(** [s.trim()] *)
Fixpoint trimStart (s : jsstring) : jsstring :=
  match s with
  | c :: s' => if isSpace c then trimStart s' else s
  | [] => []
  end.

Definition trim (s : jsstring) : jsstring := rev (trimStart (rev (trimStart s))).

(** [s.charAt(i)]: the empty string ([None]) out of range. *)
Definition charAt (s : jsstring) (i : nat) : option ascii := s !! i.

(** [a.slice(0, e)] on an array: a negative [e] counts from the end. *)
Definition slice0 {A} (l : list A) (e : Z) : list A :=
  if e <? 0 then take (Z.to_nat (Z.max (Z.of_nat (length l) + e) 0)) l
  else take (Z.to_nat e) l.

(** [a.sort(cmp)]: the sort of ECMAScript 2019 is stable, and for a
    consistent comparator the result is then unique; it is computed here by
    insertion, an element going before the first one it does not follow. *)
Fixpoint insertBy {A} (cmp : A -> A -> Z) (x : A) (l : list A) : list A :=
  match l with
  | [] => [x]
  | y :: l' => if cmp x y <=? 0 then x :: l else y :: insertBy cmp x l'
  end.

Definition sort {A} (cmp : A -> A -> Z) (l : list A) : list A :=
  foldr (insertBy cmp) [] l.

End Js.

(** ** Regular expressions *)

Module Regex.

(** What matches one code unit. *)
Inductive atom : Type :=
| Chr (c : ascii)
| Cls (p : ascii -> bool).

(** The patterns of the program quantify single-character atoms only. *)
Inductive regex : Type :=
| Atom (a : atom)
| Star (a : atom)
| Plus (a : atom)
| Seq (r1 r2 : regex)
| Alt (r1 r2 : regex)
| Eps
| Bol
| Eol
| Group (r : regex).

(** [ic] is the [i] flag. *)
Definition accepts (ic : bool) (a : atom) (d : ascii) : bool :=
  match a with
  | Chr c =>
      if ic then bool_decide (Js.canonicalize c = Js.canonicalize d)
      else bool_decide (c = d)
  | Cls p => p d
  end.

Definition cont : Type := nat -> jsstring -> option nat.

(** Greedy iteration: take one more character first, fall back to the
    continuation when the rest then fails. *)
Fixpoint star (ok : ascii -> bool) (pos : nat) (s : jsstring) (k : cont)
  : option nat :=
  match s with
  | c :: s' =>
      if ok c then
        match star ok (S pos) s' k with
        | Some e => Some e
        | None => k pos s
        end
      else k pos s
  | [] => k pos s
  end.

(** The backtracking matcher: [pos] is the index of [s] in the input, and
    the result the index where the whole match ends. *)
Fixpoint run (ic : bool) (r : regex) (pos : nat) (s : jsstring) (k : cont)
  : option nat :=
  match r with
  | Atom a =>
      match s with
      | c :: s' => if accepts ic a c then k (S pos) s' else None
      | [] => None
      end
  | Star a => star (accepts ic a) pos s k
  | Plus a =>
      match s with
      | c :: s' =>
          if accepts ic a c then star (accepts ic a) (S pos) s' k else None
      | [] => None
      end
  | Seq r1 r2 => run ic r1 pos s (fun p' s' => run ic r2 p' s' k)
  | Alt r1 r2 =>
      match run ic r1 pos s k with
      | Some e => Some e
      | None => run ic r2 pos s k
      end
  | Eps => k pos s
  | Bol => if (pos =? 0)%nat then k pos s else None
  | Eol => match s with [] => k pos s | _ :: _ => None end
  | Group r' => run ic r' pos s k
  end.

(** The match that starts at index [pos], as the index of its end. *)
Definition execAt (ic : bool) (r : regex) (pos : nat) (s : jsstring)
  : option nat :=
  run ic r pos s (fun e _ => Some e).

(** [r.test(s)]: some index starts a match. *)
Fixpoint testFrom (ic : bool) (r : regex) (pos : nat) (s : jsstring) : bool :=
  match execAt ic r pos s with
  | Some _ => true
  | None =>
      match s with
      | [] => false
      | _ :: s' => testFrom ic r (S pos) s'
      end
  end.

Definition test (ic : bool) (r : regex) (s : jsstring) : bool :=
  testFrom ic r 0 s.

(** [s.match(r)] with the [g] flag: the matches from left to right, each
    search resuming where the last match ended (one unit further after an
    empty match).  [skip] counts the units of the last match still to pass. *)
Fixpoint matchAllFrom (ic : bool) (r : regex) (skip pos : nat) (s : jsstring)
  : list jsstring :=
  match s with
  | [] =>
      match skip, execAt ic r pos [] with
      | O, Some _ => [[]]
      | _, _ => []
      end
  | _ :: s' =>
      match skip with
      | S n => matchAllFrom ic r n (S pos) s'
      | O =>
          match execAt ic r pos s with
          | Some e =>
              take (e - pos) s :: matchAllFrom ic r (e - pos - 1) (S pos) s'
          | None => matchAllFrom ic r 0 (S pos) s'
          end
      end
  end.

(** [s.match(r) || []] *)
Definition matchAll (ic : bool) (r : regex) (s : jsstring) : list jsstring :=
  matchAllFrom ic r 0 0 s.

(** [s.split(r)] for a separator without capture groups: [cur] is the piece
    being read.  An empty match splits only when the piece is not empty. *)
Fixpoint splitFrom (ic : bool) (r : regex) (skip pos : nat)
    (cur s : jsstring) : list jsstring :=
  match s with
  | [] => [cur]
  | c :: s' =>
      match skip with
      | S n => splitFrom ic r n (S pos) cur s'
      | O =>
          match execAt ic r pos s with
          | Some e =>
              if (pos <? e)%nat then
                cur :: splitFrom ic r (e - pos - 1) (S pos) [] s'
              else
                match cur with
                | [] => splitFrom ic r 0 (S pos) [c] s'
                | _ :: _ => cur :: splitFrom ic r 0 (S pos) [c] s'
                end
          | None => splitFrom ic r 0 (S pos) (cur ++ [c]) s'
          end
      end
  end.

Definition split (ic : bool) (r : regex) (s : jsstring) : list jsstring :=
  match s with
  | [] => match execAt ic r 0 [] with Some _ => [] | None => [[]] end
  | _ :: _ => splitFrom ic r 0 0 [] s
  end.

(** [s.replace(r, template)] with the [g] flag; [tpl] builds the
    replacement from the matched text. *)
Fixpoint replaceFrom (ic : bool) (r : regex) (tpl : jsstring -> jsstring)
    (skip pos : nat) (s : jsstring) : jsstring :=
  match s with
  | [] =>
      match skip, execAt ic r pos [] with
      | O, Some _ => tpl []
      | _, _ => []
      end
  | c :: s' =>
      match skip with
      | S n => replaceFrom ic r tpl n (S pos) s'
      | O =>
          match execAt ic r pos s with
          | Some e =>
              if (pos <? e)%nat then
                tpl (take (e - pos) s)
                  ++ replaceFrom ic r tpl (e - pos - 1) (S pos) s'
              else tpl [] ++ c :: replaceFrom ic r tpl 0 (S pos) s'
          | None => c :: replaceFrom ic r tpl 0 (S pos) s'
          end
      end
  end.

Definition replaceAll (ic : bool) (r : regex) (tpl : jsstring -> jsstring)
    (s : jsstring) : jsstring :=
  replaceFrom ic r tpl 0 0 s.

(** *** [new RegExp(source)]

    The syntax characters of ECMAScript patterns.  The parser reads the
    patterns made of one group around literal characters and escaped syntax
    characters, which is the shape [highlightSearchTerm] builds; any other
    source is outside the fragment ([None]). *)
Definition isSyntaxChar (c : ascii) : bool :=
  bool_decide (c ∈ lit "^$\.*+?()[]{}|").

Definition backslash : ascii := "\"%char.

Fixpoint parseLiterals (src : jsstring) : option regex :=
  match src with
  | [] => Some Eps
  | c :: rest =>
      if bool_decide (c = backslash) then
        match rest with
        | d :: rest' =>
            if isSyntaxChar d then Seq (Atom (Chr d)) <$> parseLiterals rest'
            else None
        | [] => None
        end
      else if isSyntaxChar c then None
      else Seq (Atom (Chr c)) <$> parseLiterals rest
  end.

Definition parseGroup (src : jsstring) : option regex :=
  match src with
  | c :: rest =>
      if bool_decide (c = "("%char) then
        match rev rest with
        | d :: body =>
            if bool_decide (d = ")"%char) then Group <$> parseLiterals (rev body)
            else None
        | [] => None
        end
      else None
  | [] => None
  end.

End Regex.

(** ** The utilities ([escapeRegExp], [levenshteinDistance]) *)

Module Utils.

(** The character class [[.*+?^${}()|[\]\\]] of [escapeRegExp]. *)
Definition escapedClass (c : ascii) : bool :=
  bool_decide (c ∈ lit ".*+?^${}()|[]\").

(** [string.replace(/[.*+?^${}()|[\]\\]/g, '\\$&')]: the template is a
    backslash followed by the match. *)
Definition escapeRegExp (s : jsstring) : jsstring :=
  Regex.replaceAll false (Regex.Atom (Regex.Cls escapedClass))
    (fun m => Regex.backslash :: m) s.

(** A number of the distance table; [None] is what a read outside an array
    gives ([undefined]), and what arithmetic on it gives ([NaN]). *)
Abbreviation jsnum := (option Z).

Abbreviation matrix := (list (list jsnum)).

(** [a[i] = v]: inside the array the element is replaced; at or past its
    length the array grows, the indices in between being holes. *)
Definition arrSet {A} (hole : A) (a : list A) (i : nat) (v : A) : list A :=
  if decide (i < length a)%nat then <[i:=v]> a
  else a ++ replicate (i - length a) hole ++ [v].

(** [matrix[i][j]].  (On a missing row JavaScript throws; every row that is
    read has been created by the first loop, see [levRows_length].) *)
Definition cell (m : matrix) (i j : nat) : jsnum :=
  row ← m !! i; mjoin (row !! j).

(** [matrix[i][j] = v]  (The row exists, as for [cell].) *)
Definition setCell (m : matrix) (i j : nat) (v : jsnum) : matrix :=
  match m !! i with
  | Some row => <[i:=arrSet None row j v]> m
  | None => m
  end.

Definition plus1 (x : jsnum) : jsnum := (fun n => n + 1) <$> x.

(** [Math.min(a, b, c)] *)
Definition min3 (a b c : jsnum) : jsnum :=
  x ← a; y ← b; z ← c; Some (Z.min x (Z.min y z)).

(** [for (let i = 0; i <= str2.length; i++) matrix[i] = [i];] *)
Definition levRows (str2 : jsstring) : matrix :=
  foldl (fun m i => arrSet [] m i [Some (Z.of_nat i)]) []
    (seq 0 (S (length str2))).

(** [for (let j = 0; j <= str1.length; j++) matrix[0][j] = j;] *)
Definition levRow0 (str1 : jsstring) (m : matrix) : matrix :=
  foldl (fun m j => setCell m 0 j (Some (Z.of_nat j))) m
    (seq 0 (S (length str1))).

(** The body of the inner loop. *)
Definition levCell (str1 str2 : jsstring) (i j : nat) (m : matrix) : matrix :=
  if bool_decide (Js.charAt str2 (i - 1) = Js.charAt str1 (j - 1)) then
    setCell m i j (cell m (i - 1) (j - 1))
  else
    setCell m i j
      (min3 (plus1 (cell m (i - 1) (j - 1)))
            (plus1 (cell m i (j - 1)))
            (plus1 (cell m (i - 1) j))).

(** [for (let j = 1; j <= str1.length; j++) ...] *)
Definition levInner (str1 str2 : jsstring) (i : nat) (m : matrix) : matrix :=
  foldl (fun m j => levCell str1 str2 i j m) m (seq 1 (length str1)).

(** [for (let i = 1; i <= str2.length; i++) ...] *)
Definition levOuter (str1 str2 : jsstring) (m : matrix) : matrix :=
  foldl (fun m i => levInner str1 str2 i m) m (seq 1 (length str2)).

Definition levenshteinDistance (str1 str2 : jsstring) : jsnum :=
  let matrix := levOuter str1 str2 (levRow0 str1 (levRows str2)) in
  cell matrix (length str2) (length str1).

End Utils.

(** ** The data of the building graph *)

Module Node.
Record t : Type := Build {
  id : jsstring;
  name : jsstring;
  type : jsstring;
  floor : Z;
  search_keywords : option (list jsstring)
}.
End Node.

Record LibraryData : Type := { nodes : list Node.t }.

Record Config : Type := { maxSuggestions : Z }.

(** An element of [results]: [{ node, score }]. *)
Module Scored.
Record t : Type := Build { node : Node.t; score : Z }.
End Scored.

(** ** [class SearchEngine] *)

Module SearchEngine.
Import Js.

(** [this.config = config || { maxSuggestions: 6 }] *)
Definition defaultConfig : Config := {| maxSuggestions := 6 |}.

Definition new (config : option Config) : Config :=
  default defaultConfig config.

Definition spaces : Regex.regex := Regex.Plus (Regex.Cls isSpace).

(** [text.split(/\s+/)] *)
Definition words (text : jsstring) : list jsstring :=
  Regex.split false spaces text.

Definition hasPartialWordMatch (text query : jsstring) : bool :=
  existsb
    (fun word =>
       if includes word query then
         if len query <=? 2 then
           startsWith word query || endsWith word query
           || Regex.test false (Regex.Atom (Regex.Cls isDigit)) query
         else true
       else false)
    (words text).

Definition digits : Regex.atom := Regex.Cls isDigit.
Definition letters : Regex.atom := Regex.Cls isAlpha.

(** [[0-9]+[A-Za-z]*] *)
Definition numberCode : Regex.regex :=
  Regex.Seq (Regex.Plus digits) (Regex.Star letters).

(** [[A-Za-z]+[0-9]+[A-Za-z]*] *)
Definition roomCode : Regex.regex :=
  Regex.Seq (Regex.Plus letters) (Regex.Seq (Regex.Plus digits) (Regex.Star letters)).

Definition anchored (r : Regex.regex) : Regex.regex :=
  Regex.Seq Regex.Bol (Regex.Seq r Regex.Eol).

Definition matchesPattern (query : jsstring) : bool :=
  Regex.test false (anchored numberCode) query
  || Regex.test false (anchored roomCode) query.

(** The loop returns at the first pattern that equals or contains the
    query. *)
Fixpoint patternLoop (patterns : list jsstring) (query : jsstring) : Z :=
  match patterns with
  | [] => 0
  | pattern :: rest =>
      if eqb (toLowerCase pattern) query then 85
      else if includes (toLowerCase pattern) query then 75
      else patternLoop rest query
  end.

Definition getPatternMatchScore (text query : jsstring) : Z :=
  let patterns := Regex.matchAll false (Regex.Alt numberCode roomCode) text in
  patternLoop patterns query.

(** [(maxLength - distance) / maxLength]; [None] when the quotient is not a
    finite number: the distance is not one, or both lengths are 0.  A
    comparison with it is false. *)
Definition similarity (maxLength : Z) (distance : Utils.jsnum) : option Q :=
  d ← distance;
  if maxLength =? 0 then None else Some ((maxLength - d) # Z.to_pos maxLength).

Definition fuzzyStep (query : jsstring) (bestScore : Z) (word : jsstring) : Z :=
  if Z.abs (len word - len query) <=? 2 then
    let distance := Utils.levenshteinDistance word query in
    let maxLength := Z.max (len word) (len query) in
    match similarity maxLength distance with
    | Some sim =>
        if Qle_bool (7 # 10) sim then Z.max bestScore (Qfloor (sim * 60))
        else bestScore
    | None => bestScore
    end
  else bestScore.

Definition getFuzzyMatchScore (text query : jsstring) : Z :=
  foldl (fuzzyStep query) 0 (words text).

(** *** Scoring one node: the nine heuristics, in program order *)

(** Heuristics 1 to 5, the [if ... else if] chain. *)
Definition nameScore (nameLower : jsstring) (nameWords : list jsstring)
    (queryLower : jsstring) : Z :=
  if eqb nameLower queryLower then 100
  else if startsWith nameLower queryLower then 95
  else if existsb (fun word => startsWith word queryLower) nameWords then 90
  else if includes nameLower queryLower then 85
  else if hasPartialWordMatch nameLower queryLower then 80
  else 0.

(** The body of [node.search_keywords.forEach]. *)
Definition keywordStep (queryLower : jsstring) (keywordScore : Z)
    (keyword : jsstring) : Z :=
  let keywordLower := toLowerCase keyword in
  if eqb keywordLower queryLower then Z.max keywordScore 75
  else if startsWith keywordLower queryLower then Z.max keywordScore 70
  else if includes keywordLower queryLower then Z.max keywordScore 65
  else keywordScore.

(** Heuristic 6. *)
Definition withKeywords (node : Node.t) (queryLower : jsstring) (score : Z) : Z :=
  match Node.search_keywords node with
  | Some keywords => Z.max score (foldl (keywordStep queryLower) 0 keywords)
  | None => score
  end.

(** Heuristic 7. *)
Definition withShortQuery (nameLower : jsstring) (nameWords : list jsstring)
    (queryLower : jsstring) (score : Z) : Z :=
  if (len queryLower <=? 3) && (score =? 0) then
    let wordContainsQuery :=
      existsb (fun word => includes word queryLower) nameWords in
    let score := if wordContainsQuery then 75 else score in
    if (score =? 0) && includes nameLower queryLower then 70 else score
  else score.

(** Heuristic 8. *)
Definition withPattern (nameLower queryLower : jsstring) (score : Z) : Z :=
  if matchesPattern queryLower then
    Z.max score (getPatternMatchScore nameLower queryLower)
  else score.

(** Heuristic 9. *)
Definition withFuzzy (nameLower queryLower : jsstring) (score : Z) : Z :=
  if (score =? 0) && (3 <=? len queryLower) then
    Z.max score (getFuzzyMatchScore nameLower queryLower)
  else score.

(** The score after heuristics 1 to 6. *)
Definition scoreAfterKeywords (queryLower : jsstring) (node : Node.t) : Z :=
  let nameLower := toLowerCase (Node.name node) in
  let nameWords := words nameLower in
  withKeywords node queryLower (nameScore nameLower nameWords queryLower).

(** The score after heuristics 1 to 8. *)
Definition scoreBeforeFuzzy (queryLower : jsstring) (node : Node.t) : Z :=
  let nameLower := toLowerCase (Node.name node) in
  let nameWords := words nameLower in
  withPattern nameLower queryLower
    (withShortQuery nameLower nameWords queryLower
       (scoreAfterKeywords queryLower node)).

(** The value of [score] at the end of the callback of [forEach]. *)
Definition scoreNode (queryLower : jsstring) (node : Node.t) : Z :=
  withFuzzy (toLowerCase (Node.name node)) queryLower
    (scoreBeforeFuzzy queryLower node).

(** The callback of [libraryData.nodes.forEach], on [results]. *)
Definition visit (queryLower : jsstring) (results : list Scored.t)
    (node : Node.t) : list Scored.t :=
  if negb (eqb (Node.type node) (lit "destination")) then results
  else
    let score := scoreNode queryLower node in
    if 0 <? score then results ++ [Scored.Build node score] else results.

(** The comparator of the sort. *)
Definition compare (a b : Scored.t) : Z :=
  if negb (Scored.score b =? Scored.score a) then
    Scored.score b - Scored.score a
  else len (Node.name (Scored.node a)) - len (Node.name (Scored.node b)).

Definition searchDestinations (config : Config) (query : jsstring)
    (libraryData : option LibraryData) : list Node.t :=
  match libraryData with
  | None => []
  | Some data =>
      let queryLower := trim (toLowerCase query) in
      let results := foldl (visit queryLower) [] (nodes data) in
      map Scored.node
        (slice0 (sort compare results) (maxSuggestions config))
  end.

(** *** [highlightSearchTerm] *)

Definition dquote : ascii := "034"%char.

Definition markOpen : jsstring :=
  lit "<mark class=" ++ [dquote] ++ lit "search-highlight" ++ [dquote] ++ lit ">".

Definition markClose : jsstring := lit "</mark>".

(** The template ['<mark class="search-highlight">$1</mark>']: the group 1
    of the pattern encloses the whole of it, so [$1] is the match. *)
Definition mark (matched : jsstring) : jsstring :=
  markOpen ++ matched ++ markClose.

(** [None]: the source given to [new RegExp] is outside the patterns that
    [Regex.parseGroup] reads. *)
Definition highlightSearchTerm (name searchTerm : jsstring) : option jsstring :=
  if (length searchTerm <? 1)%nat then Some name
  else
    regex ← Regex.parseGroup (lit "(" ++ Utils.escapeRegExp searchTerm ++ lit ")");
    Some (Regex.replaceAll true regex mark name).

End SearchEngine.


(** ** Definitions of the specification *)

Import SearchEngine.

(** [w] occurs in [s] as a contiguous block. *)
Definition infix (w s : jsstring) : Prop := ∃ l1 l2, s = l1 ++ w ++ l2.

(** The engine of the source with heuristic 7 (the short-query fallback)
    taken out, everything else unchanged. *)
Module Without7.

Definition scoreNode (queryLower : jsstring) (node : Node.t) : Z :=
  let nameLower := Js.toLowerCase (Node.name node) in
  withFuzzy nameLower queryLower
    (withPattern nameLower queryLower (scoreAfterKeywords queryLower node)).

Definition visit (queryLower : jsstring) (results : list Scored.t)
    (node : Node.t) : list Scored.t :=
  if negb (Js.eqb (Node.type node) (lit "destination")) then results
  else
    let score := scoreNode queryLower node in
    if 0 <? score then results ++ [Scored.Build node score] else results.

Definition searchDestinations (config : Config) (query : jsstring)
    (libraryData : option LibraryData) : list Node.t :=
  match libraryData with
  | None => []
  | Some data =>
      let queryLower := Js.trim (Js.toLowerCase query) in
      let results := foldl (visit queryLower) [] (nodes data) in
      map Scored.node
        (Js.slice0 (Js.sort compare results) (maxSuggestions config))
  end.

End Without7.

(** *** Edit distance *)

(** One single-character edit, anywhere in the string: an insertion, a
    deletion or a substitution. *)
Inductive edit : jsstring → jsstring → Prop :=
| edit_insert l1 c l2 : edit (l1 ++ l2) (l1 ++ c :: l2)
| edit_delete l1 c l2 : edit (l1 ++ c :: l2) (l1 ++ l2)
| edit_subst l1 c d l2 : edit (l1 ++ c :: l2) (l1 ++ d :: l2).

(** [edits n a b]: [n] successive edits transform [a] into [b]. *)
Inductive edits : nat → jsstring → jsstring → Prop :=
| edits_O a : edits 0 a a
| edits_S n a b c : edit a b → edits n b c → edits (S n) a c.

(** The recurrence of the table, as a function of two strings read from
    their heads: the cell [matrix[i][j]] is [lev] of the first [j] units of
    [str1] and the first [i] units of [str2], both reversed. *)
Fixpoint lev (a : jsstring) : jsstring → nat :=
  fix inner (b : jsstring) : nat :=
    match a, b with
    | [], _ => length b
    | _, [] => length a
    | x :: a', y :: b' =>
        if decide (x = y) then lev a' b'
        else S (Nat.min (lev a' b') (Nat.min (lev a' b) (inner b')))
    end.

(** The table of [levenshteinDistance str1 str2] while it is filled: the
    value due in the cell [(i, j)], the row [i] with its first [n] cells, and
    the state in which the rows before [i] are complete, the row [i] holds
    [j] cells and the rows after it the single cell of the first loop. *)
Module Table.
Section Table.
Variables str1 str2 : jsstring.

Definition due (i j : nat) : Z :=
  Z.of_nat (lev (rev (take j str1)) (rev (take i str2))).

Definition row (i n : nat) : list Utils.jsnum :=
  map (fun j => Some (due i j)) (seq 0 n).

Definition width (i j k : nat) : nat :=
  if (k <? i)%nat then S (length str1)
  else if (k =? i)%nat then j else 1%nat.

Definition filledTo (i j : nat) (m : Utils.matrix) : Prop :=
  length m = S (length str2)
  ∧ ∀ k, (k ≤ length str2)%nat → m !! k = Some (row k (width i j k)).
End Table.
End Table.

(** The edit distance, named: by [lev_rev_least] it is the least number of
    edits from [a] to [b]. *)
Definition editDistance (a b : jsstring) : nat := lev (rev a) (rev b).

(** The largest element of a list of scores, 0 for the empty list. *)
Definition maxOf (l : list Z) : Z := foldr Z.max 0 l.

(** *** The fuzzy heuristic, as the specification words it *)

Module FuzzySpec.

Definition maxLen (word query : jsstring) : Z :=
  Z.max (Js.len word) (Js.len query).

(** [1 - distance / max(len(word), len(query))] *)
Definition similarity (word query : jsstring) : Q :=
  1 - (Z.of_nat (editDistance word query) # Z.to_pos (maxLen word query)).

(** A word is considered when its length is within 2 of the query's. *)
Definition considered (word query : jsstring) : bool :=
  Z.abs (Js.len word - Js.len query) <=? 2.

(** A considered word is accepted when its similarity is at least 0.70.  The
    quotient has no value when the word and the query are both empty (0/0),
    and the comparison is then false. *)
Definition accepted (word query : jsstring) : bool :=
  negb (maxLen word query =? 0) && Qle_bool (7 # 10) (similarity word query).

Definition wordScore (query word : jsstring) : Z :=
  if considered word query && accepted word query
  then Qfloor (similarity word query * 60)
  else 0.

Definition score (text query : jsstring) : Z :=
  maxOf (map (wordScore query) (words text)).

End FuzzySpec.

(** *** The fuzzy score in double precision

    [similarity] and [similarity * 60] are the only numbers of the program
    that are not integers.  This is the computation of a word's score on
    IEEE 754 binary64 values, to compare with the exact one. *)
Module Binary64.
Import SpecFloat.

Definition prec : Z := 53.
Definition emax : Z := 1024.

Definition ofZ (n : Z) : spec_float := binary_normalize prec emax n 0 false.

(** The literal [0.7]: 0x3FE6666666666666. *)
Definition c07 : spec_float := S754_finite false 6305039478318694 (-53).

(** [Math.floor] of a finite double. *)
Definition floor (x : spec_float) : option Z :=
  match x with
  | S754_zero _ => Some 0
  | S754_finite s m e =>
      let v := if s then Z.neg m else Z.pos m in
      Some (if 0 <=? e then v * 2 ^ e else v / 2 ^ (- e))
  | _ => None
  end.

(** [None]: the word is not accepted. *)
Definition wordScore (maxLength distance : Z) : option Z :=
  let similarity := SFdiv prec emax (ofZ (maxLength - distance)) (ofZ maxLength) in
  if SFleb c07 similarity then floor (SFmul prec emax similarity (ofZ 60))
  else None.

(** The same on exact rationals, as [fuzzyStep] has it. *)
Definition exactWordScore (maxLength distance : Z) : option Z :=
  match similarity maxLength (Some distance) with
  | Some sim => if Qle_bool (7 # 10) sim then Some (Qfloor (sim * 60)) else None
  | None => None
  end.

(** All pairs [0 <= distance <= maxLength <= bound] agree. *)
Definition agreeUpTo (bound : nat) : bool :=
  forallb
    (fun m =>
       forallb
         (fun d =>
            bool_decide
              (wordScore (Z.of_nat m) (Z.of_nat d)
               = exactWordScore (Z.of_nat m) (Z.of_nat d)))
         (seq 0 (S m)))
    (seq 0 (S bound)).

End Binary64.

(** *** The nine heuristics, one by one

    Each is the score that heuristic alone gives a node (0 when the node does
    not qualify).  Heuristics 7 and 9 are stated with their gates, which read
    the running score [running] of the heuristics before them. *)
Module Heuristic.

Definition nameLower (node : Node.t) : jsstring :=
  Js.toLowerCase (Node.name node).

(** 1. Exact case-insensitive name match. *)
Definition exactName (q : jsstring) (node : Node.t) : Z :=
  if Js.eqb (nameLower node) q then 100 else 0.

(** 2. Name starts with the query. *)
Definition namePrefix (q : jsstring) (node : Node.t) : Z :=
  if Js.startsWith (nameLower node) q then 95 else 0.

(** 3. A word of the name starts with the query. *)
Definition wordPrefix (q : jsstring) (node : Node.t) : Z :=
  if existsb (fun w => Js.startsWith w q) (words (nameLower node))
  then 90 else 0.

(** 4. The name contains the query. *)
Definition substring (q : jsstring) (node : Node.t) : Z :=
  if Js.includes (nameLower node) q then 85 else 0.

(** 5. Partial word match. *)
Definition partialWord (q : jsstring) (node : Node.t) : Z :=
  if hasPartialWordMatch (nameLower node) q then 80 else 0.

(** 6. Keywords: the best over the keywords of the node. *)
Definition keywordScore (q keyword : jsstring) : Z :=
  let k := Js.toLowerCase keyword in
  if Js.eqb k q then 75
  else if Js.startsWith k q then 70
  else if Js.includes k q then 65
  else 0.

Definition keywords (q : jsstring) (node : Node.t) : Z :=
  match Node.search_keywords node with
  | Some kws => maxOf (map (keywordScore q) kws)
  | None => 0
  end.

(** 7. Short-query fallback. *)
Definition shortQuery (q : jsstring) (node : Node.t) (running : Z) : Z :=
  if (Js.len q <=? 3) && (running =? 0) then
    if existsb (fun w => Js.includes w q) (words (nameLower node)) then 75
    else if Js.includes (nameLower node) q then 70
    else 0
  else 0.

(** 8. Room-code pattern. *)
Definition pattern (q : jsstring) (node : Node.t) : Z :=
  if matchesPattern q then getPatternMatchScore (nameLower node) q else 0.

(** 9. Fuzzy fallback. *)
Definition fuzzy (q : jsstring) (node : Node.t) (running : Z) : Z :=
  if (running =? 0) && (3 <=? Js.len q)
  then getFuzzyMatchScore (nameLower node) q else 0.

Definition upTo6 (q : jsstring) (node : Node.t) : list Z :=
  [exactName q node; namePrefix q node; wordPrefix q node;
   substring q node; partialWord q node; keywords q node].

Definition upTo8 (q : jsstring) (node : Node.t) : list Z :=
  upTo6 q node ++ [shortQuery q node (maxOf (upTo6 q node)); pattern q node].

Definition all (q : jsstring) (node : Node.t) : list Z :=
  upTo8 q node ++ [fuzzy q node (maxOf (upTo8 q node))].

End Heuristic.

(** *** Ranking *)

Definition isDestination (n : Node.t) : bool :=
  Js.eqb (Node.type n) (lit "destination").

(** The candidates of a query: the destination nodes that score above 0,
    each with its score, in load order. *)
Definition candidates (queryLower : jsstring) (l : list Node.t) : list Scored.t :=
  map (fun n => Scored.Build n (scoreNode queryLower n))
    (List.filter (fun n => isDestination n && (0 <? scoreNode queryLower n)) l).

Definition nameLength (s : Scored.t) : Z := Js.len (Node.name (Scored.node s)).

(** [a] may stand before [b]: a higher score, or the same score and a name
    that is not longer. *)
Definition ranksBefore (a b : Scored.t) : Prop :=
  Scored.score b < Scored.score a
  ∨ (Scored.score a = Scored.score b ∧ nameLength a ≤ nameLength b).

(** The two keys of the order. *)
Definition rankKey (s : Scored.t) : Z * Z := (Scored.score s, nameLength s).

Definition hasKey (k : Z * Z) (s : Scored.t) : bool := bool_decide (rankKey s = k).

(** *** Sample data *)

Module Sample.

Definition destination (id name : string) (keywords : option (list jsstring))
  : Node.t :=
  Node.Build (lit id) (lit name) (lit "destination") 1 keywords.

Definition lab : Node.t := destination "f1-lab" "Lab" None.
Definition annex : Node.t := destination "f1-annex" "Computer Lab Annex" None.
Definition room2B : Node.t := destination "f2-2b" "Room 2B" None.
Definition room12B : Node.t := destination "f2-12b" "Room 12B 2B" None.
Definition breakRoom : Node.t :=
  destination "f2-break" "2nd Floor Break Room" (Some [lit "2b lounge"]).
Definition commons : Node.t := destination "f1-commons" "Library Commons" None.
Definition stairs : Node.t :=
  Node.Build (lit "f1-stairs") (lit "Stairs") (lit "other") 1 None.

Definition library : LibraryData :=
  {| nodes := [stairs; annex; breakRoom; room2B; lab; commons] |}.

End Sample.

(** *** Highlighting *)

Module Highlight.

(** The result of highlighting, before it is flattened to a string: the
    name cut into plain characters and marked blocks. *)
Inductive segment : Type :=
| Plain (c : ascii)
| Marked (m : jsstring).

Definition renderSegment (s : segment) : jsstring :=
  match s with
  | Plain c => [c]
  | Marked m => mark m
  end.

Definition render (segs : list segment) : jsstring :=
  concat (map renderSegment segs).

Definition segmentText (s : segment) : jsstring :=
  match s with
  | Plain c => [c]
  | Marked m => m
  end.

(** The text the segments cover. *)
Definition plainText (segs : list segment) : jsstring :=
  concat (map segmentText segs).

(** The indices of the text at which the marked blocks start, the first
    segment starting at [offset]. *)
Fixpoint markedStarts (offset : nat) (segs : list segment) : list nat :=
  match segs with
  | [] => []
  | Plain _ :: rest => markedStarts (S offset) rest
  | Marked m :: rest => offset :: markedStarts (offset + length m) rest
  end.

(** The query occurs in the name at index [i], case-insensitively. *)
Definition occursAt (name q : jsstring) (i : nat) : Prop :=
  Js.toLowerCase (take (length q) (drop i name)) = Js.toLowerCase q.

Definition startsFolded (q s : jsstring) : bool :=
  bool_decide (Js.toLowerCase (take (length q) s) = Js.toLowerCase q).

(** The scan from left to right: an occurrence at the current index is
    marked and the scan resumes after it ([skip] counts the units of it
    still to pass); otherwise the character is plain. *)
Fixpoint scanFrom (q : jsstring) (skip : nat) (s : jsstring) : list segment :=
  match s with
  | [] => []
  | c :: s' =>
      match skip with
      | S n => scanFrom q n s'
      | O =>
          if startsFolded q s then
            Marked (take (length q) s) :: scanFrom q (length q - 1) s'
          else Plain c :: scanFrom q 0 s'
      end
  end.

(** A character as [escapeRegExp] leaves it: after a backslash when it is
    one of the class. *)
Definition escapeChar (c : ascii) : jsstring :=
  if Utils.escapedClass c then [Regex.backslash; c] else [c].

(** The pattern that matches the characters of [q] one after the other. *)
Definition literal (q : jsstring) : Regex.regex :=
  foldr (fun c r => Regex.Seq (Regex.Atom (Regex.Chr c)) r) Regex.Eps q.

(** For each unit of the covered text, whether it lies in a marked block. *)
Definition coverage (segs : list segment) : list bool :=
  concat (map (fun s => match s with
                        | Plain _ => [false]
                        | Marked m => replicate (length m) true
                        end) segs).

(** C9 as it is stated: the output is the name with some blocks marked, and
    every occurrence of the query lies in marked text, whichever way the
    blocks are cut (one block for several overlapping occurrences would
    do). *)
Definition wrapsEveryOccurrence (name q out : jsstring) : Prop :=
  ∃ segs,
    out = render segs
    ∧ plainText segs = name
    ∧ ∀ i k, occursAt name q i → (i ≤ k < i + length q)%nat →
             coverage segs !! k = Some true.

End Highlight.

(** The code units 0..255. *)
Definition allAscii : list ascii := map ascii_of_nat (seq 0 256).

(** ** Further definitions of the specification *)

(** *** What a pattern matches

    [matchesAt ic r pos a b]: at index [pos] of the input the pattern [r]
    can match the block [a], the rest of the input being [b].  The
    backtracking matcher finds a match exactly when there is one
    ([run_matchesAt]). *)
Fixpoint matchesAt (ic : bool) (r : Regex.regex) (pos : nat) (a b : jsstring)
  : Prop :=
  match r with
  | Regex.Atom t => ∃ c, a = [c] ∧ Regex.accepts ic t c = true
  | Regex.Star t => Forall (fun c => Regex.accepts ic t c = true) a
  | Regex.Plus t => a ≠ [] ∧ Forall (fun c => Regex.accepts ic t c = true) a
  | Regex.Seq r1 r2 =>
      ∃ a1 a2, a = a1 ++ a2
               ∧ matchesAt ic r1 pos a1 (a2 ++ b)
               ∧ matchesAt ic r2 (pos + length a1) a2 b
  | Regex.Alt r1 r2 => matchesAt ic r1 pos a b ∨ matchesAt ic r2 pos a b
  | Regex.Eps => a = []
  | Regex.Bol => a = [] ∧ pos = 0%nat
  | Regex.Eol => a = [] ∧ b = []
  | Regex.Group r' => matchesAt ic r' pos a b
  end.

Definition allDigits (s : jsstring) : Prop := Forall (fun c => Js.isDigit c = true) s.
Definition allLetters (s : jsstring) : Prop := Forall (fun c => Js.isAlpha c = true) s.

(** One or more digits, then letters: 2, 214, 2b. *)
Definition isNumberCode (q : jsstring) : Prop :=
  ∃ d l, q = d ++ l ∧ d ≠ [] ∧ allDigits d ∧ allLetters l.

(** One or more letters, one or more digits, then letters: a14, b2c. *)
Definition isRoomCode (q : jsstring) : Prop :=
  ∃ l1 d l2, q = l1 ++ d ++ l2 ∧ l1 ≠ [] ∧ d ≠ []
             ∧ allLetters l1 ∧ allDigits d ∧ allLetters l2.

(** *** The fuzzy heuristic on doubles

    [getFuzzyMatchScore] with [similarity] and [similarity * 60] computed on
    binary64 values, as the program runs it. *)
Module Doubles.

Definition fuzzyStep (query : jsstring) (bestScore : Z) (word : jsstring) : Z :=
  if Z.abs (Js.len word - Js.len query) <=? 2 then
    match Utils.levenshteinDistance word query with
    | Some distance =>
        let maxLength := Z.max (Js.len word) (Js.len query) in
        match Binary64.wordScore maxLength distance with
        | Some score => Z.max bestScore score
        | None => bestScore
        end
    | None => bestScore
    end
  else bestScore.

Definition getFuzzyMatchScore (text query : jsstring) : Z :=
  foldl (fuzzyStep query) 0 (words text).

End Doubles.

(** A string under the case folding of the [i] flag: every code unit
    replaced by its [Canonicalize]. *)
Definition canonicalizeAll (s : jsstring) : jsstring := map Js.canonicalize s.

(** ** More of the strings

    [s.split(sep)] for a separator of one code unit, [a.join(sep)], and the
    text of a number in a template literal. *)

Fixpoint splitOn (sep : ascii) (cur s : jsstring) : list jsstring :=
  match s with
  | [] => [cur]
  | c :: s' =>
      if bool_decide (c = sep) then cur :: splitOn sep [] s'
      else splitOn sep (cur ++ [c]) s'
  end.

Definition split1 (sep : ascii) (s : jsstring) : list jsstring := splitOn sep [] s.

Fixpoint join (sep : jsstring) (l : list jsstring) : jsstring :=
  match l with
  | [] => []
  | [w] => w
  | w :: l' => w ++ sep ++ join sep l'
  end.

(** [Number::toString] for the numbers that hold an integer.  The number is
    a double: an integer [n] of the data stands for the double nearest to
    it, as [JSON.parse] reads it.  The text has the digits of the least
    [k]-digit integer [s] for which [s * 10^(n - k)] is read back as the
    same double (the closest to it when there are several, the even one of
    two that are as close), then [n - k] zeros when [n <= 21], and the
    exponent form [d.ddde+x] above. *)
Module Number.

(** The double nearest to [n], ties to even; [None] is [Infinity]. *)
Definition toDouble (n : Z) : option Z := Binary64.floor (Binary64.ofZ n).

Definition digits (n : Z) : jsstring :=
  lit (DecimalString.NilZero.string_of_int (Z.to_int n)).

(** Does the text of [s * 10^e] stand for the double [v]? *)
Definition readsBack (v s e : Z) : bool :=
  bool_decide (toDouble (s * 10 ^ e) = Some v).

(** The [k]-digit candidates for [v], a double of [d] digits: [s] is next
    to [v / 10^e], below or above. *)
Definition candidates (v d k : Z) : list (Z * Z) :=
  e ← [d - k; d - k + 1];
  s ← [v / 10 ^ e; v / 10 ^ e + 1];
  if (0 <=? e) && (10 ^ (k - 1) <=? s) && (s <? 10 ^ k) && readsBack v s e
  then [(s, e)] else [].

Definition closer (v : Z) (a b : Z * Z) : Z * Z :=
  let da := Z.abs (a.1 * 10 ^ a.2 - v) in
  let db := Z.abs (b.1 * 10 ^ b.2 - v) in
  if da <? db then a
  else if db <? da then b
  else if Z.even a.1 then a else b.

Fixpoint shortestFrom (v d : Z) (fuel : nat) (k : Z) : option (Z * Z) :=
  match fuel with
  | O => None
  | S fuel' =>
      match candidates v d k with
      | c :: l => Some (foldl (closer v) c l)
      | [] => shortestFrom v d fuel' (k + 1)
      end
  end.

(** The digits of [v] themselves read back as [v], so the search ends by
    [k = d]. *)
Definition shortest (v : Z) : Z * Z :=
  let d := Z.of_nat (length (digits v)) in
  default (v, 0) (shortestFrom v d (Z.to_nat d) 1).

(** The text of a double [v >= 1]. *)
Definition render (v : Z) : jsstring :=
  let '(s, e) := shortest v in
  let k := Z.of_nat (length (digits s)) in
  let n := e + k in
  if n <=? 21 then digits s ++ replicate (Z.to_nat e) "0"%char
  else
    match digits s with
    | [] => []
    | c :: rest =>
        c :: match rest with [] => [] | _ :: _ => "."%char :: rest end
        ++ lit "e+" ++ digits (n - 1)
    end.

Definition toString (n : Z) : jsstring :=
  if n =? 0 then lit "0"
  else
    (if n <? 0 then lit "-" else [])
    ++ match toDouble (Z.abs n) with
       | Some v => render v
       | None => lit "Infinity"
       end.

End Number.

Definition numberToString (n : Z) : jsstring := Number.toString n.

(** ** The application around the engine ([src/app.js])

    The handlers of [class WayfinderApp] are functions on the fields of
    [this.state] they read and write, and on the four facts of the page they
    read and write as well: the value of the search input, the items of the
    suggestion list (one per node), whether the list is shown, and which of
    the two views is displayed.  Drawing (map, QR code, direction steps) is
    outside the model. *)

Module RouteStep.
Record t : Type := Build {
  instruction : jsstring;
  floor : option Z;
  type : jsstring;
  path_id : option jsstring;
  landmark_photo : option jsstring;
  next_floor : option Z
}.
End RouteStep.

Abbreviation Route := (list RouteStep.t).

(** [libraryData]: the nodes, and the table [paths] of the precomputed
    routes, an object keyed by ["<startId>-<endId>"]. *)
Record LibraryGraph : Type := {
  library : LibraryData;
  paths : option (gmap jsstring Route)
}.

Inductive View : Type := SelectionView | DirectionsView.

Record State : Type := {
  currentFloor : Z;
  selectedDestination : option Node.t;
  currentRoute : option Route;
  libraryData : option LibraryGraph;
  (** the page *)
  searchInput : jsstring;
  suggestionItems : list Node.t;
  highlighted : option nat;
  suggestionsShown : bool;
  view : View
}.

(** [matchInfo] *)
Inductive MatchInfo : Type :=
| NameMatch (matchedText : jsstring)
| KeywordMatch (matchedText : jsstring)
| OtherMatch.

(** The kiosk, start of every route. *)
Definition kiosk : jsstring := lit "F1_KIOSK_A".

(** [`${startId}-${endId}`] *)
Definition routeKey (startId endId : jsstring) : jsstring :=
  startId ++ lit "-" ++ endId.

(** The property names that an object literal inherits from
    [Object.prototype]. *)
Definition inherited (name : jsstring) : bool :=
  bool_decide
    (name ∈ map lit
       ["constructor"; "hasOwnProperty"; "isPrototypeOf";
        "propertyIsEnumerable"; "toLocaleString"; "toString"; "valueOf";
        "__proto__"; "__defineGetter__"; "__defineSetter__";
        "__lookupGetter__"; "__lookupSetter__"]).

(** The first application of [src/app.js] (lines 8 to 1214). *)
Module App.

(** [this.config.maxSuggestions] of the constructor. *)
Definition config : Config := {| maxSuggestions := 6 |}.

Definition getMatchInfo (node : Node.t) (query : jsstring) : MatchInfo :=
  let nameLower := Js.toLowerCase (Node.name node) in
  let queryLower := Js.toLowerCase query in
  if Js.includes nameLower queryLower then NameMatch query
  else
    match Node.search_keywords node with
    | Some keywords =>
        match List.find
                (fun keyword => Js.includes (Js.toLowerCase keyword) queryLower)
                keywords with
        | Some (c :: k) => KeywordMatch (c :: k)
        | Some [] => OtherMatch   (* the empty string is falsy *)
        | None => OtherMatch
        end
    | None => OtherMatch
    end.

(** An element of [results]: [{ node, score, matchInfo }]. *)
Record Found : Type := {
  node : Node.t;
  score : Z;
  matchInfo : MatchInfo
}.

Definition forget (r : Found) : Scored.t := Scored.Build (node r) (score r).

Definition visit (queryLower : jsstring) (results : list Found) (n : Node.t)
  : list Found :=
  if negb (Js.eqb (Node.type n) (lit "destination")) then results
  else
    let score := scoreNode queryLower n in
    if 0 <? score
    then results ++ [{| node := n; score := score;
                        matchInfo := getMatchInfo n queryLower |}]
    else results.

Definition compare (a b : Found) : Z :=
  if negb (score b =? score a) then score b - score a
  else Js.len (Node.name (node a)) - Js.len (Node.name (node b)).

(** [searchDestinations(query)], on [this.state.libraryData]. *)
Definition searchDestinations (st : State) (query : jsstring) : list Node.t :=
  match libraryData st with
  | None => []
  | Some g =>
      let queryLower := Js.trim (Js.toLowerCase query) in
      let results := foldl (visit queryLower) [] (nodes (library g)) in
      map node (Js.slice0 (Js.sort compare results) (maxSuggestions config))
  end.

Definition hideSuggestions (st : State) : State :=
  {| currentFloor := currentFloor st;
     selectedDestination := selectedDestination st;
     currentRoute := currentRoute st;
     libraryData := libraryData st;
     searchInput := searchInput st;
     suggestionItems := suggestionItems st;
     highlighted := None;
     suggestionsShown := false;
     view := view st |}.

Definition showSuggestions (st : State) : State :=
  {| currentFloor := currentFloor st;
     selectedDestination := selectedDestination st;
     currentRoute := currentRoute st;
     libraryData := libraryData st;
     searchInput := searchInput st;
     suggestionItems := suggestionItems st;
     highlighted := highlighted st;
     suggestionsShown := true;
     view := view st |}.

(** [container.innerHTML = ''] and one new item per suggestion. *)
Definition setItems (items : list Node.t) (st : State) : State :=
  {| currentFloor := currentFloor st;
     selectedDestination := selectedDestination st;
     currentRoute := currentRoute st;
     libraryData := libraryData st;
     searchInput := searchInput st;
     suggestionItems := items;
     highlighted := None;
     suggestionsShown := suggestionsShown st;
     view := view st |}.

(** With no suggestion the list is hidden and its old items stay. *)
Definition displaySuggestions (suggestions : list Node.t) (st : State) : State :=
  match suggestions with
  | [] => hideSuggestions st
  | _ :: _ => showSuggestions (setItems suggestions st)
  end.

(** The debounced [handleSearch(e)]: [e.target] is the search input. *)
Definition handleSearch (st : State) : State :=
  let query := Js.toLowerCase (Js.trim (searchInput st)) in
  if (length query =? 0)%nat then hideSuggestions st
  else displaySuggestions (searchDestinations st query) st.

Definition generateRoute (st : State) (startId endId : jsstring) : option Route :=
  match libraryData st with
  | None => None
  | Some g =>
      match paths g with
      | None => None
      | Some table => table !! routeKey startId endId
      end
  end.

Definition setView (v : View) (st : State) : State :=
  {| currentFloor := currentFloor st;
     selectedDestination := selectedDestination st;
     currentRoute := currentRoute st;
     libraryData := libraryData st;
     searchInput := searchInput st;
     suggestionItems := suggestionItems st;
     highlighted := highlighted st;
     suggestionsShown := suggestionsShown st;
     view := v |}.

Definition setSelection (d : option Node.t) (r : option Route) (st : State)
  : State :=
  {| currentFloor := currentFloor st;
     selectedDestination := d;
     currentRoute := r;
     libraryData := libraryData st;
     searchInput := searchInput st;
     suggestionItems := suggestionItems st;
     highlighted := highlighted st;
     suggestionsShown := suggestionsShown st;
     view := view st |}.

Section Page.

(** [displayRoute(route)] draws the steps, the code for the hand-off and
    the route on the map, and writes no field of the model.  Whether it
    returns or throws (a [path_id] that is no selector makes
    [querySelector] throw) is left to the page: [displayRoute st route] is
    [true] when the call returns. *)
Variable displayRoute : State -> Route -> bool.

(** [selectDestination(nodeId)].  A null [libraryData] makes the first
    statement throw, before anything is written; every caller has the call
    as its last statement, so a listener that throws leaves the state the
    handler had reached. *)
Definition selectDestination (nodeId : jsstring) (st : State) : State :=
  match libraryData st with
  | None => st
  | Some g =>
      match List.find (fun n => Js.eqb (Node.id n) nodeId) (nodes (library g)) with
      | None => st
      | Some destination =>
          let st := hideSuggestions
                      (setSelection (Some destination) (currentRoute st) st) in
          match generateRoute st kiosk nodeId with
          | Some route =>
              let st := setSelection (Some destination) (Some route) st in
              if displayRoute st route then setView DirectionsView st else st
          | None => st
          end
      end
  end.

Definition handleSearchSubmit (st : State) : State :=
  let query := Js.trim (searchInput st) in
  match query with
  | [] => st
  | _ :: _ =>
      match searchDestinations st query with
      | first :: _ => selectDestination (Node.id first) st
      | [] => st
      end
  end.

Definition setFloor (f : Z) (st : State) : State :=
  {| currentFloor := f;
     selectedDestination := selectedDestination st;
     currentRoute := currentRoute st;
     libraryData := libraryData st;
     searchInput := searchInput st;
     suggestionItems := suggestionItems st;
     highlighted := highlighted st;
     suggestionsShown := suggestionsShown st;
     view := view st |}.

Definition switchFloor (f : Z) (st : State) : State :=
  if currentFloor st =? f then st else setFloor f st.

Definition setInput (v : jsstring) (st : State) : State :=
  {| currentFloor := currentFloor st;
     selectedDestination := selectedDestination st;
     currentRoute := currentRoute st;
     libraryData := libraryData st;
     searchInput := v;
     suggestionItems := suggestionItems st;
     highlighted := highlighted st;
     suggestionsShown := suggestionsShown st;
     view := view st |}.

Definition showSelectionView (st : State) : State :=
  let st := setView SelectionView st in
  let st := setInput [] st in
  let st := hideSuggestions st in
  let st := setSelection None None st in
  if negb (currentFloor st =? 1) then switchFloor 1 st else st.

(** [categoryMap[category] || []].  The map is an object literal: a
    name that it inherits from [Object.prototype] gives a function or an
    object, which is truthy and no array ([None]). *)
Definition categoryKeywords (category : jsstring) : option (list jsstring) :=
  if Js.eqb category (lit "restroom")
  then Some [lit "restroom"; lit "bathroom"; lit "wc"]
  else if Js.eqb category (lit "study") then Some [lit "study"; lit "group room"]
  else if Js.eqb category (lit "computer")
  then Some [lit "computer"; lit "lab"; lit "tech"; lit "printing"]
  else if inherited category then None
  else Some [].

Definition inCategory (keywords : list jsstring) (n : Node.t) : bool :=
  if negb (Js.eqb (Node.type n) (lit "destination")) then false
  else
    existsb
      (fun keyword =>
         match Node.search_keywords n with
         | Some sks =>
             existsb (fun sk => Js.includes (Js.toLowerCase sk)
                                  (Js.toLowerCase keyword)) sks
         | None => false
         end
         || Js.includes (Js.toLowerCase (Node.name n)) (Js.toLowerCase keyword))
      keywords.

(** [matchingNodes]; [None]: [keywords.some] is not a function, which the
    first destination node met by the filter makes a TypeError. *)
Definition categoryMatches (category : jsstring) (l : list Node.t)
  : option (list Node.t) :=
  match categoryKeywords category with
  | Some keywords => Some (List.filter (inCategory keywords) l)
  | None => if existsb isDestination l then None else Some []
  end.

Definition handleCategorySelect (category : jsstring) (st : State) : State :=
  match libraryData st with
  | None => st
  | Some g =>
      match categoryMatches category (nodes (library g)) with
      | None => st
      | Some [] => st
      | Some [one] => selectDestination (Node.id one) st
      | Some matching => displaySuggestions matching st
      end
  end.

(** [checkUrlParameters], on the values of the parameters [start] and
    [end] of the address ([None]: absent). *)
Definition truthy (s : option jsstring) : bool :=
  match s with Some (_ :: _) => true | _ => false end.

Definition checkUrlParameters (startId endId : option jsstring) (st : State)
  : State :=
  if truthy startId && truthy endId
  then selectDestination (default [] endId) st
  else st.

(** [handleKeydown(e)], by [e.key]. *)
Definition setHighlighted (h : option nat) (st : State) : State :=
  {| currentFloor := currentFloor st;
     selectedDestination := selectedDestination st;
     currentRoute := currentRoute st;
     libraryData := libraryData st;
     searchInput := searchInput st;
     suggestionItems := suggestionItems st;
     highlighted := h;
     suggestionsShown := suggestionsShown st;
     view := view st |}.

Definition arrowDown (st : State) : State :=
  let n := length (suggestionItems st) in
  match highlighted st with
  | Some i => setHighlighted (Some (if (S i <? n)%nat then S i else 0%nat)) st
  | None => if (0 <? n)%nat then setHighlighted (Some 0%nat) st else st
  end.

Definition arrowUp (st : State) : State :=
  let n := length (suggestionItems st) in
  match highlighted st with
  | Some i =>
      setHighlighted (Some (match i with S j => j | O => (n - 1)%nat end)) st
  | None => if (0 <? n)%nat then setHighlighted (Some (n - 1)%nat) st else st
  end.

Definition enter (st : State) : State :=
  match highlighted st with
  | Some i =>
      match suggestionItems st !! i with
      | Some n => selectDestination (Node.id n) st
      | None => st
      end
  | None => handleSearchSubmit st
  end.

(** What happens on the page: the user types or presses a key, the
    delayed search handler fires, a button or an item is pressed.  A press
    outside the search section reaches the listener of the document as
    well, which is the event [ClickOutside] after the event of the press;
    [FloorButton f] is a floor button whose [data-floor] reads as [f];
    [Handoff] is [checkUrlParameters] on the two parameters of the
    address. *)
Inductive Event : Type :=
| Type_ (value : jsstring)
| SearchDue
| Focus
| KeyArrowDown
| KeyArrowUp
| KeyEnter
| KeyEscape
| SearchButton
| CategoryButton (category : jsstring)
| ClickItem (i : nat)
| ClickOutside
| BackButton
| FloorButton (f : Z)
| Handoff (startId endId : option jsstring).

(** The listeners of [setupEventListeners] and of [displaySuggestions]. *)
Definition step (st : State) (e : Event) : State :=
  match e with
  | Type_ v => setInput v st
  | SearchDue => handleSearch st
  | Focus =>
      match Js.trim (searchInput st) with
      | [] => st
      | _ :: _ => showSuggestions st
      end
  | KeyArrowDown => arrowDown st
  | KeyArrowUp => arrowUp st
  | KeyEnter => enter st
  | KeyEscape => hideSuggestions st
  | SearchButton => handleSearchSubmit st
  | CategoryButton c => handleCategorySelect c st
  | ClickItem i =>
      match suggestionItems st !! i with
      | Some n => selectDestination (Node.id n) st
      | None => st
      end
  | ClickOutside => hideSuggestions st
  | BackButton => showSelectionView st
  | FloorButton f => switchFloor f st
  | Handoff s e' => checkUrlParameters s e' st
  end.

Definition run (events : list Event) (st : State) : State :=
  foldl step st events.

End Page.

(** [getSuggestionBadge(node)]: the four badges are four fixed pieces of
    markup that differ in their pictogram, and the empty string. *)
Inductive Badge : Type := Restroom | Study | Computer | Archives.

Definition hasKeyword (keywords : list jsstring) (k : string) : bool :=
  bool_decide (lit k ∈ keywords).

Definition getSuggestionBadge (n : Node.t) : option Badge :=
  let keywords := default [] (Node.search_keywords n) in
  if hasKeyword keywords "restroom" || hasKeyword keywords "bathroom"
  then Some Restroom
  else if hasKeyword keywords "study" || hasKeyword keywords "group room"
  then Some Study
  else if hasKeyword keywords "computer" || hasKeyword keywords "lab"
  then Some Computer
  else if hasKeyword keywords "special" || hasKeyword keywords "archives"
  then Some Archives
  else None.

(** The selector of the end marker in [addRouteMarkers]:
    [`#F${destination.floor}_${destination.id.split('_').slice(1).join('_')}_DEST`]. *)
Definition underscore : ascii := "_"%char.

Definition idWithoutFloor (id : jsstring) : jsstring :=
  join [underscore] (drop 1 (split1 underscore id)).

Definition endMarkerSelector (destination : Node.t) : jsstring :=
  lit "#F" ++ numberToString (Node.floor destination) ++ [underscore]
  ++ idWithoutFloor (Node.id destination) ++ lit "_DEST".

(** The category whose keywords, in the orchestrator, are the two keywords
    that give a badge. *)
Definition badgeCategory (b : Badge) : option jsstring :=
  match b with
  | Restroom => Some (lit "restroom")
  | Study => Some (lit "study")
  | Computer => Some (lit "computer")
  | Archives => None
  end.

(** What holds of the state between two events. *)
Record Consistent (st : State) : Prop := {
  directions_have_route :
    view st = DirectionsView → is_Some (currentRoute st);
  route_has_destination :
    is_Some (currentRoute st) → is_Some (selectedDestination st);
  destination_is_node :
    ∀ d, selectedDestination st = Some d →
      ∃ g, libraryData st = Some g ∧ d ∈ nodes (library g);
  route_is_stored :
    ∀ r, currentRoute st = Some r →
      ∃ g table endId, libraryData st = Some g ∧ paths g = Some table
        ∧ table !! routeKey kiosk endId = Some r;
  items_are_destinations :
    ∀ n, n ∈ suggestionItems st →
      ∃ g, libraryData st = Some g ∧ n ∈ nodes (library g)
        ∧ isDestination n = true;
  highlighted_is_item :
    ∀ i, highlighted st = Some i → (i < length (suggestionItems st))%nat
}.

End App.

(** The second application, the orchestrator that uses [SearchEngine]
    (lines 1222 to 1495). *)
Module Main.

Definition config : Config := {| maxSuggestions := 6 |}.

(** [hideSuggestions] only removes the class [show]. *)
Definition hideSuggestions (st : State) : State :=
  {| currentFloor := currentFloor st;
     selectedDestination := selectedDestination st;
     currentRoute := currentRoute st;
     libraryData := libraryData st;
     searchInput := searchInput st;
     suggestionItems := suggestionItems st;
     highlighted := highlighted st;
     suggestionsShown := false;
     view := view st |}.

(** [displaySuggestions]: the list is emptied first. *)
Definition displaySuggestions (suggestions : list Node.t) (st : State) : State :=
  let st := App.setItems [] st in
  match suggestions with
  | [] => hideSuggestions st
  | _ :: _ => App.showSuggestions (App.setItems suggestions st)
  end.

Definition handleSearch (st : State) : State :=
  let query := searchInput st in
  match query with
  | [] => hideSuggestions st
  | _ :: _ =>
      displaySuggestions
        (SearchEngine.searchDestinations (SearchEngine.new (Some config)) query
           (library <$> libraryData st))
        st
  end.

Definition categoryKeywords (category : jsstring) : option (list jsstring) :=
  if Js.eqb category (lit "restroom") then Some [lit "restroom"; lit "bathroom"]
  else if Js.eqb category (lit "study") then Some [lit "study"; lit "group room"]
  else if Js.eqb category (lit "computer") then Some [lit "computer"; lit "lab"]
  else if inherited category then None
  else Some [].

Definition inCategory (keywords : list jsstring) (n : Node.t) : bool :=
  Js.eqb (Node.type n) (lit "destination")
  && existsb
       (fun k =>
          Js.includes (Js.toLowerCase (Node.name n)) k
          || match Node.search_keywords n with
             | Some sks => existsb (fun sk => Js.includes sk k) sks
             | None => false
             end)
       keywords.

(** [matches], with [None] as in the first application. *)
Definition categoryMatches (category : jsstring) (l : list Node.t)
  : option (list Node.t) :=
  match categoryKeywords category with
  | Some keywords => Some (List.filter (inCategory keywords) l)
  | None => if existsb isDestination l then None else Some []
  end.

End Main.

(** A small library for the examples: a kiosk, two destinations and the
    stored route to one of them. *)
Module Kiosk.

Definition restroom : Node.t :=
  Node.Build (lit "F1_RESTROOM_A") (lit "Restroom") (lit "destination") 1
    (Some [lit "restroom"; lit "bathroom"]).

Definition techDesk : Node.t :=
  Node.Build (lit "F2_TECH_DESK") (lit "Tech Help Desk") (lit "destination") 2
    (Some [lit "help"]).

Definition entrance : Node.t :=
  Node.Build kiosk (lit "Main Entrance Kiosk") (lit "kiosk") 1 None.

Definition toRestroom : Route :=
  [RouteStep.Build (lit "Turn left at the desk") (Some 1) (lit "walk")
     (Some (lit "F1_PATH_A")) None None].

Definition graph : LibraryGraph :=
  {| library := {| nodes := [entrance; restroom; techDesk] |};
     paths := Some {[ routeKey kiosk (lit "F1_RESTROOM_A") := toRestroom ]} |}.

(** The state once the data is loaded, with [input] typed. *)
Definition loaded (input : jsstring) : State :=
  {| currentFloor := 1;
     selectedDestination := None;
     currentRoute := None;
     libraryData := Some graph;
     searchInput := input;
     suggestionItems := [];
     highlighted := None;
     suggestionsShown := false;
     view := SelectionView |}.

Definition drawn : State -> Route -> bool := fun _ _ => true.

End Kiosk.

(** ** Strings: prefixes and occurrences *)

Section Strings.

Lemma startsWith_prefix (s q : jsstring) :
  Js.startsWith s q = true ↔ ∃ r, s = q ++ r.
Proof.
  revert s. induction q as [|b q IH]; intros s; simpl.
  - split; [intros _; by exists s | done].
  - destruct s as [|a s].
    + split; [done | intros [r Hr]; discriminate].
    + rewrite andb_true_iff, bool_decide_eq_true, IH. split.
      * intros [-> [r ->]]. by exists r.
      * intros [r Hr]. injection Hr as -> ->. eauto.
Qed.


Lemma startsWith_refl (s : jsstring) : Js.startsWith s s = true.
Proof. apply startsWith_prefix. exists []. by rewrite app_nil_r. Qed.

Lemma includes_infix (s q : jsstring) : Js.includes s q = true ↔ infix q s.
Proof.
  unfold infix. induction s as [|a s IH]; simpl.
  - rewrite orb_false_r, startsWith_prefix. split.
    + intros [r Hr]. by exists [], r.
    + intros (l1 & l2 & H). symmetry in H.
      apply app_eq_nil in H as [-> H]. apply app_eq_nil in H as [-> ->].
      by exists [].
  - rewrite orb_true_iff, IH, startsWith_prefix. split.
    + intros [[r Hr] | (l1 & l2 & ->)].
      * by exists [], r.
      * by exists (a :: l1), l2.
    + intros (l1 & l2 & H). destruct l1 as [|a' l1]; simpl in H.
      * left. eauto.
      * right. injection H as -> ->. eauto.
Qed.

Lemma infix_trans (a b c : jsstring) : infix a b → infix b c → infix a c.
Proof.
  intros (l1 & l2 & ->) (k1 & k2 & ->).
  exists (k1 ++ l1), (l2 ++ k2). by rewrite !app_assoc.
Qed.

Lemma startsWith_includes (s q : jsstring) :
  Js.startsWith s q = true → Js.includes s q = true.
Proof. destruct s; simpl; intros ->; done. Qed.

(** Every piece of a split is a block of the text. *)
Lemma splitFrom_infix ic r (s : jsstring) :
  ∀ skip pos cur w,
    (skip ≠ 0%nat → cur = []) →
    w ∈ Regex.splitFrom ic r skip pos cur s → infix w (cur ++ s).
Proof.
  induction s as [|c s IH]; intros skip pos cur w Hskip; simpl.
  - intros ->%list_elem_of_singleton. exists [], []. by rewrite !app_nil_r.
  - assert (Hshift : ∀ w', infix w' s → infix w' (cur ++ c :: s)).
    { intros w' (l1 & l2 & ->). exists (cur ++ c :: l1), l2.
      by rewrite <- app_assoc. }
    assert (Hcur : infix cur (cur ++ c :: s)) by (by exists [], (c :: s)).
    assert (Hsnoc : ∀ w', infix w' ((cur ++ [c]) ++ s) → infix w' (cur ++ c :: s)).
    { intros w'. by rewrite <- app_assoc. }
    destruct skip as [|n].
    + destruct (Regex.execAt ic r pos (c :: s)) as [e|].
      * destruct (pos <? e)%nat.
        -- intros [->|Hw]%elem_of_cons; [done|].
           apply Hshift. eapply (IH _ _ [] w); [|exact Hw]. done.
        -- destruct cur as [|c0 cur].
           ++ intros Hw. apply (IH _ _ [c] w) in Hw; done.
           ++ intros [->|Hw]%elem_of_cons; [done|].
              apply (IH _ _ [c] w) in Hw; [|done].
              destruct Hw as (l1 & l2 & Hw). simpl in Hw.
              exists (c0 :: cur ++ l1), l2. simpl. rewrite Hw.
              by rewrite <- app_assoc.
      * intros Hw. apply Hsnoc. by apply (IH _ _ _ w) in Hw.
    + rewrite (Hskip ltac:(done)). intros Hw.
      apply (IH _ _ [] w) in Hw; [|done].
      destruct Hw as (l1 & l2 & Hw). simpl in Hw. rewrite Hw.
      by exists (c :: l1), l2.
Qed.

Lemma words_infix (text w : jsstring) : w ∈ words text → infix w text.
Proof.
  unfold words, Regex.split. destruct text as [|c s].
  - destruct (Regex.execAt _ _ _ _).
    + by intros ?%elem_of_nil.
    + intros ->%list_elem_of_singleton. by exists [], [].
  - intros Hw. by apply (splitFrom_infix _ _ _ 0%nat 0%nat [] w) in Hw.
Qed.

Lemma existsb_elem_of {A} (f : A → bool) (l : list A) :
  existsb f l = true ↔ ∃ x, x ∈ l ∧ f x = true.
Proof.
  rewrite existsb_exists. by setoid_rewrite list_elem_of_In.
Qed.

(** A word that contains the query puts the query in the name. *)
Lemma word_includes (text q : jsstring) :
  existsb (fun word => Js.includes word q) (words text) = true →
  Js.includes text q = true.
Proof.
  rewrite existsb_elem_of. intros (w & Hw & Hq).
  apply includes_infix. apply includes_infix in Hq.
  eapply infix_trans; [exact Hq | by apply words_infix].
Qed.

End Strings.

(** ** The recurrence of the distance table is the edit distance *)

Section Lev.

Lemma lev_nil_l (b : jsstring) : lev [] b = length b.
Proof. by destruct b. Qed.

Lemma lev_nil_r (a : jsstring) : lev a [] = length a.
Proof. by destruct a. Qed.

Lemma lev_cons x (a : jsstring) y (b : jsstring) :
  lev (x :: a) (y :: b) =
    if decide (x = y) then lev a b
    else S (Nat.min (lev a b) (Nat.min (lev a (y :: b)) (lev (x :: a) b))).
Proof. reflexivity. Qed.

Lemma lev_refl (a : jsstring) : lev a a = 0%nat.
Proof.
  induction a as [|x a IH]; [done|]. rewrite lev_cons. by case_decide.
Qed.

(** Adding or removing a head unit on either side moves the value by at
    most one. *)
Lemma lev_head_step (n : nat) :
  ∀ a b : jsstring, (length a + length b ≤ n)%nat →
    (∀ c, lev (c :: a) b ≤ S (lev a b))%nat
    ∧ (∀ c, lev a b ≤ S (lev (c :: a) b))%nat
    ∧ (∀ y, lev a (y :: b) ≤ S (lev a b))%nat
    ∧ (∀ y, lev a b ≤ S (lev a (y :: b)))%nat.
Proof.
  induction n as [|n IH]; intros a b Hn.
  - destruct a, b; simpl in Hn; try lia.
    repeat split; intros; simpl; lia.
  - repeat split.
    + intros c. destruct b as [|y b]; [rewrite !lev_nil_r; simpl; lia|].
      rewrite lev_cons. case_decide; [|lia].
      apply (IH a b); simpl in *; lia.
    + intros c. destruct b as [|y b]; [rewrite !lev_nil_r; simpl; lia|].
      rewrite lev_cons.
      destruct (IH a b) as (_ & H2 & H3 & _); [simpl in *; lia|].
      specialize (H2 c). specialize (H3 y). case_decide; lia.
    + intros y. destruct a as [|x a]; [rewrite !lev_nil_l; simpl; lia|].
      rewrite lev_cons. case_decide; [|lia].
      apply (IH a b); simpl in *; lia.
    + intros y. destruct a as [|x a]; [rewrite !lev_nil_l; simpl; lia|].
      rewrite lev_cons.
      destruct (IH a b) as (H1 & _ & _ & H4); [simpl in *; lia|].
      specialize (H1 x). specialize (H4 y). case_decide; lia.
Qed.

Lemma lev_cons_l c (a b : jsstring) : (lev (c :: a) b ≤ S (lev a b))%nat.
Proof. by apply (lev_head_step (length a + length b)). Qed.

Lemma lev_uncons_l c (a b : jsstring) : (lev a b ≤ S (lev (c :: a) b))%nat.
Proof. by apply (lev_head_step (length a + length b)). Qed.

Lemma lev_cons_r y (a b : jsstring) : (lev a (y :: b) ≤ S (lev a b))%nat.
Proof. by apply (lev_head_step (length a + length b)). Qed.

Lemma lev_uncons_r y (a b : jsstring) : (lev a b ≤ S (lev a (y :: b)))%nat.
Proof. by apply (lev_head_step (length a + length b)). Qed.

(** A bound that holds against every target survives a common head. *)
Lemma lev_under_head x (u v : jsstring) :
  (∀ b, lev u b ≤ S (lev v b))%nat →
  ∀ b, (lev (x :: u) b ≤ S (lev (x :: v) b))%nat.
Proof.
  intros Huv b. induction b as [|y b IH].
  - rewrite !lev_nil_r. specialize (Huv []). rewrite !lev_nil_r in Huv.
    simpl. lia.
  - rewrite !lev_cons. pose proof (Huv b). pose proof (Huv (y :: b)).
    case_decide; lia.
Qed.

Lemma lev_subst_head c d (l b : jsstring) :
  (lev (c :: l) b ≤ S (lev (d :: l) b))%nat.
Proof.
  destruct b as [|y b]; [rewrite !lev_nil_r; simpl; lia|].
  rewrite !lev_cons.
  pose proof (lev_uncons_r y l b). pose proof (lev_uncons_l d l b).
  repeat case_decide; lia.
Qed.

(** One edit of the source string moves the value by at most one. *)
Lemma lev_edit (a a' : jsstring) :
  edit a a' → ∀ b, (lev a b ≤ S (lev a' b))%nat.
Proof.
  intros [l1 c l2 | l1 c l2 | l1 c d l2];
    (induction l1 as [|x l1 IH]; simpl; [|by apply lev_under_head]); intros b.
  - apply lev_uncons_l.
  - apply lev_cons_l.
  - apply lev_subst_head.
Qed.

Lemma lev_lower_bound n (a b : jsstring) : edits n a b → (lev a b ≤ n)%nat.
Proof.
  induction 1 as [a | n a a' b Hstep _ IH].
  - by rewrite lev_refl.
  - pose proof (lev_edit _ _ Hstep b). lia.
Qed.

Lemma edit_under_head x (a b : jsstring) : edit a b → edit (x :: a) (x :: b).
Proof.
  intros [l1 c l2 | l1 c l2 | l1 c d l2].
  - apply (edit_insert (x :: l1)).
  - apply (edit_delete (x :: l1)).
  - apply (edit_subst (x :: l1)).
Qed.

Lemma edits_under_head x n (a b : jsstring) :
  edits n a b → edits n (x :: a) (x :: b).
Proof.
  induction 1; econstructor; eauto using edit_under_head.
Qed.

Lemma edits_from_nil (b : jsstring) : edits (length b) [] b.
Proof.
  induction b as [|y b IH]; [constructor|]. simpl.
  apply (edits_S _ _ [y]).
  - apply (edit_insert [] y []).
  - by apply edits_under_head.
Qed.

Lemma edits_to_nil (a : jsstring) : edits (length a) a [].
Proof.
  induction a as [|x a IH]; [constructor|]. simpl.
  apply (edits_S _ _ a); [apply (edit_delete [] x a) | done].
Qed.

Lemma lev_reached_sized (n : nat) :
  ∀ a b : jsstring, (length a + length b ≤ n)%nat → edits (lev a b) a b.
Proof.
  induction n as [|n IH]; intros a b Hn.
  - destruct a, b; simpl in Hn; try lia. constructor.
  - destruct a as [|x a]; [rewrite lev_nil_l; apply edits_from_nil|].
    destruct b as [|y b]; [rewrite lev_nil_r; apply edits_to_nil|].
    simpl in Hn. rewrite lev_cons. case_decide as Hxy.
    + subst y. apply edits_under_head, IH. lia.
    + destruct (Nat.min_spec (lev a (y :: b)) (lev (x :: a) b)) as [[_ ->]|[_ ->]];
        destruct (Nat.min_spec (lev a b) (lev a (y :: b))) as [[? E1]|[? E1]];
        destruct (Nat.min_spec (lev a b) (lev (x :: a) b)) as [[? E2]|[? E2]];
        rewrite ?E1, ?E2.
      all: first
        [ apply (edits_S _ _ (y :: a));
          [apply (edit_subst [] x y a) | apply edits_under_head, IH; lia]
        | apply (edits_S _ _ a);
          [apply (edit_delete [] x a) | apply IH; simpl; lia]
        | apply (edits_S _ _ (y :: x :: a));
          [apply (edit_insert [] y (x :: a))
          | apply edits_under_head, IH; simpl; lia] ].
Qed.

Lemma lev_reached (a b : jsstring) : edits (lev a b) a b.
Proof. by apply (lev_reached_sized (length a + length b)). Qed.

Lemma edit_rev (a b : jsstring) : edit a b → edit (rev a) (rev b).
Proof.
  intros [l1 c l2 | l1 c l2 | l1 c d l2];
    rewrite !rev_app_distr; simpl; rewrite <- ?app_assoc; simpl.
  - apply edit_insert.
  - apply edit_delete.
  - apply edit_subst.
Qed.

Lemma edits_rev n (a b : jsstring) : edits n a b → edits n (rev a) (rev b).
Proof. induction 1; econstructor; eauto using edit_rev. Qed.

(** [lev] on the reversed strings is the least number of edits. *)
Lemma lev_rev_least (a b : jsstring) :
  edits (lev (rev a) (rev b)) a b
  ∧ ∀ m, edits m a b → (lev (rev a) (rev b) ≤ m)%nat.
Proof.
  split.
  - pose proof (edits_rev _ _ _ (lev_reached (rev a) (rev b))) as H.
    by rewrite !rev_involutive in H.
  - intros m Hm. by apply lev_lower_bound, edits_rev.
Qed.

End Lev.

(** ** The distance table computes the recurrence *)

Section DistanceTable.
Import Utils.
Variables str1 str2 : jsstring.

Local Abbreviation due := (Table.due str1 str2).
Local Abbreviation row := (Table.row str1 str2).
Local Abbreviation filledTo := (Table.filledTo str1 str2).

Lemma foldl_seq_invariant {A} (P : nat → A → Prop) (f : A → nat → A) n :
  ∀ start a,
    (∀ k b, (start ≤ k < start + n)%nat → P k b → P (S k) (f b k)) →
    P start a → P (start + n)%nat (foldl f a (seq start n)).
Proof.
  induction n as [|n IH]; intros start a Hstep Ha; simpl.
  - by rewrite Nat.add_0_r.
  - rewrite <- Nat.add_succ_comm. apply IH.
    + intros k b Hk. apply Hstep. lia.
    + apply Hstep; [lia | done].
Qed.

Lemma due_row0 j : (j ≤ length str1)%nat → due 0 j = Z.of_nat j.
Proof.
  intros Hj. unfold Table.due. rewrite take_0, lev_nil_r, length_rev.
  by rewrite length_take_le.
Qed.

Lemma due_col0 i : (i ≤ length str2)%nat → due i 0 = Z.of_nat i.
Proof.
  intros Hi. unfold Table.due. rewrite take_0, lev_nil_l, length_rev.
  by rewrite length_take_le.
Qed.

Lemma due_step i j x y :
  str1 !! j = Some x → str2 !! i = Some y →
  due (S i) (S j) =
    if decide (x = y) then due i j
    else Z.min (due i j + 1) (Z.min (due (S i) j + 1) (due i (S j) + 1)).
Proof.
  intros Hx Hy. unfold Table.due.
  rewrite (take_S_r _ _ _ Hx), (take_S_r _ _ _ Hy), !rev_unit, lev_cons.
  case_decide; [done | lia].
Qed.

Lemma row_lookup i n j : (j < n)%nat → row i n !! j = Some (Some (due i j)).
Proof.
  intros Hj. unfold Table.row. rewrite list_lookup_fmap.
  by rewrite lookup_seq_lt.
Qed.

Lemma row_snoc i n : row i n ++ [Some (due i n)] = row i (S n).
Proof. unfold Table.row. by rewrite seq_S, map_app. Qed.

Lemma length_row i n : length (row i n) = n.
Proof. unfold Table.row. by rewrite length_map, length_seq. Qed.

Lemma cell_filled i j m k c :
  filledTo i j m → (k ≤ length str2)%nat → (c < Table.width str1 i j k)%nat →
  cell m k c = Some (due k c).
Proof.
  intros [_ Hm] Hk Hc. unfold cell. rewrite (Hm k Hk). simpl.
  by rewrite row_lookup.
Qed.

(** Writing the due value at the end of the current row. *)
Lemma setCell_filled i j m :
  filledTo i j m → (i ≤ length str2)%nat → (1 ≤ j)%nat →
  filledTo i (S j) (setCell m i j (Some (due i j))).
Proof.
  intros [Hlen Hm] Hi Hj. unfold setCell. rewrite (Hm i Hi).
  assert (Hwi : Table.width str1 i j i = j).
  { unfold Table.width. rewrite Nat.ltb_irrefl. by rewrite Nat.eqb_refl. }
  split; [by rewrite length_insert|].
  intros k Hk. destruct (decide (k = i)) as [->|Hne].
  - rewrite list_lookup_insert_eq by lia. f_equal.
    unfold arrSet. rewrite Hwi, length_row.
    case_decide; [lia|]. rewrite Nat.sub_diag. simpl.
    rewrite row_snoc. unfold Table.width.
    by rewrite Nat.ltb_irrefl, Nat.eqb_refl.
  - rewrite list_lookup_insert_ne by done. rewrite (Hm k Hk).
    unfold Table.width. destruct (k <? i)%nat; [done|].
    by destruct (Nat.eqb_spec k i).
Qed.

Lemma filledTo_next_row i m :
  filledTo i (S (length str1)) m → filledTo (S i) 1 m.
Proof.
  intros [Hlen Hm]. split; [done|]. intros k Hk. rewrite (Hm k Hk).
  f_equal. f_equal. unfold Table.width.
  destruct (Nat.ltb_spec k i), (Nat.ltb_spec k (S i)),
    (Nat.eqb_spec k i), (Nat.eqb_spec k (S i)); lia.
Qed.

(** The first loop. *)
Lemma levRows_spec :
  levRows str2 = map (fun i => [Some (Z.of_nat i)]) (seq 0 (S (length str2))).
Proof.
  unfold levRows.
  enough (H : ∀ n (acc : matrix),
    foldl (fun m i => arrSet [] m i [Some (Z.of_nat i)]) acc (seq (length acc) n)
    = acc ++ map (fun i => [Some (Z.of_nat i)]) (seq (length acc) n))
    by apply (H _ []).
  induction n as [|n IH]; intros acc; simpl; [by rewrite app_nil_r|].
  unfold arrSet at 2. case_decide; [lia|]. rewrite Nat.sub_diag. simpl.
  specialize (IH (acc ++ [[Some (Z.of_nat (length acc))]])).
  rewrite length_app in IH. simpl in IH. rewrite Nat.add_1_r in IH.
  rewrite IH. by rewrite <- app_assoc.
Qed.

Lemma levRows_length : length (levRows str2) = S (length str2).
Proof. by rewrite levRows_spec, length_map, length_seq. Qed.

Lemma levRows_filled : filledTo 0 1 (levRows str2).
Proof.
  split; [apply levRows_length|]. intros k Hk.
  rewrite levRows_spec, list_lookup_fmap, lookup_seq_lt by lia. simpl.
  f_equal. assert (Table.width str1 0 1 k = 1%nat) as ->.
  { unfold Table.width. by destruct k. }
  unfold Table.row. simpl. by rewrite due_col0.
Qed.

(** The second loop. *)
Lemma levRow0_filled :
  filledTo 0 (S (length str1)) (levRow0 str1 (levRows str2)).
Proof.
  unfold levRow0. rewrite <- cons_seq. simpl.
  assert (H0 : setCell (levRows str2) 0 0 (Some (Z.of_nat 0)) = levRows str2).
  { rewrite levRows_spec. reflexivity. }
  rewrite H0.
  apply (foldl_seq_invariant (fun j m => filledTo 0 j m) _ (length str1) 1).
  - intros j m Hj Hm. rewrite <- (due_row0 j) by lia.
    apply setCell_filled; [done | lia | lia].
  - apply levRows_filled.
Qed.

(** The body of the inner loop writes the due value. *)
Lemma levCell_filled i j m :
  (1 ≤ i ≤ length str2)%nat → (1 ≤ j ≤ length str1)%nat →
  filledTo i j m → filledTo i (S j) (levCell str1 str2 i j m).
Proof.
  intros Hi Hj Hm. destruct i as [|i]; [lia|]. destruct j as [|j]; [lia|].
  destruct (lookup_lt_is_Some_2 str1 j) as [x Hx]; [lia|].
  destruct (lookup_lt_is_Some_2 str2 i) as [y Hy]; [lia|].
  assert (Hw : ∀ k c, (k ≤ length str2)%nat →
    (c < Table.width str1 (S i) (S j) k)%nat → cell m k c = Some (due k c))
    by (intros; by eapply cell_filled).
  assert (Hd : cell m i j = Some (due i j)).
  { apply Hw; [lia|]. unfold Table.width.
    destruct (Nat.ltb_spec i (S i)); lia. }
  assert (Hl : cell m (S i) j = Some (due (S i) j)).
  { apply Hw; [lia|]. unfold Table.width.
    rewrite Nat.ltb_irrefl, Nat.eqb_refl. lia. }
  assert (Hu : cell m i (S j) = Some (due i (S j))).
  { apply Hw; [lia|]. unfold Table.width.
    destruct (Nat.ltb_spec i (S i)); lia. }
  unfold levCell, Js.charAt. simpl. rewrite !Nat.sub_0_r, Hx, Hy, Hd, Hl, Hu.
  pose proof (due_step i j x y Hx Hy) as Hstep.
  case_bool_decide as Hxy.
  - injection Hxy as ->. rewrite decide_True in Hstep by done.
    rewrite <- Hstep. apply setCell_filled; [done | lia | lia].
  - rewrite decide_False in Hstep by congruence. simpl.
    rewrite <- Hstep. apply setCell_filled; [done | lia | lia].
Qed.

Lemma levInner_filled i m :
  (1 ≤ i ≤ length str2)%nat →
  filledTo i 1 m → filledTo (S i) 1 (levInner str1 str2 i m).
Proof.
  intros Hi Hm. apply filledTo_next_row. unfold levInner.
  apply (foldl_seq_invariant (fun j m => filledTo i j m) _ (length str1) 1);
    [|done].
  intros j b Hj Hb. apply levCell_filled; [done | lia | done].
Qed.

Lemma levOuter_filled :
  filledTo (S (length str2)) 1
    (levOuter str1 str2 (levRow0 str1 (levRows str2))).
Proof.
  unfold levOuter.
  apply (foldl_seq_invariant (fun i m => filledTo i 1 m) _ (length str2) 1).
  - intros i b Hi Hb. apply levInner_filled; [lia | done].
  - apply filledTo_next_row, levRow0_filled.
Qed.

(** The value returned is the recurrence on the whole strings. *)
Lemma levenshteinDistance_lev :
  levenshteinDistance str1 str2
  = Some (Z.of_nat (lev (rev str1) (rev str2))).
Proof.
  unfold levenshteinDistance.
  rewrite (cell_filled _ _ _ _ _ levOuter_filled).
  - unfold Table.due. by rewrite !firstn_all.
  - done.
  - unfold Table.width. destruct (Nat.ltb_spec (length str2) (S (length str2))); lia.
Qed.

End DistanceTable.

(** ** The fuzzy heuristic *)

Section Fuzzy.

Lemma similarity_forms (m d : Z) :
  0 < m → ((m - d) # Z.to_pos m == 1 - (d # Z.to_pos m))%Q.
Proof.
  intros Hm. unfold Qeq, Qminus, Qplus, Qopp. simpl.
  destruct m as [|p|p]; simpl; lia.
Qed.

Lemma similarity_spec (word query : jsstring) :
  FuzzySpec.maxLen word query ≠ 0 →
  ∃ sim,
    similarity (FuzzySpec.maxLen word query)
      (Utils.levenshteinDistance word query) = Some sim
    ∧ (sim == FuzzySpec.similarity word query)%Q.
Proof.
  intros Hm. rewrite levenshteinDistance_lev. unfold similarity. simpl.
  rewrite (proj2 (Z.eqb_neq _ _) Hm). eexists; split; [done|].
  unfold FuzzySpec.similarity, editDistance. apply similarity_forms.
  unfold FuzzySpec.maxLen, Js.len in *. lia.
Qed.

Lemma similarity_none (word query : jsstring) :
  FuzzySpec.maxLen word query = 0 →
  similarity (FuzzySpec.maxLen word query)
    (Utils.levenshteinDistance word query) = None.
Proof.
  intros ->. rewrite levenshteinDistance_lev. reflexivity.
Qed.

Lemma similarity_le_1 (word query : jsstring) :
  (FuzzySpec.similarity word query <= 1)%Q.
Proof.
  unfold FuzzySpec.similarity, Qle, Qminus, Qplus, Qopp. simpl. lia.
Qed.

Lemma wordScore_range (query word : jsstring) :
  0 ≤ FuzzySpec.wordScore query word ≤ 60.
Proof.
  unfold FuzzySpec.wordScore, FuzzySpec.accepted.
  destruct (FuzzySpec.considered word query); cbn [andb]; [|lia].
  destruct (negb (FuzzySpec.maxLen word query =? 0)); cbn [andb]; [|lia].
  destruct (Qle_bool (7 # 10) (FuzzySpec.similarity word query)) eqn:Hle; [|lia].
  apply Qle_bool_iff in Hle. split.
  - transitivity (Qfloor ((7 # 10) * 60)); [done|]. apply Qfloor_resp_le.
    by apply Qmult_le_compat_r.
  - transitivity (Qfloor (1 * 60)); [|done]. apply Qfloor_resp_le.
    apply Qmult_le_compat_r; [apply similarity_le_1 | done].
Qed.

(** One step of the loop keeps the better of the best so far and the
    score of the word. *)
Lemma fuzzyStep_max (query word : jsstring) (bestScore : Z) :
  0 ≤ bestScore →
  fuzzyStep query bestScore word
  = Z.max bestScore (FuzzySpec.wordScore query word).
Proof.
  intros Hbest.
  unfold fuzzyStep, FuzzySpec.wordScore, FuzzySpec.considered, FuzzySpec.accepted.
  destruct (Z.abs (Js.len word - Js.len query) <=? 2); cbn [andb]; [|lia].
  fold (FuzzySpec.maxLen word query).
  destruct (Z.eqb_spec (FuzzySpec.maxLen word query) 0) as [H0|H0];
    cbn [andb negb].
  - rewrite <- H0 at 1. rewrite similarity_none by done. lia.
  - destruct (similarity_spec word query H0) as (sim & -> & Hsim).
    rewrite Hsim.
    destruct (Qle_bool (7 # 10) (FuzzySpec.similarity word query)); [|lia].
    by rewrite Hsim.
Qed.

Lemma maxOf_nonneg (l : list Z) : 0 ≤ maxOf l.
Proof. induction l; simpl; lia. Qed.

Lemma maxOf_bound (l : list Z) (hi : Z) :
  0 ≤ hi → Forall (fun x => x ≤ hi) l → maxOf l ≤ hi.
Proof. intros Hhi. induction 1; simpl; lia. Qed.

Lemma maxOf_upper (l : list Z) x : x ∈ l → x ≤ maxOf l.
Proof. induction 1; simpl; lia. Qed.

Lemma maxOf_elem_of (l : list Z) : maxOf l = 0 ∨ maxOf l ∈ l.
Proof.
  induction l as [|x l IH]; simpl; [by left|].
  destruct (Z.max_spec x (maxOf l)) as [[_ ->]|[_ ->]].
  - destruct IH as [IH|IH]; [by left | right; by right].
  - right. by left.
Qed.

Lemma foldl_max {A} (g : A → Z) (l : list A) (a : Z) :
  0 ≤ a →
  foldl (fun acc x => Z.max acc (g x)) a l = Z.max a (maxOf (map g l)).
Proof.
  revert a. induction l as [|x l IH]; intros a Ha; simpl; [lia|].
  rewrite IH by lia. lia.
Qed.

Lemma foldl_ext_inv {A B} (P : B → Prop) (f g : B → A → B) (l : list A) b :
  (∀ b x, P b → f b x = g b x) → (∀ b x, P b → P (g b x)) →
  P b → foldl f b l = foldl g b l.
Proof.
  intros Hfg HP. revert b. induction l as [|x l IH]; intros b Hb; simpl; [done|].
  rewrite Hfg by done. apply IH. by apply HP.
Qed.

Lemma getFuzzyMatchScore_spec (text query : jsstring) :
  getFuzzyMatchScore text query = FuzzySpec.score text query.
Proof.
  unfold getFuzzyMatchScore, FuzzySpec.score.
  rewrite (foldl_ext_inv (fun b => 0 ≤ b) _
             (fun acc w => Z.max acc (FuzzySpec.wordScore query w))).
  - rewrite foldl_max by done. pose proof (maxOf_nonneg (map (FuzzySpec.wordScore query) (words text))). lia.
  - intros. by apply fuzzyStep_max.
  - intros. lia.
  - done.
Qed.

Lemma getFuzzyMatchScore_range (text query : jsstring) :
  0 ≤ getFuzzyMatchScore text query ≤ 60.
Proof.
  rewrite getFuzzyMatchScore_spec. unfold FuzzySpec.score. split.
  - apply maxOf_nonneg.
  - apply maxOf_bound; [done|]. apply Forall_forall. intros x Hx.
    apply list_elem_of_fmap in Hx as (w & -> & _).
    apply wordScore_range.
Qed.

Lemma agreeUpTo_spec (bound : nat) (maxLength distance : Z) :
  Binary64.agreeUpTo bound = true →
  0 ≤ distance ≤ maxLength → maxLength ≤ Z.of_nat bound →
  Binary64.wordScore maxLength distance
  = Binary64.exactWordScore maxLength distance.
Proof.
  unfold Binary64.agreeUpTo. intros H Hd Hm.
  rewrite forallb_forall in H.
  specialize (H (Z.to_nat maxLength)). rewrite in_seq in H.
  specialize (H ltac:(lia)). rewrite forallb_forall in H.
  specialize (H (Z.to_nat distance)). rewrite in_seq in H.
  specialize (H ltac:(lia)). apply bool_decide_eq_true in H.
  by rewrite !Z2Nat.id in H by lia.
Qed.

Lemma agreeUpTo_200 : Binary64.agreeUpTo 200 = true.
Proof. vm_compute. reflexivity. Qed.

(** The doubles of the program give the scores of the exact quotients. *)
Lemma binary64_agrees (maxLength distance : Z) :
  0 ≤ distance ≤ maxLength → maxLength ≤ 200 →
  Binary64.wordScore maxLength distance
  = Binary64.exactWordScore maxLength distance.
Proof.
  intros Hd Hm. apply (agreeUpTo_spec 200); [apply agreeUpTo_200 | done | lia].
Qed.

End Fuzzy.

(** ** Scoring one node *)

Section Scoring.
Variables (q : jsstring) (node : Node.t).

Lemma maxOf_app (l1 l2 : list Z) : maxOf (l1 ++ l2) = Z.max (maxOf l1) (maxOf l2).
Proof.
  induction l1 as [|x l1 IH]; simpl.
  - pose proof (maxOf_nonneg l2). lia.
  - rewrite IH. lia.
Qed.

Lemma patternLoop_values (patterns : list jsstring) :
  patternLoop patterns q = 0 ∨ patternLoop patterns q = 75
  ∨ patternLoop patterns q = 85.
Proof.
  induction patterns as [|p ps IH]; simpl; [by left|].
  repeat case_match; auto.
Qed.

Lemma pattern_range : 0 ≤ Heuristic.pattern q node ≤ 85.
Proof.
  unfold Heuristic.pattern, getPatternMatchScore.
  destruct (matchesPattern q); [|lia].
  pose proof (patternLoop_values
    (Regex.matchAll false (Regex.Alt numberCode roomCode) (Heuristic.nameLower node))) as H.
  lia.
Qed.

Lemma keywordScore_range (keyword : jsstring) :
  0 ≤ Heuristic.keywordScore q keyword ≤ 75.
Proof. unfold Heuristic.keywordScore. simpl. repeat case_match; lia. Qed.

Lemma keywords_range : 0 ≤ Heuristic.keywords q node ≤ 75.
Proof.
  unfold Heuristic.keywords. destruct (Node.search_keywords node); [|lia].
  split; [apply maxOf_nonneg|]. apply maxOf_bound; [done|].
  apply Forall_forall. intros x (k & -> & _)%list_elem_of_fmap.
  apply keywordScore_range.
Qed.

Lemma keywordStep_max (acc : Z) (keyword : jsstring) :
  0 ≤ acc →
  keywordStep q acc keyword = Z.max acc (Heuristic.keywordScore q keyword).
Proof.
  intros Hacc. unfold keywordStep, Heuristic.keywordScore. simpl.
  repeat case_match; lia.
Qed.

Lemma nameScore_max :
  nameScore (Heuristic.nameLower node) (words (Heuristic.nameLower node)) q
  = maxOf [Heuristic.exactName q node; Heuristic.namePrefix q node;
           Heuristic.wordPrefix q node; Heuristic.substring q node;
           Heuristic.partialWord q node].
Proof.
  unfold nameScore, Heuristic.exactName, Heuristic.namePrefix,
    Heuristic.wordPrefix, Heuristic.substring, Heuristic.partialWord.
  simpl. repeat case_match; lia.
Qed.

Lemma scoreAfterKeywords_max :
  scoreAfterKeywords q node = maxOf (Heuristic.upTo6 q node).
Proof.
  unfold scoreAfterKeywords, withKeywords. fold (Heuristic.nameLower node).
  rewrite nameScore_max. unfold Heuristic.upTo6, Heuristic.keywords.
  destruct (Node.search_keywords node) as [kws|].
  - rewrite (foldl_ext_inv (fun b => 0 ≤ b) _
               (fun acc k => Z.max acc (Heuristic.keywordScore q k))).
    + rewrite foldl_max by done.
      pose proof (maxOf_nonneg (map (Heuristic.keywordScore q) kws)).
      simpl. lia.
    + intros. by apply keywordStep_max.
    + intros. lia.
    + done.
  - simpl. lia.
Qed.

Lemma withShortQuery_max (score : Z) :
  0 ≤ score →
  withShortQuery (Heuristic.nameLower node) (words (Heuristic.nameLower node))
    q score
  = Z.max score (Heuristic.shortQuery q node score).
Proof.
  intros Hs. unfold withShortQuery, Heuristic.shortQuery.
  destruct (Js.len q <=? 3); simpl; [|lia].
  destruct (Z.eqb_spec score 0) as [->|Hne]; simpl; [|lia].
  repeat case_match; simpl in *; try lia; try done.
Qed.

Lemma withPattern_max (score : Z) :
  0 ≤ score →
  withPattern (Heuristic.nameLower node) q score
  = Z.max score (Heuristic.pattern q node).
Proof.
  intros Hs. unfold withPattern, Heuristic.pattern.
  destruct (matchesPattern q); lia.
Qed.

Lemma withFuzzy_max (score : Z) :
  0 ≤ score →
  withFuzzy (Heuristic.nameLower node) q score
  = Z.max score (Heuristic.fuzzy q node score).
Proof.
  intros Hs. unfold withFuzzy, Heuristic.fuzzy.
  destruct ((score =? 0) && (3 <=? Js.len q)); lia.
Qed.

Lemma scoreBeforeFuzzy_max :
  scoreBeforeFuzzy q node = maxOf (Heuristic.upTo8 q node).
Proof.
  unfold scoreBeforeFuzzy. fold (Heuristic.nameLower node).
  rewrite scoreAfterKeywords_max.
  pose proof (maxOf_nonneg (Heuristic.upTo6 q node)).
  rewrite withShortQuery_max by done. rewrite withPattern_max by lia.
  unfold Heuristic.upTo8. rewrite maxOf_app. cbn [maxOf foldr].
  pose proof pattern_range. lia.
Qed.

Lemma scoreNode_max : scoreNode q node = maxOf (Heuristic.all q node).
Proof.
  unfold scoreNode. fold (Heuristic.nameLower node).
  rewrite scoreBeforeFuzzy_max.
  pose proof (maxOf_nonneg (Heuristic.upTo8 q node)).
  rewrite withFuzzy_max by done.
  unfold Heuristic.all. rewrite maxOf_app. cbn [maxOf foldr].
  assert (0 ≤ Heuristic.fuzzy q node (maxOf (Heuristic.upTo8 q node))).
  { unfold Heuristic.fuzzy. case_match; [|lia].
    apply getFuzzyMatchScore_range. }
  lia.
Qed.

Lemma heuristic_range (h : Z) : h ∈ Heuristic.all q node → 0 ≤ h ≤ 100.
Proof.
  unfold Heuristic.all, Heuristic.upTo8, Heuristic.upTo6. cbn [app].
  rewrite !elem_of_cons, elem_of_nil.
  pose proof pattern_range. pose proof keywords_range.
  pose proof (getFuzzyMatchScore_range (Heuristic.nameLower node) q).
  unfold Heuristic.exactName, Heuristic.namePrefix, Heuristic.wordPrefix,
    Heuristic.substring, Heuristic.partialWord, Heuristic.shortQuery,
    Heuristic.fuzzy.
  intros Hh. repeat case_match; lia.
Qed.

Lemma scoreNode_range : 0 ≤ scoreNode q node ≤ 100.
Proof.
  rewrite scoreNode_max. split; [apply maxOf_nonneg|].
  apply maxOf_bound; [done|]. apply Forall_forall. intros h Hh.
  by apply heuristic_range.
Qed.

(** Heuristics 1 to 6 score 0 only when the name does not contain the
    query. *)
Lemma scoreAfterKeywords_zero :
  scoreAfterKeywords q node = 0 → Js.includes (Heuristic.nameLower node) q = false.
Proof.
  rewrite scoreAfterKeywords_max. unfold Heuristic.upTo6. cbn [maxOf foldr].
  pose proof keywords_range.
  unfold Heuristic.exactName, Heuristic.namePrefix, Heuristic.wordPrefix,
    Heuristic.substring, Heuristic.partialWord.
  repeat case_match; lia || done.
Qed.

(** Heuristic 7 never changes the score. *)
Lemma withShortQuery_idle :
  withShortQuery (Heuristic.nameLower node) (words (Heuristic.nameLower node))
    q (scoreAfterKeywords q node)
  = scoreAfterKeywords q node.
Proof.
  unfold withShortQuery.
  destruct (Js.len q <=? 3); simpl; [|done].
  destruct (Z.eqb_spec (scoreAfterKeywords q node) 0) as [H0|Hne]; simpl; [|done].
  pose proof (scoreAfterKeywords_zero H0) as Hinc.
  destruct (existsb _ _) eqn:Hw.
  - apply word_includes in Hw. congruence.
  - rewrite H0. simpl. by rewrite Hinc.
Qed.

Lemma scoreNode_without7 : Without7.scoreNode q node = scoreNode q node.
Proof.
  unfold Without7.scoreNode, scoreNode, scoreBeforeFuzzy.
  fold (Heuristic.nameLower node). by rewrite withShortQuery_idle.
Qed.

End Scoring.

(** ** Sorting and ranking *)

Section Sorting.
Context {A : Type} (cmp : A → A → Z).

Local Abbreviation before := (fun x y : A => cmp x y ≤ 0).

Hypothesis cmp_total : ∀ x y, cmp x y ≤ 0 ∨ cmp y x ≤ 0.
Hypothesis cmp_trans : ∀ x y z, cmp x y ≤ 0 → cmp y z ≤ 0 → cmp x z ≤ 0.

Lemma insertBy_perm x (l : list A) : Js.insertBy cmp x l ≡ₚ x :: l.
Proof.
  induction l as [|y l IH]; simpl; [done|].
  destruct (cmp x y <=? 0); [done|]. rewrite IH. apply perm_swap.
Qed.

Lemma sort_perm (l : list A) : Js.sort cmp l ≡ₚ l.
Proof.
  induction l as [|x l IH]; simpl; [done|].
  rewrite insertBy_perm. by rewrite IH.
Qed.

Lemma insertBy_sorted x (l : list A) :
  StronglySorted before l → StronglySorted before (Js.insertBy cmp x l).
Proof.
  induction 1 as [|y l Hl IH Hy]; simpl.
  - repeat constructor.
  - destruct (Z.leb_spec (cmp x y) 0) as [Hxy|Hxy].
    + constructor; [by constructor|]. constructor; [done|].
      eapply Forall_impl; [exact Hy|]. intros z Hz. by eapply cmp_trans.
    + constructor; [done|].
      rewrite (insertBy_perm x l). constructor; [|done].
      destruct (cmp_total x y); [lia | done].
Qed.

Lemma sort_sorted (l : list A) : StronglySorted before (Js.sort cmp l).
Proof.
  induction l as [|x l IH]; simpl; [constructor | by apply insertBy_sorted].
Qed.

(** Stability: the elements of one key come out in the order they went
    in. *)
Lemma insertBy_filter (p : A → bool) x (l : list A) :
  (∀ y, p x = true → p y = true → cmp x y ≤ 0) →
  List.filter p (Js.insertBy cmp x l) = List.filter p (x :: l).
Proof.
  intros Hp. induction l as [|y l IH]; simpl; [done|].
  destruct (Z.leb_spec (cmp x y) 0) as [Hxy|Hxy]; [done|].
  simpl in *. rewrite IH.
  destruct (p x) eqn:Hx, (p y) eqn:Hy; try done.
  specialize (Hp y eq_refl Hy). lia.
Qed.

Lemma sort_stable (p : A → bool) (l : list A) :
  (∀ x y, p x = true → p y = true → cmp x y ≤ 0) →
  List.filter p (Js.sort cmp l) = List.filter p l.
Proof.
  intros Hp. induction l as [|x l IH]; [done|].
  change (Js.sort cmp (x :: l)) with (Js.insertBy cmp x (Js.sort cmp l)).
  rewrite insertBy_filter by (intros y; apply Hp).
  simpl. by rewrite IH.
Qed.

End Sorting.

Section Ranking.

Lemma compare_ranksBefore (a b : Scored.t) : compare a b ≤ 0 ↔ ranksBefore a b.
Proof.
  unfold compare, ranksBefore, nameLength.
  destruct (Z.eqb_spec (Scored.score b) (Scored.score a)); simpl; lia.
Qed.

Lemma compare_total (a b : Scored.t) : compare a b ≤ 0 ∨ compare b a ≤ 0.
Proof. rewrite !compare_ranksBefore. unfold ranksBefore. lia. Qed.

Lemma compare_trans (a b c : Scored.t) :
  compare a b ≤ 0 → compare b c ≤ 0 → compare a c ≤ 0.
Proof. rewrite !compare_ranksBefore. unfold ranksBefore. lia. Qed.

Lemma compare_same_key k (a b : Scored.t) :
  hasKey k a = true → hasKey k b = true → compare a b ≤ 0.
Proof.
  unfold hasKey, rankKey. rewrite !bool_decide_eq_true.
  intros <- [= Hs Hn]. apply compare_ranksBefore. unfold ranksBefore. lia.
Qed.

Lemma StronglySorted_mono {B} (R1 R2 : B → B → Prop) (l : list B) :
  (∀ x y, R1 x y → R2 x y) → StronglySorted R1 l → StronglySorted R2 l.
Proof.
  intros HR. induction 1 as [|x l Hl IH Hx]; constructor; [done|].
  eapply Forall_impl; [exact Hx | by intros; apply HR].
Qed.

Lemma ranked_sorted (l : list Scored.t) :
  StronglySorted ranksBefore (Js.sort compare l).
Proof.
  apply (StronglySorted_mono (fun a b => compare a b ≤ 0)).
  - intros a b. apply compare_ranksBefore.
  - apply sort_sorted; [apply compare_total | apply compare_trans].
Qed.

Lemma StronglySorted_lookup {B} (R : B → B → Prop) (l : list B) i j x y :
  StronglySorted R l → l !! i = Some x → l !! j = Some y → (i < j)%nat → R x y.
Proof.
  intros Hl. revert i j. induction Hl as [|z l Hl IH Hz]; intros i j Hi Hj Hij.
  - by rewrite lookup_nil in Hi.
  - destruct j as [|j]; [lia|]. simpl in Hj. destruct i as [|i]; simpl in Hi.
    + injection Hi as ->. rewrite Forall_forall in Hz. apply Hz.
      by eapply list_elem_of_lookup_2.
    + apply (IH i j); [done | done | lia].
Qed.

Lemma StronglySorted_take_drop {B} (R : B → B → Prop) (l : list B) n x y :
  StronglySorted R l → x ∈ take n l → y ∈ drop n l → R x y.
Proof.
  intros Hl [i Hi]%list_elem_of_lookup [j Hj]%list_elem_of_lookup.
  rewrite lookup_drop in Hj.
  pose proof (lookup_lt_Some _ _ _ Hi) as Hlt. rewrite length_take in Hlt.
  rewrite lookup_take_lt in Hi by lia.
  apply (StronglySorted_lookup R l i (n + j)); [done | done | done | lia].
Qed.

(** The loop over the nodes collects the candidates. *)
Lemma visit_candidates q (l : list Node.t) (acc : list Scored.t) :
  foldl (visit q) acc l = acc ++ candidates q l.
Proof.
  unfold candidates. revert acc.
  induction l as [|n l IH]; intros acc; [simpl; by rewrite app_nil_r|].
  cbn [foldl List.filter]. rewrite IH. unfold visit, isDestination.
  destruct (Js.eqb (Node.type n) (lit "destination")); cbn [negb andb]; [|done].
  destruct (0 <? scoreNode q n); cbn [map]; [|done].
  by rewrite <- app_assoc.
Qed.

Lemma searchDestinations_ranked (config : Config) query (data : LibraryData) :
  searchDestinations config query (Some data)
  = map Scored.node
      (Js.slice0
         (Js.sort compare (candidates (Js.trim (Js.toLowerCase query)) (nodes data)))
         (maxSuggestions config)).
Proof. unfold searchDestinations. by rewrite visit_candidates. Qed.

Lemma slice0_take {B} (l : list B) (e : Z) :
  0 ≤ e → Js.slice0 l e = take (Z.to_nat e) l.
Proof. intros He. unfold Js.slice0. destruct (Z.ltb_spec e 0); [lia | done]. Qed.

Lemma slice0_prefix {B} (l : list B) (e : Z) : ∃ n, Js.slice0 l e = take n l.
Proof. unfold Js.slice0. destruct (e <? 0); eauto. Qed.

Lemma candidates_score q (l : list Node.t) (s : Scored.t) :
  s ∈ candidates q l →
  Scored.score s = scoreNode q (Scored.node s)
  ∧ Scored.node s ∈ l
  ∧ isDestination (Scored.node s) = true
  ∧ 0 < Scored.score s.
Proof.
  unfold candidates. intros (n & -> & Hn)%list_elem_of_fmap. simpl.
  apply list_elem_of_In, filter_In in Hn as [Hn Hp].
  apply andb_true_iff in Hp as [Hd Hs]. apply Z.ltb_lt in Hs.
  by rewrite list_elem_of_In.
Qed.

End Ranking.

(** ** Highlighting: escaping, the literal pattern and the scan *)

Section Highlighting.
Import Highlight.

Lemma allAscii_complete (c : ascii) : In c allAscii.
Proof.
  unfold allAscii. rewrite <- (ascii_nat_embedding c).
  apply in_map, in_seq. pose proof (nat_ascii_bounded c). lia.
Qed.

Lemma forall_ascii (p : ascii → bool) :
  forallb p allAscii = true → ∀ c, p c = true.
Proof. intros H c. rewrite forallb_forall in H. apply H, allAscii_complete. Qed.

Lemma folding_computed :
  forallb
    (fun c =>
       forallb
         (fun d =>
            Bool.eqb (bool_decide (Js.canonicalize c = Js.canonicalize d))
                     (bool_decide (Js.lowerChar c = Js.lowerChar d)))
         allAscii)
    allAscii = true.
Proof. vm_compute. reflexivity. Qed.

(** The [i] flag of a pattern and [toLowerCase] identify the same units. *)
Lemma canonicalize_lowerChar (c d : ascii) :
  Js.canonicalize c = Js.canonicalize d ↔ Js.lowerChar c = Js.lowerChar d.
Proof.
  pose proof (forall_ascii _ (forall_ascii _ folding_computed c) d) as H.
  apply Bool.eqb_prop in H.
  rewrite <- (bool_decide_spec (Js.canonicalize c = _)).
  rewrite <- (bool_decide_spec (Js.lowerChar c = _)). by rewrite H.
Qed.

Lemma escaped_computed :
  forallb (fun c => Bool.eqb (Utils.escapedClass c) (Regex.isSyntaxChar c))
    allAscii = true.
Proof. vm_compute. reflexivity. Qed.

(** [escapeRegExp] escapes exactly the syntax characters of patterns. *)
Lemma escapedClass_syntax (c : ascii) :
  Utils.escapedClass c = Regex.isSyntaxChar c.
Proof. apply Bool.eqb_prop, (forall_ascii _ escaped_computed). Qed.

Lemma escapeRegExp_chars (s : jsstring) :
  Utils.escapeRegExp s = concat (map escapeChar s).
Proof.
  unfold Utils.escapeRegExp, Regex.replaceAll.
  enough (H : ∀ pos,
    Regex.replaceFrom false (Regex.Atom (Regex.Cls Utils.escapedClass))
      (fun m => Regex.backslash :: m) 0 pos s = concat (map escapeChar s))
    by apply H.
  induction s as [|c s IH]; intros pos; [reflexivity|].
  cbn [Regex.replaceFrom map concat]. unfold Regex.execAt at 1.
  cbn [Regex.run Regex.accepts]. unfold escapeChar at 1.
  destruct (Utils.escapedClass c).
  - rewrite (proj2 (Nat.ltb_lt pos (S pos))) by lia.
    replace (S pos - pos)%nat with 1%nat by lia. simpl. by rewrite IH.
  - simpl. by rewrite IH.
Qed.

Lemma parseLiterals_escaped (q : jsstring) :
  Regex.parseLiterals (concat (map escapeChar q)) = Some (literal q).
Proof.
  induction q as [|c q IH]; [done|].
  cbn [map concat literal foldr]. unfold escapeChar at 1.
  destruct (Utils.escapedClass c) eqn:Hc.
  - cbn [app Regex.parseLiterals]. rewrite bool_decide_eq_true_2 by done.
    rewrite <- escapedClass_syntax, Hc, IH. done.
  - cbn [app Regex.parseLiterals].
    rewrite bool_decide_eq_false_2 by (intros ->; by vm_compute in Hc).
    rewrite <- escapedClass_syntax, Hc, IH. done.
Qed.

(** Whatever the search term, the pattern built for it is the group of its
    characters taken literally. *)
Lemma parseGroup_escaped (q : jsstring) :
  Regex.parseGroup (lit "(" ++ Utils.escapeRegExp q ++ lit ")")
  = Some (Regex.Group (literal q)).
Proof.
  rewrite escapeRegExp_chars.
  change (lit "(" ++ ?x ++ lit ")") with ("("%char :: x ++ [")"%char]).
  cbn [Regex.parseGroup]. rewrite bool_decide_eq_true_2 by done.
  rewrite rev_unit. rewrite bool_decide_eq_true_2 by done.
  by rewrite rev_involutive, parseLiterals_escaped.
Qed.

(** The literal pattern under the [i] flag matches where the folded texts
    agree. *)
Lemma run_literal (q : jsstring) :
  ∀ pos (s : jsstring) (k : Regex.cont),
    Regex.run true (literal q) pos s k
    = if startsFolded q s
      then k (pos + length q)%nat (drop (length q) s)
      else None.
Proof.
  unfold startsFolded.
  induction q as [|c q IH]; intros pos s k.
  - cbn [literal foldr Regex.run length]. rewrite take_0, drop_0, Nat.add_0_r.
    by rewrite bool_decide_eq_true_2.
  - cbn [literal foldr Regex.run length]. destruct s as [|d s].
    + by rewrite bool_decide_eq_false_2.
    + cbn [Regex.accepts take drop]. fold (literal q).
      case_bool_decide as Hcd.
      * rewrite IH. apply canonicalize_lowerChar in Hcd.
        replace (S pos + length q)%nat with (pos + S (length q))%nat by lia.
        case_bool_decide as Hq.
        -- rewrite bool_decide_eq_true_2; [done|].
           unfold Js.toLowerCase in *. cbn [map]. by rewrite Hq, Hcd.
        -- rewrite bool_decide_eq_false_2; [done|].
           intros [= _ H]. by apply Hq.
      * rewrite bool_decide_eq_false_2; [done|].
        intros [= H _]. apply Hcd, canonicalize_lowerChar. done.
Qed.

Lemma execAt_literal (q : jsstring) pos (s : jsstring) :
  Regex.execAt true (Regex.Group (literal q)) pos s
  = if startsFolded q s then Some (pos + length q)%nat else None.
Proof. unfold Regex.execAt. cbn [Regex.run]. by rewrite run_literal. Qed.

Lemma startsFolded_length (q s : jsstring) :
  startsFolded q s = true → (length q ≤ length s)%nat.
Proof.
  unfold startsFolded. rewrite bool_decide_eq_true. intros H.
  apply (f_equal length) in H. unfold Js.toLowerCase in H.
  rewrite !length_map, length_take in H. lia.
Qed.

Section Scan.
Variable q : jsstring.
Hypothesis q_nonempty : q ≠ [].

Lemma length_q_pos : (1 ≤ length q)%nat.
Proof. destruct q; [done | simpl; lia]. Qed.

(** The replacement of the program produces the segments of the scan. *)
Lemma replaceFrom_scan (s : jsstring) :
  ∀ skip pos,
    Regex.replaceFrom true (Regex.Group (literal q)) mark skip pos s
    = render (scanFrom q skip s).
Proof.
  pose proof length_q_pos as Hq.
  induction s as [|c s IH]; intros skip pos.
  - cbn [Regex.replaceFrom scanFrom]. rewrite execAt_literal.
    assert (startsFolded q [] = false) as ->.
    { destruct (startsFolded q []) eqn:H; [|done].
      apply startsFolded_length in H. simpl in H. lia. }
    by destruct skip.
  - cbn [Regex.replaceFrom scanFrom]. destruct skip as [|n]; [|apply IH].
    rewrite execAt_literal. destruct (startsFolded q (c :: s)).
    + rewrite (proj2 (Nat.ltb_lt pos (pos + length q))) by lia.
      replace (pos + length q - pos)%nat with (length q) by lia.
      rewrite IH. reflexivity.
    + rewrite IH. reflexivity.
Qed.

Lemma scan_text (s : jsstring) :
  ∀ skip, (skip ≤ length s)%nat → plainText (scanFrom q skip s) = drop skip s.
Proof.
  pose proof length_q_pos as Hq.
  induction s as [|c s IH]; intros skip Hskip.
  - by destruct skip.
  - cbn [scanFrom]. destruct skip as [|n].
    + destruct (startsFolded q (c :: s)) eqn:Hm.
      * apply startsFolded_length in Hm. simpl in Hm.
        unfold plainText in *. cbn [map concat segmentText].
        rewrite IH by lia.
        replace (length q) with (S (length q - 1)) at 1 by lia.
        rewrite firstn_cons, <- app_comm_cons, take_drop. done.
      * unfold plainText in *. cbn [map concat segmentText].
        rewrite IH by lia. done.
    + apply IH. simpl in Hskip. lia.
Qed.

Lemma scan_marked (s : jsstring) :
  ∀ skip m, Marked m ∈ scanFrom q skip s →
            Js.toLowerCase m = Js.toLowerCase q.
Proof.
  induction s as [|c s IH]; intros skip m.
  - by intros ?%elem_of_nil.
  - cbn [scanFrom]. destruct skip as [|n]; [|apply IH].
    destruct (startsFolded q (c :: s)) eqn:Hm.
    + intros [[= ->]|H]%elem_of_cons; [|by eapply IH].
      by apply bool_decide_eq_true in Hm.
    + intros [[=]|H]%elem_of_cons. by eapply IH.
Qed.

Lemma occursAt_cons c (s : jsstring) k :
  occursAt (c :: s) q (S k) ↔ occursAt s q k.
Proof. done. Qed.

Lemma occursAt_0 (s : jsstring) : occursAt s q 0 ↔ startsFolded q s = true.
Proof. unfold occursAt, startsFolded. by rewrite bool_decide_eq_true. Qed.

(** Every marked block starts at an occurrence. *)
Lemma scan_starts (s : jsstring) :
  ∀ skip off st,
    st ∈ markedStarts (off + skip) (scanFrom q skip s) →
    ∃ k, st = (off + k)%nat ∧ (skip ≤ k)%nat ∧ occursAt s q k.
Proof.
  pose proof length_q_pos as Hq.
  induction s as [|c s IH]; intros skip off st.
  - by intros ?%elem_of_nil.
  - cbn [scanFrom]. destruct skip as [|n].
    + destruct (startsFolded q (c :: s)) eqn:Hm.
      * cbn [markedStarts]. intros [->|H]%elem_of_cons.
        -- exists 0%nat. by rewrite occursAt_0.
        -- pose proof (startsFolded_length _ _ Hm) as Hlen.
           rewrite length_take_le in H by done.
           replace (off + 0 + length q)%nat
             with (S off + (length q - 1))%nat in H by lia.
           apply IH in H as (k & -> & Hk & Hocc).
           exists (S k). split; [lia|]. split; [lia|done].
      * cbn [markedStarts].
        replace (S (off + 0)) with (S off + 0)%nat by lia.
        intros (k & -> & Hk & Hocc)%IH.
        exists (S k). split; [lia|]. split; [lia|done].
    + replace (off + S n)%nat with (S off + n)%nat by lia.
      intros (k & -> & Hk & Hocc)%IH.
      exists (S k). split; [lia|]. split; [lia|done].
Qed.

(** Every occurrence starts a marked block, or begins inside the block
    of an occurrence that starts before it. *)
Lemma scan_covers (s : jsstring) :
  ∀ skip off k,
    occursAt s q k → (skip ≤ k)%nat →
    ∃ st, st ∈ markedStarts (off + skip) (scanFrom q skip s)
          ∧ (st ≤ off + k < st + length q)%nat.
Proof.
  pose proof length_q_pos as Hq.
  induction s as [|c s IH]; intros skip off k Hocc Hk.
  - exfalso. unfold occursAt in Hocc. rewrite drop_nil, take_nil in Hocc.
    destruct q; [done | discriminate].
  - cbn [scanFrom]. destruct skip as [|n].
    + destruct (startsFolded q (c :: s)) eqn:Hm.
      * cbn [markedStarts].
        pose proof (startsFolded_length _ _ Hm) as Hlen.
        rewrite length_take_le by done.
        destruct (decide (k < length q)%nat) as [Hlt|Hge].
        -- exists (off + 0)%nat. split; [left | lia].
        -- destruct k as [|k]; [lia|].
           destruct (IH (length q - 1)%nat (S off) k) as (st & Hst & Hin);
             [done | lia |].
           exists st. split; [|lia]. right.
           by replace (off + 0 + length q)%nat
             with (S off + (length q - 1))%nat by lia.
      * destruct k as [|k]; [apply occursAt_0 in Hocc; congruence|].
        destruct (IH 0%nat (S off) k) as (st & Hst & Hin); [done | lia |].
        exists st. split; [|lia]. cbn [markedStarts].
        by replace (S (off + 0)) with (S off + 0)%nat by lia.
    + destruct k as [|k]; [lia|].
      destruct (IH n (S off) k) as (st & Hst & Hin); [done | lia |].
      exists st. split; [|lia].
      by replace (off + S n)%nat with (S off + n)%nat by lia.
Qed.

End Scan.

Lemma render_marked m (segs : list segment) :
  render (Marked m :: segs) = markOpen ++ m ++ markClose ++ render segs.
Proof. unfold render, mark. simpl. by rewrite <- !app_assoc. Qed.

Lemma render_plain c (segs : list segment) :
  render (Plain c :: segs) = c :: render segs.
Proof. done. Qed.

End Highlighting.

(** ** Scores that follow from the name alone *)

Section NamedNodes.

Lemma shortQuery_range q node running :
  0 ≤ Heuristic.shortQuery q node running ≤ 75.
Proof. unfold Heuristic.shortQuery. repeat case_match; lia. Qed.

Lemma fuzzy_range q node running : 0 ≤ Heuristic.fuzzy q node running ≤ 60.
Proof.
  unfold Heuristic.fuzzy. case_match; [|lia]. apply getFuzzyMatchScore_range.
Qed.

(** Evaluates a heuristic that reads nothing of the node but its name. *)
Local Ltac by_name H :=
  unfold Heuristic.exactName, Heuristic.namePrefix, Heuristic.wordPrefix,
    Heuristic.substring, Heuristic.partialWord, Heuristic.pattern,
    Heuristic.nameLower;
  rewrite H; vm_compute; reflexivity.

Lemma room2B_score (a : Node.t) :
  Node.name a = lit "Room 2B" →
  scoreNode (lit "2b") a = 90
  ∧ Heuristic.wordPrefix (lit "2b") a = 90
  ∧ Heuristic.pattern (lit "2b") a = 85.
Proof.
  intros Hname.
  assert (H1 : Heuristic.exactName (lit "2b") a = 0) by by_name Hname.
  assert (H2 : Heuristic.namePrefix (lit "2b") a = 0) by by_name Hname.
  assert (H3 : Heuristic.wordPrefix (lit "2b") a = 90) by by_name Hname.
  assert (H4 : Heuristic.substring (lit "2b") a = 85) by by_name Hname.
  assert (H5 : Heuristic.partialWord (lit "2b") a = 80) by by_name Hname.
  assert (H8 : Heuristic.pattern (lit "2b") a = 85) by by_name Hname.
  split; [|done].
  rewrite scoreNode_max.
  unfold Heuristic.all, Heuristic.upTo8, Heuristic.upTo6.
  cbn [app maxOf foldr]. rewrite H1, H2, H3, H4, H5, H8.
  match goal with
  | |- context [Heuristic.fuzzy ?q ?n ?r] =>
      generalize (fuzzy_range q n r); generalize (Heuristic.fuzzy q n r)
  end.
  match goal with
  | |- context [Heuristic.shortQuery ?q ?n ?r] =>
      generalize (shortQuery_range q n r);
      generalize (Heuristic.shortQuery q n r)
  end.
  generalize (keywords_range (lit "2b") a).
  generalize (Heuristic.keywords (lit "2b") a).
  intros. lia.
Qed.

Lemma breakRoom_score (b : Node.t) :
  Node.name b = lit "2nd Floor Break Room" → scoreNode (lit "2b") b ≤ 75.
Proof.
  intros Hname.
  assert (H1 : Heuristic.exactName (lit "2b") b = 0) by by_name Hname.
  assert (H2 : Heuristic.namePrefix (lit "2b") b = 0) by by_name Hname.
  assert (H3 : Heuristic.wordPrefix (lit "2b") b = 0) by by_name Hname.
  assert (H4 : Heuristic.substring (lit "2b") b = 0) by by_name Hname.
  assert (H5 : Heuristic.partialWord (lit "2b") b = 0) by by_name Hname.
  assert (H8 : Heuristic.pattern (lit "2b") b = 0) by by_name Hname.
  rewrite scoreNode_max.
  unfold Heuristic.all, Heuristic.upTo8, Heuristic.upTo6.
  cbn [app maxOf foldr]. rewrite H1, H2, H3, H4, H5, H8.
  match goal with
  | |- context [Heuristic.fuzzy ?q ?n ?r] =>
      assert (Heuristic.fuzzy q n r = 0) as ->
  end.
  { unfold Heuristic.fuzzy. by rewrite andb_false_r. }
  match goal with
  | |- context [Heuristic.shortQuery ?q ?n ?r] =>
      assert (Heuristic.shortQuery q n r = 0) as ->
  end.
  { unfold Heuristic.shortQuery, Heuristic.nameLower. rewrite Hname.
    case_match; [vm_compute|]; reflexivity. }
  generalize (keywords_range (lit "2b") b).
  generalize (Heuristic.keywords (lit "2b") b).
  intros. lia.
Qed.



Lemma Without7_visit q (l : list Node.t) (acc : list Scored.t) :
  foldl (Without7.visit q) acc l = foldl (visit q) acc l.
Proof.
  revert acc. induction l as [|n l IH]; intros acc; [done|].
  cbn [foldl]. rewrite IH. f_equal.
  unfold Without7.visit, visit. by rewrite scoreNode_without7.
Qed.

End NamedNodes.

(** ** The room codes found in a name are parts of the name *)

Section PatternMasked.

Lemma matchAllFrom_infix ic r (s : jsstring) :
  ∀ skip pos w, w ∈ Regex.matchAllFrom ic r skip pos s → infix w s.
Proof.
  induction s as [|c s IH]; intros skip pos w; cbn [Regex.matchAllFrom].
  - destruct skip, (Regex.execAt ic r pos []);
      try (by intros ?%elem_of_nil).
    intros ->%list_elem_of_singleton. by exists [], [].
  - assert (Hshift : infix w s → infix w (c :: s)).
    { intros (l1 & l2 & ->). by exists (c :: l1), l2. }
    destruct skip as [|n]; [|by intros ?%IH; apply Hshift].
    destruct (Regex.execAt ic r pos (c :: s)) as [e|];
      [|by intros ?%IH; apply Hshift].
    intros [->|?%IH]%elem_of_cons; [|by apply Hshift].
    exists [], (drop (e - pos) (c :: s)). simpl. by rewrite take_drop.
Qed.

Lemma lowerChar_computed :
  forallb (fun c => bool_decide (Js.lowerChar (Js.lowerChar c) = Js.lowerChar c))
    allAscii = true.
Proof. vm_compute. reflexivity. Qed.

Lemma lowerChar_idempotent (c : ascii) :
  Js.lowerChar (Js.lowerChar c) = Js.lowerChar c.
Proof.
  pose proof (forall_ascii _ lowerChar_computed c) as H.
  by apply bool_decide_eq_true in H.
Qed.

(** A block of a lower-cased text is in lower case. *)
Lemma toLowerCase_infix (w t : jsstring) :
  infix w (Js.toLowerCase t) → Js.toLowerCase w = w.
Proof.
  unfold Js.toLowerCase. intros (l1 & l2 & H).
  apply map_eq_app in H as (t1 & t2 & _ & _ & H).
  apply map_eq_app in H as (tw & t3 & _ & <- & _).
  rewrite map_map. apply map_ext. intros c. apply lowerChar_idempotent.
Qed.

Lemma patternLoop_found (patterns : list jsstring) (q : jsstring) :
  patternLoop patterns q ≠ 0 →
  ∃ p, p ∈ patterns ∧ Js.includes (Js.toLowerCase p) q = true.
Proof.
  induction patterns as [|p ps IH]; cbn [patternLoop]; [done|].
  unfold Js.eqb. case_bool_decide as Heq.
  - intros _. exists p. split; [left|]. rewrite Heq.
    apply startsWith_includes, startsWith_refl.
  - destruct (Js.includes (Js.toLowerCase p) q) eqn:Hinc.
    + intros _. exists p. split; [left | done].
    + intros (p' & Hp' & H)%IH. exists p'. split; [by right | done].
Qed.

(** A nonzero pattern score means that the name contains the query. *)
Lemma pattern_needs_substring (q : jsstring) (node : Node.t) :
  Heuristic.pattern q node ≠ 0 → Heuristic.substring q node = 85.
Proof.
  unfold Heuristic.pattern, Heuristic.substring, getPatternMatchScore.
  destruct (matchesPattern q); [|done].
  intros (p & Hp & Hinc)%patternLoop_found.
  apply matchAllFrom_infix in Hp.
  rewrite (toLowerCase_infix p (Node.name node)) in Hinc by exact Hp.
  apply includes_infix in Hinc.
  assert (Js.includes (Heuristic.nameLower node) q = true) as ->; [|done].
  apply includes_infix. by eapply infix_trans.
Qed.

(** Heuristics 7 and 8 never change the score that heuristics 1 to 6 leave:
    what the pattern heuristic returns is masked by the substring score. *)
Lemma pattern_heuristic_masked (q : jsstring) (node : Node.t) :
  scoreBeforeFuzzy q node = scoreAfterKeywords q node.
Proof.
  unfold scoreBeforeFuzzy. fold (Heuristic.nameLower node).
  rewrite withShortQuery_idle, scoreAfterKeywords_max.
  pose proof (maxOf_nonneg (Heuristic.upTo6 q node)) as H0.
  rewrite withPattern_max by done.
  pose proof (pattern_range q node) as Hr.
  destruct (decide (Heuristic.pattern q node = 0)) as [->|Hne]; [lia|].
  apply pattern_needs_substring in Hne.
  assert (Hin : Heuristic.substring q node ∈ Heuristic.upTo6 q node).
  { apply (list_elem_of_lookup_2 _ 3%nat). reflexivity. }
  apply maxOf_upper in Hin. lia.
Qed.

End PatternMasked.

(** ** The edit distance is a metric *)

Section Metric.

Lemma edits_app n m (a b c : jsstring) :
  edits n a b → edits m b c → edits (n + m) a c.
Proof.
  induction 1 as [a | n a a' b Hstep _ IH]; intros Hbc; [done|].
  simpl. eapply edits_S; [exact Hstep | by apply IH].
Qed.

Lemma edit_sym (a b : jsstring) : edit a b → edit b a.
Proof. intros [l1 c l2 | l1 c l2 | l1 c d l2]; constructor. Qed.

Lemma edits_sym n (a b : jsstring) : edits n a b → edits n b a.
Proof.
  induction 1 as [a | n a a' b Hstep _ IH]; [constructor|].
  replace (S n) with (n + 1)%nat by lia.
  eapply edits_app; [exact IH|].
  eapply edits_S; [by apply edit_sym | constructor].
Qed.

Lemma edit_length (a b : jsstring) :
  edit a b → (length a ≤ S (length b) ∧ length b ≤ S (length a))%nat.
Proof.
  intros [l1 c l2 | l1 c l2 | l1 c d l2]; rewrite !length_app; simpl; lia.
Qed.

Lemma edits_length n (a b : jsstring) :
  edits n a b → (length a ≤ n + length b ∧ length b ≤ n + length a)%nat.
Proof.
  induction 1 as [a | n a a' b Hstep%edit_length _ IH]; simpl; lia.
Qed.

Lemma edits_O_eq (a b : jsstring) : edits 0 a b → a = b.
Proof. by inversion 1. Qed.

Lemma editDistance_reached (a b : jsstring) : edits (editDistance a b) a b.
Proof. apply lev_rev_least. Qed.

Lemma editDistance_least (a b : jsstring) m :
  edits m a b → (editDistance a b ≤ m)%nat.
Proof. apply lev_rev_least. Qed.

Lemma editDistance_sym (a b : jsstring) : editDistance a b = editDistance b a.
Proof.
  apply Nat.le_antisymm; apply editDistance_least, edits_sym, editDistance_reached.
Qed.

Lemma editDistance_triangle (a b c : jsstring) :
  (editDistance a c ≤ editDistance a b + editDistance b c)%nat.
Proof.
  apply editDistance_least.
  eapply edits_app; apply editDistance_reached.
Qed.

Lemma editDistance_zero (a b : jsstring) : editDistance a b = 0%nat ↔ a = b.
Proof.
  split.
  - intros H. apply edits_O_eq. rewrite <- H. apply editDistance_reached.
  - intros ->. apply Nat.le_0_r, editDistance_least. constructor.
Qed.

Lemma lev_le_max (a : jsstring) :
  ∀ b : jsstring, (lev a b ≤ Nat.max (length a) (length b))%nat.
Proof.
  induction a as [|x a IH]; intros b; [rewrite lev_nil_l; lia|].
  destruct b as [|y b]; [rewrite lev_nil_r; lia|].
  rewrite lev_cons. specialize (IH b). simpl. case_decide; lia.
Qed.

Lemma editDistance_bounds (a b : jsstring) :
  (length a - length b ≤ editDistance a b
   ∧ length b - length a ≤ editDistance a b
   ∧ editDistance a b ≤ Nat.max (length a) (length b))%nat.
Proof.
  pose proof (edits_length _ _ _ (editDistance_reached a b)).
  pose proof (lev_le_max (rev a) (rev b)) as Hmax.
  rewrite !length_rev in Hmax. unfold editDistance at 3. lia.
Qed.

Lemma levenshteinDistance_editDistance (a b : jsstring) :
  Utils.levenshteinDistance a b = Some (Z.of_nat (editDistance a b)).
Proof. apply levenshteinDistance_lev. Qed.

End Metric.

(** ** The matcher finds a match exactly when there is one *)

Section Matcher.

Lemma star_matches (ok : ascii → bool) (s : jsstring) :
  ∀ pos (k : Regex.cont),
    is_Some (Regex.star ok pos s k)
    ↔ ∃ a b, s = a ++ b ∧ Forall (fun c => ok c = true) a
             ∧ is_Some (k (pos + length a)%nat b).
Proof.
  induction s as [|c s IH]; intros pos k.
  - simpl. split.
    + intros H. exists [], []. rewrite Nat.add_0_r. by repeat split.
    + intros (a & b & Hab & _ & H). symmetry in Hab.
      apply app_eq_nil in Hab as [-> ->]. by rewrite Nat.add_0_r in H.
  - cbn [Regex.star]. destruct (ok c) eqn:Hc.
    + split.
      * destruct (Regex.star ok (S pos) s k) eqn:Hstar.
        -- intros _. destruct (proj1 (IH (S pos) k)) as (a & b & -> & Ha & H).
           { by rewrite Hstar. }
           exists (c :: a), b. repeat split; [by constructor|].
           simpl. by rewrite <- Nat.add_succ_comm.
        -- intros H. exists [], (c :: s). rewrite Nat.add_0_r. by repeat split.
      * intros (a & b & Hab & Ha & H). destruct a as [|c' a].
        -- simpl in Hab. subst b. rewrite Nat.add_0_r in H.
           by destruct (Regex.star ok (S pos) s k).
        -- injection Hab as <- ->. apply Forall_cons in Ha as [_ Ha].
           assert (Hs : is_Some (Regex.star ok (S pos) (a ++ b) k)).
           { apply IH. exists a, b. repeat split; [done|].
             simpl in H. by rewrite Nat.add_succ_comm. }
           destruct Hs as [e ->]. done.
    + split.
      * intros H. exists [], (c :: s). rewrite Nat.add_0_r. by repeat split.
      * intros (a & b & Hab & Ha & H). destruct a as [|c' a].
        -- simpl in Hab. subst b. by rewrite Nat.add_0_r in H.
        -- injection Hab as <- ->. apply Forall_cons in Ha as [Hc' _]. congruence.
Qed.

Lemma run_matchesAt ic (r : Regex.regex) :
  ∀ pos (s : jsstring) (k : Regex.cont),
    is_Some (Regex.run ic r pos s k)
    ↔ ∃ a b, s = a ++ b ∧ matchesAt ic r pos a b
             ∧ is_Some (k (pos + length a)%nat b).
Proof.
  induction r as [t | t | t | r1 IH1 r2 IH2 | r1 IH1 r2 IH2 | | | | r IH];
    intros pos s k; cbn [Regex.run matchesAt].
  - destruct s as [|c s].
    + split; [by intros [? ?]|]. intros (a & b & Hab & (c & -> & _) & _). done.
    + destruct (Regex.accepts ic t c) eqn:Hc.
      * split.
        -- intros H. exists [c], s. repeat split; [by exists c|].
           simpl. by rewrite Nat.add_1_r.
        -- intros (a & b & Hab & (c' & -> & _) & H). injection Hab as <- <-.
           simpl in H. by rewrite Nat.add_1_r in H.
      * split; [by intros [? ?]|].
        intros (a & b & Hab & (c' & -> & Hc') & _). injection Hab as <- <-.
        congruence.
  - apply star_matches.
  - destruct s as [|c s].
    + split; [by intros [? ?]|]. intros (a & b & Hab & [Hne _] & _).
      symmetry in Hab. by apply app_eq_nil in Hab as [-> _].
    + destruct (Regex.accepts ic t c) eqn:Hc.
      * rewrite star_matches. split.
        -- intros (a & b & -> & Ha & H). exists (c :: a), b.
           repeat split; [done | by constructor |].
           simpl. by rewrite <- Nat.add_succ_comm.
        -- intros (a & b & Hab & [Hne Ha] & H). destruct a as [|c' a]; [done|].
           injection Hab as <- ->. apply Forall_cons in Ha as [_ Ha].
           exists a, b. repeat split; [done|].
           simpl in H. by rewrite Nat.add_succ_comm.
      * split; [by intros [? ?]|].
        intros (a & b & Hab & [Hne Ha] & _). destruct a as [|c' a]; [done|].
        injection Hab as <- ->. apply Forall_cons in Ha as [Hc' _]. congruence.
  - rewrite IH1. split.
    + intros (a1 & b1 & -> & H1 & (a2 & b & -> & H2 & H)%IH2).
      exists (a1 ++ a2), b. rewrite <- app_assoc. repeat split.
      * by exists a1, a2.
      * by rewrite length_app, Nat.add_assoc.
    + intros (a & b & -> & (a1 & a2 & -> & H1 & H2) & H).
      exists a1, (a2 ++ b). rewrite <- app_assoc. repeat split; [done|].
      apply IH2. exists a2, b. repeat split; [done|].
      by rewrite length_app, Nat.add_assoc in H.
  - destruct (Regex.run ic r1 pos s k) eqn:H1.
    + split; [|done]. intros _.
      destruct (proj1 (IH1 pos s k)) as (a & b & -> & Ha & H); [by rewrite H1|].
      exists a, b. repeat split; [by left | done].
    + rewrite IH2. split.
      * intros (a & b & -> & Ha & H). exists a, b. repeat split; [by right | done].
      * intros (a & b & -> & [Ha|Ha] & H); [|by exists a, b].
        assert (Hs : is_Some (Regex.run ic r1 pos (a ++ b) k))
          by (apply IH1; by exists a, b).
        rewrite H1 in Hs. by destruct Hs.
  - split.
    + intros H. exists [], s. rewrite Nat.add_0_r. by repeat split.
    + intros (a & b & -> & -> & H). by rewrite Nat.add_0_r in H.
  - destruct (Nat.eqb_spec pos 0) as [->|Hne].
    + split.
      * intros H. exists [], s. by repeat split.
      * intros (a & b & -> & [-> _] & H). done.
    + split; [by intros [? ?]|]. intros (a & b & _ & [_ ?] & _). done.
  - destruct s as [|c s].
    + split.
      * intros H. exists [], []. rewrite Nat.add_0_r. by repeat split.
      * intros (a & b & _ & [-> ->] & H). by rewrite Nat.add_0_r in H.
    + split; [by intros [? ?]|]. intros (a & b & Hab & [-> ->] & _). done.
  - apply IH.
Qed.

Lemma execAt_matchesAt ic r pos (s : jsstring) :
  is_Some (Regex.execAt ic r pos s) ↔ ∃ a b, s = a ++ b ∧ matchesAt ic r pos a b.
Proof.
  unfold Regex.execAt. rewrite run_matchesAt. split.
  - intros (a & b & ? & ? & _). eauto.
  - intros (a & b & ? & ?). exists a, b. eauto.
Qed.

(** A pattern between [^] and [$] is tried at index 0 only, on the whole
    input. *)
Lemma test_anchored (r : Regex.regex) (s : jsstring) :
  Regex.test false (anchored r) s = true ↔ matchesAt false r 0 s [].
Proof.
  unfold Regex.test.
  assert (Hlater : ∀ (s' : jsstring) pos,
            Regex.testFrom false (anchored r) (S pos) s' = false).
  { induction s' as [|c s' IH]; intros pos; cbn [Regex.testFrom]; [done|].
    by unfold Regex.execAt, anchored; cbn [Regex.run Nat.eqb]. }
  assert (Hhead : Regex.testFrom false (anchored r) 0 s = true
                  ↔ is_Some (Regex.execAt false (anchored r) 0 s)).
  { destruct s as [|c s]; cbn [Regex.testFrom];
      destruct (Regex.execAt false (anchored r) 0 _) eqn:H;
      rewrite ?Hlater; split; (done || by intros [? ?] || eauto). }
  rewrite Hhead, execAt_matchesAt. unfold anchored. cbn [matchesAt]. split.
  - intros (a & b & -> & a1 & a2 & -> & [-> _] & a3 & a4 & -> & Hr & [-> ->]).
    simpl in *. by rewrite !app_nil_r in *.
  - intros Hr. exists s, []. rewrite app_nil_r. split; [done|].
    exists [], s. repeat split. exists s, []. rewrite app_nil_r.
    repeat split; by rewrite ?app_nil_r.
Qed.

Lemma matchesAt_numberCode pos (a b : jsstring) :
  matchesAt false numberCode pos a b
  ↔ ∃ d l, a = d ++ l ∧ d ≠ [] ∧ allDigits d ∧ allLetters l.
Proof.
  unfold numberCode. cbn [matchesAt]. split.
  - intros (d & l & -> & [Hne Hd] & Hl). by exists d, l.
  - intros (d & l & -> & Hne & Hd & Hl). by exists d, l.
Qed.

Lemma matchesAt_roomCode pos (a b : jsstring) :
  matchesAt false roomCode pos a b
  ↔ ∃ l1 d l2, a = l1 ++ d ++ l2 ∧ l1 ≠ [] ∧ d ≠ []
               ∧ allLetters l1 ∧ allDigits d ∧ allLetters l2.
Proof.
  unfold roomCode. cbn [matchesAt]. split.
  - intros (l1 & x & -> & [Hne1 Hl1] & d & l2 & -> & [Hne Hd] & Hl2).
    by exists l1, d, l2.
  - intros (l1 & d & l2 & -> & Hne1 & Hne & Hl1 & Hd & Hl2).
    exists l1, (d ++ l2). repeat split; [done | done |]. by exists d, l2.
Qed.

Lemma matchesPattern_spec (q : jsstring) :
  matchesPattern q = true ↔ isNumberCode q ∨ isRoomCode q.
Proof.
  unfold matchesPattern. rewrite orb_true_iff, !test_anchored.
  by rewrite matchesAt_numberCode, matchesAt_roomCode.
Qed.

End Matcher.

(** ** The bands of the score *)

Section Tiers.

Lemma hasPartialWordMatch_includes (text q : jsstring) :
  hasPartialWordMatch text q = true → Js.includes text q = true.
Proof.
  unfold hasPartialWordMatch. rewrite existsb_elem_of.
  intros (w & Hw & H). apply word_includes, existsb_elem_of.
  exists w. split; [done|]. by destruct (Js.includes w q).
Qed.

Lemma eqb_includes (s q : jsstring) : Js.eqb s q = true → Js.includes s q = true.
Proof.
  unfold Js.eqb. rewrite bool_decide_eq_true. intros ->.
  apply startsWith_includes, startsWith_refl.
Qed.

Lemma word_startsWith_includes (text q : jsstring) :
  existsb (fun word => Js.startsWith word q) (words text) = true →
  Js.includes text q = true.
Proof.
  rewrite existsb_elem_of. intros (w & Hw & H).
  apply word_includes, existsb_elem_of. exists w.
  split; [done | by apply startsWith_includes].
Qed.

(** The chain of heuristics 1 to 5 scores 85 or more exactly when the name
    contains the query, and 0 otherwise: its last branch, 80, is never
    taken. *)
Lemma nameScore_values (nameLower q : jsstring) :
  (nameScore nameLower (words nameLower) q = 0
   ∧ Js.includes nameLower q = false)
  ∨ (nameScore nameLower (words nameLower) q ∈ [85; 90; 95; 100]
     ∧ Js.includes nameLower q = true).
Proof.
  unfold nameScore.
  destruct (Js.eqb nameLower q) eqn:H1.
  { right. split; [|by apply eqb_includes]. repeat constructor. }
  destruct (Js.startsWith nameLower q) eqn:H2.
  { right. split; [|by apply startsWith_includes]. repeat constructor. }
  destruct (existsb _ (words nameLower)) eqn:H3.
  { right. split; [|by apply word_startsWith_includes]. repeat constructor. }
  destruct (Js.includes nameLower q) eqn:H4.
  { right. split; [|done]. repeat constructor. }
  destruct (hasPartialWordMatch nameLower q) eqn:H5.
  { apply hasPartialWordMatch_includes in H5. congruence. }
  by left.
Qed.

Lemma keywordScore_values (q keyword : jsstring) :
  Heuristic.keywordScore q keyword ∈ [0; 65; 70; 75].
Proof.
  unfold Heuristic.keywordScore. cbn zeta.
  repeat case_match; repeat constructor.
Qed.

Lemma keywords_values (q : jsstring) (node : Node.t) :
  Heuristic.keywords q node ∈ [0; 65; 70; 75].
Proof.
  unfold Heuristic.keywords. destruct (Node.search_keywords node) as [kws|];
    [|repeat constructor].
  destruct (maxOf_elem_of (map (Heuristic.keywordScore q) kws)) as [->|H];
    [repeat constructor|].
  apply list_elem_of_fmap in H as (k & -> & _). apply keywordScore_values.
Qed.

Lemma Qfloor_below (x : Q) (n : Z) : (x < inject_Z n)%Q → Qfloor x < n.
Proof.
  intros H. pose proof (Qfloor_le x) as Hle.
  rewrite Zlt_Qlt. eapply Qle_lt_trans; [exact Hle | exact H].
Qed.

(** A word that is not the query itself scores 59 at most. *)
Lemma wordScore_not_query (q w : jsstring) :
  w ≠ q → FuzzySpec.wordScore q w ≤ 59.
Proof.
  intros Hne. unfold FuzzySpec.wordScore, FuzzySpec.accepted.
  destruct (FuzzySpec.considered w q); cbn [andb]; [|lia].
  destruct (Z.eqb_spec (FuzzySpec.maxLen w q) 0) as [|Hm]; cbn [negb andb]; [lia|].
  destruct (Qle_bool _ _); [|lia].
  enough (Qfloor (FuzzySpec.similarity w q * 60) < 60) by lia.
  apply Qfloor_below.
  assert (Hd : (1 ≤ editDistance w q)%nat).
  { destruct (editDistance w q) eqn:Hd; [|lia].
    by apply editDistance_zero in Hd. }
  unfold FuzzySpec.similarity, Qlt, Qminus, Qplus, Qopp, Qmult. simpl.
  unfold FuzzySpec.maxLen, Js.len in *. nia.
Qed.

Lemma wordScore_values (q w : jsstring) :
  FuzzySpec.wordScore q w = 0 ∨ 42 ≤ FuzzySpec.wordScore q w ≤ 60.
Proof.
  pose proof (wordScore_range q w) as Hr.
  unfold FuzzySpec.wordScore, FuzzySpec.accepted in *.
  destruct (FuzzySpec.considered w q); cbn [andb] in *; [|by left].
  destruct (negb (FuzzySpec.maxLen w q =? 0)); cbn [andb] in *; [|by left].
  destruct (Qle_bool (7 # 10) (FuzzySpec.similarity w q)) eqn:Hle; [|by left].
  right. split; [|lia]. apply Qle_bool_iff in Hle.
  transitivity (Qfloor ((7 # 10) * 60)); [done|]. apply Qfloor_resp_le.
  by apply Qmult_le_compat_r.
Qed.

Lemma getFuzzyMatchScore_values (text q : jsstring) :
  getFuzzyMatchScore text q = 0 ∨ 42 ≤ getFuzzyMatchScore text q ≤ 60.
Proof.
  rewrite getFuzzyMatchScore_spec. unfold FuzzySpec.score.
  destruct (maxOf_elem_of (map (FuzzySpec.wordScore q) (words text)))
    as [->|H]; [by left|].
  apply list_elem_of_fmap in H as (w & -> & _). apply wordScore_values.
Qed.

(** Where the name does not contain the query, no word is the query, and the
    fuzzy score stays below 60. *)
Lemma getFuzzyMatchScore_absent (text q : jsstring) :
  Js.includes text q = false → getFuzzyMatchScore text q ≤ 59.
Proof.
  intros Hinc. rewrite getFuzzyMatchScore_spec. unfold FuzzySpec.score.
  apply maxOf_bound; [done|]. apply Forall_forall.
  intros x (w & -> & Hw)%list_elem_of_fmap.
  apply wordScore_not_query. intros ->.
  apply words_infix, includes_infix in Hw. congruence.
Qed.

Lemma scoreAfterKeywords_split (q : jsstring) (node : Node.t) :
  scoreAfterKeywords q node
  = Z.max (nameScore (Heuristic.nameLower node) (words (Heuristic.nameLower node)) q)
          (Heuristic.keywords q node).
Proof.
  rewrite scoreAfterKeywords_max, nameScore_max. unfold Heuristic.upTo6.
  cbn [maxOf foldr]. pose proof (keywords_range q node). lia.
Qed.

Lemma scoreNode_split (q : jsstring) (node : Node.t) :
  scoreNode q node
  = withFuzzy (Heuristic.nameLower node) q (scoreAfterKeywords q node).
Proof. unfold scoreNode. by rewrite pattern_heuristic_masked. Qed.

End Tiers.

(** ** The result list *)

Section Results.

Lemma result_lookup (config : Config) query (data : LibraryData) i (a : Node.t) :
  searchDestinations config query (Some data) !! i = Some a →
  ∃ s, Js.sort compare
         (candidates (Js.trim (Js.toLowerCase query)) (nodes data)) !! i = Some s
       ∧ Scored.node s = a
       ∧ Scored.score s = scoreNode (Js.trim (Js.toLowerCase query)) a.
Proof.
  rewrite searchDestinations_ranked.
  destruct (slice0_prefix
    (Js.sort compare (candidates (Js.trim (Js.toLowerCase query)) (nodes data)))
    (maxSuggestions config)) as [n ->].
  intros (s & -> & Hs)%list_lookup_fmap_Some_1.
  apply lookup_take_Some in Hs as [Hs _].
  exists s. split; [done|]. split; [done|].
  apply list_elem_of_lookup_2 in Hs. rewrite sort_perm in Hs.
  by apply candidates_score in Hs as [? _].
Qed.

(** A node never stands behind a node of lower score. *)
Lemma result_order (config : Config) query (data : LibraryData) i j (a b : Node.t) :
  searchDestinations config query (Some data) !! i = Some a →
  searchDestinations config query (Some data) !! j = Some b →
  scoreNode (Js.trim (Js.toLowerCase query)) b
  < scoreNode (Js.trim (Js.toLowerCase query)) a →
  (i < j)%nat.
Proof.
  intros (sa & Hi & <- & Ha)%result_lookup (sb & Hj & <- & Hb)%result_lookup Hlt.
  destruct (Nat.lt_trichotomy i j) as [? | [-> | Hgt]]; [done | |].
  - rewrite Hi in Hj. injection Hj as ->. lia.
  - pose proof (StronglySorted_lookup _ _ _ _ _ _ (ranked_sorted _) Hj Hi Hgt) as Hr.
    unfold ranksBefore in Hr. lia.
Qed.

Lemma result_elem (config : Config) query (data : LibraryData) (n : Node.t) :
  n ∈ searchDestinations config query (Some data) →
  n ∈ nodes data ∧ isDestination n = true
  ∧ 0 < scoreNode (Js.trim (Js.toLowerCase query)) n.
Proof.
  intros [i (s & Hs & <- & Hscore)%result_lookup]%list_elem_of_lookup_1.
  apply list_elem_of_lookup_2 in Hs. rewrite sort_perm in Hs.
  apply candidates_score in Hs as (_ & ? & ? & ?). rewrite <- Hscore. done.
Qed.

Lemma candidates_elem q (l : list Node.t) (n : Node.t) :
  n ∈ l → isDestination n = true → 0 < scoreNode q n →
  Scored.Build n (scoreNode q n) ∈ candidates q l.
Proof.
  intros Hn Hd Hs. unfold candidates.
  apply (list_elem_of_fmap_2 (fun n => Scored.Build n (scoreNode q n))).
  apply list_elem_of_In, filter_In. split; [by apply list_elem_of_In|].
  rewrite Hd. by apply Z.ltb_lt.
Qed.

(** A candidate is missing from the result only when the result is full. *)
Lemma result_complete (config : Config) query (data : LibraryData) (n : Node.t) :
  0 ≤ maxSuggestions config →
  n ∈ nodes data → isDestination n = true →
  0 < scoreNode (Js.trim (Js.toLowerCase query)) n →
  n ∈ searchDestinations config query (Some data)
  ∨ length (searchDestinations config query (Some data))
    = Z.to_nat (maxSuggestions config).
Proof.
  intros Hmax Hn Hd Hs.
  rewrite searchDestinations_ranked, slice0_take by done.
  set (q := Js.trim (Js.toLowerCase query)) in *.
  set (limit := Z.to_nat (maxSuggestions config)).
  pose proof (candidates_elem q _ _ Hn Hd Hs) as Hc.
  rewrite <- (sort_perm compare) in Hc.
  rewrite <- (take_drop limit (Js.sort compare (candidates q (nodes data)))) in Hc.
  apply elem_of_app in Hc as [Hc|Hc].
  - left. by apply (list_elem_of_fmap_2 Scored.node) in Hc.
  - right. rewrite length_map, length_take.
    apply list_elem_of_lookup_1 in Hc as [i Hi].
    apply lookup_lt_Some in Hi. rewrite length_drop in Hi. lia.
Qed.

(** Only heuristic 1 gives 100. *)
Lemma exact_score (q : jsstring) (node : Node.t) :
  scoreNode q node = 100 ↔ Js.toLowerCase (Node.name node) = q.
Proof.
  rewrite scoreNode_split, scoreAfterKeywords_split.
  pose proof (keywords_range q node) as Hk.
  pose proof (getFuzzyMatchScore_range (Heuristic.nameLower node) q) as Hf.
  unfold withFuzzy, nameScore, Heuristic.nameLower in *. unfold Js.eqb.
  generalize dependent (Heuristic.keywords q node).
  generalize dependent (getFuzzyMatchScore (Js.toLowerCase (Node.name node)) q).
  intros f Hf k Hk.
  case_bool_decide as Heq.
  - split; [done|]. intros _.
    destruct (Z.eqb_spec (Z.max 100 k) 0); [lia|]. cbn [andb]. lia.
  - split; [|done]. intros H. exfalso.
    repeat case_match; lia.
Qed.

End Results.

(** ** The normal form of a query *)

Section Normalize.

Lemma isSpace_computed :
  forallb (fun c => Bool.eqb (Js.isSpace (Js.lowerChar c)) (Js.isSpace c))
    allAscii = true.
Proof. vm_compute. reflexivity. Qed.

Lemma isSpace_lowerChar (c : ascii) : Js.isSpace (Js.lowerChar c) = Js.isSpace c.
Proof. apply Bool.eqb_prop, (forall_ascii _ isSpace_computed). Qed.

Lemma toLowerCase_idempotent (s : jsstring) :
  Js.toLowerCase (Js.toLowerCase s) = Js.toLowerCase s.
Proof.
  unfold Js.toLowerCase. rewrite map_map. apply map_ext.
  apply lowerChar_idempotent.
Qed.

Lemma trimStart_toLowerCase (s : jsstring) :
  Js.trimStart (Js.toLowerCase s) = Js.toLowerCase (Js.trimStart s).
Proof.
  induction s as [|c s IH]; [done|]. cbn [Js.toLowerCase map Js.trimStart].
  rewrite isSpace_lowerChar. by destruct (Js.isSpace c).
Qed.

Lemma rev_toLowerCase (s : jsstring) :
  rev (Js.toLowerCase s) = Js.toLowerCase (rev s).
Proof. unfold Js.toLowerCase. by rewrite map_rev. Qed.

Lemma trim_toLowerCase (s : jsstring) :
  Js.trim (Js.toLowerCase s) = Js.toLowerCase (Js.trim s).
Proof.
  unfold Js.trim.
  by rewrite trimStart_toLowerCase, rev_toLowerCase, trimStart_toLowerCase,
    rev_toLowerCase.
Qed.

Lemma trimStart_split (s : jsstring) :
  ∃ sp, s = sp ++ Js.trimStart s ∧ Forall (fun c => Js.isSpace c = true) sp.
Proof.
  induction s as [|c s (sp & IH & Hsp)]; [by exists []|].
  cbn [Js.trimStart]. destruct (Js.isSpace c) eqn:Hc.
  - exists (c :: sp). split; [by rewrite IH at 1 | by constructor].
  - by exists [].
Qed.

Lemma trimStart_head (s : jsstring) c (s' : jsstring) :
  Js.trimStart s = c :: s' → Js.isSpace c = false.
Proof.
  induction s as [|d s IH]; [done|]. cbn [Js.trimStart].
  destruct (Js.isSpace d) eqn:Hd; [done|]. by intros [= <- _].
Qed.

Lemma trimStart_fixed (s : jsstring) :
  match s with c :: _ => Js.isSpace c = false | [] => True end →
  Js.trimStart s = s.
Proof. destruct s as [|c s]; [done|]. simpl. by intros ->. Qed.

(** A trimmed string starts and ends with a character that is not a
    space. *)
Lemma trim_ends (s : jsstring) :
  match Js.trim s with c :: _ => Js.isSpace c = false | [] => True end
  ∧ match rev (Js.trim s) with c :: _ => Js.isSpace c = false | [] => True end.
Proof.
  unfold Js.trim. rewrite rev_involutive.
  set (u := Js.trimStart s).
  assert (Hu : match u with c :: _ => Js.isSpace c = false | [] => True end).
  { destruct u as [|c u'] eqn:Hu; [done|]. by eapply trimStart_head. }
  split.
  - destruct (trimStart_split (rev u)) as (sp & Hsplit & Hsp).
    set (v := Js.trimStart (rev u)) in *.
    apply (f_equal (@rev ascii)) in Hsplit.
    rewrite rev_involutive, rev_app_distr in Hsplit.
    destruct (rev v) as [|c w] eqn:Hv; [done|].
    rewrite Hsplit in Hu. done.
  - destruct (Js.trimStart (rev u)) as [|c v] eqn:Hv; [done|].
    by eapply trimStart_head.
Qed.

Lemma trim_idempotent (s : jsstring) : Js.trim (Js.trim s) = Js.trim s.
Proof.
  destruct (trim_ends s) as [Hhead Hlast].
  unfold Js.trim at 1. rewrite (trimStart_fixed (Js.trim s)) by done.
  rewrite (trimStart_fixed (rev (Js.trim s))) by done.
  apply rev_involutive.
Qed.

Lemma normalize_idempotent (query : jsstring) :
  Js.trim (Js.toLowerCase (Js.trim (Js.toLowerCase query)))
  = Js.trim (Js.toLowerCase query).
Proof.
  rewrite (trim_toLowerCase (Js.trim (Js.toLowerCase query))).
  rewrite trim_idempotent, <- trim_toLowerCase.
  by rewrite toLowerCase_idempotent.
Qed.

End Normalize.

(** ** When highlighting changes a name *)

Section HighlightChange.
Import Highlight.

Lemma length_render_ge (segs : list segment) :
  (length (plainText segs) ≤ length (render segs))%nat.
Proof.
  induction segs as [|[c|m] segs IH].
  - done.
  - rewrite render_plain. unfold plainText in *. simpl. lia.
  - rewrite render_marked. unfold plainText in *.
    cbn [map concat segmentText]. rewrite !length_app. lia.
Qed.

(** The rendering is the covered text exactly when nothing is marked. *)
Lemma render_unmarked (segs : list segment) off :
  render segs = plainText segs ↔ markedStarts off segs = [].
Proof.
  revert off. induction segs as [|[c|m] segs IH]; intros off.
  - done.
  - rewrite render_plain. cbn [markedStarts]. rewrite <- (IH (S off)).
    unfold plainText. cbn [map concat segmentText]. simpl.
    split; [by intros [= ?] | by intros ->].
  - cbn [markedStarts]. split; [|done]. intros H. exfalso.
    apply (f_equal length) in H. rewrite render_marked in H.
    unfold plainText in H. cbn [map concat segmentText] in H.
    rewrite !length_app in H. pose proof (length_render_ge segs) as Hge.
    unfold plainText in Hge. simpl in H. lia.
Qed.

Lemma take_drop_toLowerCase n i (s : jsstring) :
  Js.toLowerCase (take n (drop i s)) = take n (drop i (Js.toLowerCase s)).
Proof. unfold Js.toLowerCase. by rewrite skipn_map, firstn_map. Qed.

(** The query occurs somewhere in the name, case-insensitively, exactly
    when the lower-cased name contains the lower-cased query. *)
Lemma occurs_includes (name q : jsstring) :
  (∃ i, occursAt name q i)
  ↔ Js.includes (Js.toLowerCase name) (Js.toLowerCase q) = true.
Proof.
  rewrite includes_infix. unfold occursAt. split.
  - intros [i Hi]. rewrite take_drop_toLowerCase in Hi.
    exists (take i (Js.toLowerCase name)),
           (drop (length q) (drop i (Js.toLowerCase name))).
    by rewrite <- Hi, !take_drop.
  - intros (l1 & l2 & H). exists (length l1).
    rewrite take_drop_toLowerCase, H, drop_app_length.
    assert (length q = length (Js.toLowerCase q)) as ->
      by (unfold Js.toLowerCase; by rewrite length_map).
    by rewrite take_app_length.
Qed.

Lemma highlight_unchanged (name q : jsstring) :
  highlightSearchTerm name q = Some name
  ↔ q = [] ∨ Js.includes (Js.toLowerCase name) (Js.toLowerCase q) = false.
Proof.
  destruct q as [|c q]; [by split; [left|]|].
  set (query := c :: q). assert (Hq : query ≠ []) by done.
  unfold highlightSearchTerm. cbn [length Nat.ltb Nat.leb].
  rewrite parseGroup_escaped. cbn [mbind option_bind].
  unfold Regex.replaceAll. rewrite (replaceFrom_scan query Hq).
  pose proof (scan_text query Hq name 0%nat ltac:(lia)) as Htext.
  rewrite drop_0 in Htext.
  set (segs := scanFrom query 0 name) in *.
  split.
  - intros [= H]. right.
    assert (Hr : render segs = plainText segs) by congruence.
    apply (render_unmarked _ 0%nat) in Hr.
    destruct (Js.includes _ _) eqn:Hinc; [|done].
    apply occurs_includes in Hinc as [i Hi].
    destruct (scan_covers query Hq name 0%nat 0%nat i Hi ltac:(lia))
      as (s & Hs & _).
    fold segs in Hs. simpl in Hs. rewrite Hr in Hs. by apply elem_of_nil in Hs.
  - intros [?|Hinc]; [done|]. f_equal.
    transitivity (plainText segs); [|exact Htext].
    apply (render_unmarked _ 0%nat).
    destruct (markedStarts 0 segs) as [|s l] eqn:Hs; [done|].
    assert (Hin : s ∈ markedStarts (0 + 0) (scanFrom query 0 name))
      by (simpl; fold segs; rewrite Hs; left).
    apply (scan_starts query Hq) in Hin as (k & _ & _ & Hk).
    assert (Js.includes (Js.toLowerCase name) (Js.toLowerCase query) = true)
      by (apply occurs_includes; eauto).
    congruence.
Qed.

Lemma map_eq_transfer {B C} (f : ascii → B) (g : ascii → C) (a b : jsstring) :
  (∀ c d, f c = f d → g c = g d) → map f a = map f b → map g a = map g b.
Proof.
  intros Hfg. revert b. induction a as [|c a IH]; intros [|d b] H; try done.
  cbn [map] in *. injection H as Hc Hab. by rewrite (Hfg c d Hc), (IH b Hab).
Qed.

(** Containment goes over from one unit-wise mapping to a coarser one. *)
Lemma includes_map_transfer {B C}
    (f : ascii → B) (g : ascii → C) (name q : jsstring) :
  (∀ c d, f c = f d → g c = g d) →
  (∃ l1 l2, map f name = l1 ++ map f q ++ l2) →
  ∃ l1 l2, map g name = l1 ++ map g q ++ l2.
Proof.
  intros Hfg (l1 & l2 & H).
  assert (Hocc : map f (take (length q) (drop (length l1) name)) = map f q).
  { rewrite <- firstn_map, <- skipn_map, H, drop_app_length.
    rewrite <- (length_map f q). by rewrite take_app_length. }
  apply (map_eq_transfer f g _ _ Hfg) in Hocc.
  exists (map g (take (length l1) name)),
         (map g (drop (length q) (drop (length l1) name))).
  rewrite <- Hocc, <- !map_app. by rewrite !take_drop.
Qed.

(** On the code units 0..255 the folding of the [i] flag and [toLowerCase]
    find the same occurrences. *)
Lemma includes_canonicalizeAll (name q : jsstring) :
  Js.includes (canonicalizeAll name) (canonicalizeAll q)
  = Js.includes (Js.toLowerCase name) (Js.toLowerCase q).
Proof.
  apply eq_true_iff_eq. rewrite !includes_infix.
  unfold canonicalizeAll, Js.toLowerCase, infix. split.
  - apply includes_map_transfer. intros c d. apply canonicalize_lowerChar.
  - apply includes_map_transfer. intros c d. apply canonicalize_lowerChar.
Qed.

End HighlightChange.

(** ** The fuzzy heuristic on doubles *)

Section OnDoubles.

Lemma foldl_ext_elem {A B} (f g : B → A → B) (l : list A) (b : B) :
  (∀ b x, x ∈ l → f b x = g b x) → foldl f b l = foldl g b l.
Proof.
  revert b. induction l as [|x l IH]; intros b H; [done|]. simpl.
  rewrite H by left. apply IH. intros b' y Hy. apply H. by right.
Qed.

Lemma fuzzyStep_doubles (query word : jsstring) (bestScore : Z) :
  Js.len word ≤ 200 → Js.len query ≤ 200 →
  Doubles.fuzzyStep query bestScore word = fuzzyStep query bestScore word.
Proof.
  intros Hw Hq. unfold Doubles.fuzzyStep, fuzzyStep.
  destruct (Z.abs (Js.len word - Js.len query) <=? 2); [|done].
  rewrite levenshteinDistance_editDistance. cbn zeta.
  pose proof (editDistance_bounds word query) as Hb.
  rewrite binary64_agrees by (unfold Js.len in *; lia).
  unfold Binary64.exactWordScore.
  destruct (similarity _ _) as [sim|]; [|done].
  by destruct (Qle_bool (7 # 10) sim).
Qed.

End OnDoubles.

(** ** The search of the first application *)

Section AppSearch.

Lemma insertBy_map {A B} (f : A → B) (cmpA : A → A → Z) (cmpB : B → B → Z)
    x (l : list A) :
  (∀ a b, cmpA a b = cmpB (f a) (f b)) →
  map f (Js.insertBy cmpA x l) = Js.insertBy cmpB (f x) (map f l).
Proof.
  intros Hcmp. induction l as [|y l IH]; [done|].
  cbn [Js.insertBy map]. rewrite Hcmp.
  destruct (cmpB (f x) (f y) <=? 0); [done|].
  cbn [map]. by rewrite IH.
Qed.

Lemma sort_map {A B} (f : A → B) (cmpA : A → A → Z) (cmpB : B → B → Z)
    (l : list A) :
  (∀ a b, cmpA a b = cmpB (f a) (f b)) →
  map f (Js.sort cmpA l) = Js.sort cmpB (map f l).
Proof.
  intros Hcmp. unfold Js.sort. induction l as [|x l IH]; [done|].
  cbn [foldr map]. rewrite (insertBy_map f cmpA cmpB) by done. by rewrite IH.
Qed.

Lemma slice0_map {A B} (f : A → B) (l : list A) (e : Z) :
  map f (Js.slice0 l e) = Js.slice0 (map f l) e.
Proof.
  unfold Js.slice0. rewrite length_map. destruct (e <? 0); by rewrite firstn_map.
Qed.

Lemma App_visit_forget q (l : list Node.t) (acc : list App.Found) :
  map App.forget (foldl (App.visit q) acc l)
  = foldl (visit q) (map App.forget acc) l.
Proof.
  revert acc. induction l as [|n l IH]; intros acc; [done|].
  cbn [foldl]. rewrite IH. f_equal.
  unfold App.visit, visit.
  destruct (negb (Js.eqb (Node.type n) (lit "destination"))); [done|].
  cbn zeta. destruct (0 <? scoreNode q n); [|done].
  by rewrite map_app.
Qed.

Lemma App_searchDestinations_engine (st : State) (query : jsstring) :
  App.searchDestinations st query
  = searchDestinations defaultConfig query (library <$> libraryData st).
Proof.
  unfold App.searchDestinations, searchDestinations.
  destruct (libraryData st) as [g|]; [|done]. cbn [fmap option_fmap option_map].
  cbn zeta.
  rewrite <- (App_visit_forget _ _ []).
  rewrite <- (sort_map App.forget App.compare compare) by done.
  rewrite <- slice0_map, map_map. done.
Qed.

(** A keyword scores when it contains the query. *)
Lemma keywordScore_includes (q keyword : jsstring) :
  Heuristic.keywordScore q keyword ≠ 0
  ↔ Js.includes (Js.toLowerCase keyword) q = true.
Proof.
  unfold Heuristic.keywordScore. cbn zeta.
  destruct (Js.eqb _ q) eqn:He.
  { apply eqb_includes in He. rewrite He. done. }
  destruct (Js.startsWith _ q) eqn:Hs.
  { apply startsWith_includes in Hs. rewrite Hs. done. }
  destruct (Js.includes _ q); done.
Qed.

Lemma maxOf_zero (l : list Z) :
  maxOf l = 0 ↔ Forall (fun x => x ≤ 0) l.
Proof.
  induction l as [|x l IH].
  - split; [constructor|done].
  - pose proof (maxOf_nonneg l).
    change (maxOf (x :: l)) with (Z.max x (maxOf l)).
    rewrite Forall_cons, <- IH. lia.
Qed.

Lemma keywords_zero (q : jsstring) (node : Node.t) :
  Heuristic.keywords q node = 0
  ↔ ∀ kws k, Node.search_keywords node = Some kws → k ∈ kws →
      Js.includes (Js.toLowerCase k) q = false.
Proof.
  unfold Heuristic.keywords.
  destruct (Node.search_keywords node) as [kws|]; [|by split].
  rewrite maxOf_zero, Forall_forall. split.
  - intros H kws' k [= <-] Hk.
    specialize (H (Heuristic.keywordScore q k)).
    destruct (Js.includes (Js.toLowerCase k) q) eqn:Hi; [|done].
    apply keywordScore_includes in Hi.
    pose proof (keywordScore_range q k).
    ospecialize (H _); [apply list_elem_of_fmap; eauto|]. lia.
  - intros H x (k & -> & Hk)%list_elem_of_fmap.
    specialize (H kws k eq_refl Hk).
    destruct (decide (Heuristic.keywordScore q k = 0)) as [->|Hne]; [done|].
    apply keywordScore_includes in Hne. congruence.
Qed.

(** The three bands of the final score. *)
Lemma scoreNode_bands (q : jsstring) (node : Node.t) :
  let nameLower := Js.toLowerCase (Node.name node) in
  (Js.includes nameLower q = true → scoreNode q node ∈ [85; 90; 95; 100])
  ∧ (Js.includes nameLower q = false → Heuristic.keywords q node ≠ 0 →
     scoreNode q node = Heuristic.keywords q node
     ∧ scoreNode q node ∈ [65; 70; 75])
  ∧ (Js.includes nameLower q = false → Heuristic.keywords q node = 0 →
     scoreNode q node = 0 ∨ 42 ≤ scoreNode q node ≤ 59).
Proof.
  intros nameLower.
  pose proof (keywords_values q node) as Hk.
  rewrite !elem_of_cons, elem_of_nil in Hk.
  pose proof (scoreNode_split q node) as Hs.
  pose proof (scoreAfterKeywords_split q node) as Ha.
  fold nameLower in Hs. unfold Heuristic.nameLower in Hs, Ha. fold nameLower in Ha.
  destruct (nameScore_values nameLower q) as [[Hn Hinc] | [Hn Hinc]];
    rewrite Hinc; rewrite Hn in Ha || idtac.
  - split; [done|]. split.
    + intros _ Hne. assert (scoreNode q node = Heuristic.keywords q node) as ->.
      { rewrite Hs, Ha. unfold withFuzzy.
        destruct (Z.eqb_spec (Z.max 0 (Heuristic.keywords q node)) 0); [lia|].
        cbn [andb]. lia. }
      split; [done|]. rewrite !elem_of_cons. lia.
    + intros _ H0. rewrite Hs, Ha, H0. unfold withFuzzy.
      change (Z.max 0 0) with 0. cbn [Z.eqb andb]. fold nameLower.
      destruct (3 <=? Js.len q); [|by left].
      pose proof (getFuzzyMatchScore_values nameLower q).
      pose proof (getFuzzyMatchScore_absent nameLower q Hinc). lia.
  - split; [|split; done]. intros _.
    rewrite !elem_of_cons, elem_of_nil in Hn.
    assert (scoreNode q node
            = nameScore nameLower (words nameLower) q) as ->.
    { rewrite Hs, Ha. unfold withFuzzy.
      destruct (Z.eqb_spec
        (Z.max (nameScore nameLower (words nameLower) q)
               (Heuristic.keywords q node)) 0); [lia|].
      cbn [andb]. lia. }
    rewrite !elem_of_cons. lia.
Qed.

Lemma normal_query_lower (query : jsstring) :
  Js.toLowerCase (Js.trim (Js.toLowerCase query)) = Js.trim (Js.toLowerCase query).
Proof. by rewrite <- trim_toLowerCase, toLowerCase_idempotent. Qed.

Lemma includes_nil_r (s : jsstring) : Js.includes s [] = true.
Proof. destruct s; done. Qed.

Lemma getMatchInfo_band (q : jsstring) (node : Node.t) :
  Js.toLowerCase q = q →
  match App.getMatchInfo node q with
  | NameMatch text =>
      text = q ∧ Js.includes (Js.toLowerCase (Node.name node)) q = true
      ∧ 85 ≤ scoreNode q node ≤ 100
  | KeywordMatch keyword =>
      (∃ kws, Node.search_keywords node = Some kws ∧ keyword ∈ kws)
      ∧ Js.includes (Js.toLowerCase keyword) q = true
      ∧ Js.includes (Js.toLowerCase (Node.name node)) q = false
      ∧ 65 ≤ scoreNode q node ≤ 75
  | OtherMatch =>
      Js.includes (Js.toLowerCase (Node.name node)) q = false
      ∧ Heuristic.keywords q node = 0
      ∧ (scoreNode q node = 0 ∨ 42 ≤ scoreNode q node ≤ 59)
  end.
Proof.
  intros Hq. unfold App.getMatchInfo. cbn zeta. rewrite Hq.
  destruct (scoreNode_bands q node) as (Hname & Hkw & Hother).
  cbn zeta in Hname, Hkw, Hother.
  destruct (Js.includes (Js.toLowerCase (Node.name node)) q) eqn:Hinc.
  { specialize (Hname eq_refl). rewrite !elem_of_cons, elem_of_nil in Hname.
    repeat split; lia. }
  assert (Hne : q ≠ []).
  { intros ->. by rewrite includes_nil_r in Hinc. }
  assert (Hnone : Heuristic.keywords q node = 0 →
            Js.includes (Js.toLowerCase (Node.name node)) q = false
            ∧ Heuristic.keywords q node = 0
            ∧ (scoreNode q node = 0 ∨ 42 ≤ scoreNode q node ≤ 59)).
  { intros H0. auto. }
  rewrite Hinc in Hnone.
  destruct (Node.search_keywords node) as [kws|] eqn:Hkws.
  2:{ apply Hnone. unfold Heuristic.keywords. by rewrite Hkws. }
  destruct (List.find _ kws) as [k|] eqn:Hfind.
  - apply find_some in Hfind as [Hin%list_elem_of_In Hk].
    destruct k as [|c k].
    { destruct q; [done|]. discriminate Hk. }
    assert (Hnz : Heuristic.keywords q node ≠ 0).
    { intros H0. rewrite keywords_zero in H0.
      specialize (H0 kws _ Hkws Hin). congruence. }
    specialize (Hkw eq_refl Hnz) as [_ Hv].
    rewrite !elem_of_cons, elem_of_nil in Hv.
    repeat split; eauto; lia.
  - apply Hnone. apply keywords_zero. intros kws' k Hk' Hin.
    assert (kws' = kws) as -> by congruence.
    apply list_elem_of_In in Hin.
    by apply (find_none _ _ Hfind) in Hin.
Qed.

End AppSearch.

(** ** The search handlers *)

Section Handlers.

Lemma toLowerCase_nil_iff (s : jsstring) : Js.toLowerCase s = [] ↔ s = [].
Proof. destruct s; done. Qed.

(** What the debounced handler of the first application asks the engine
    is what the engine makes of the raw input. *)
Lemma App_handleSearch_query (st : State) :
  App.searchDestinations st (Js.toLowerCase (Js.trim (searchInput st)))
  = searchDestinations defaultConfig (searchInput st) (library <$> libraryData st).
Proof.
  rewrite App_searchDestinations_engine.
  unfold searchDestinations. destruct (library <$> libraryData st); [|done].
  cbn zeta. by rewrite toLowerCase_idempotent, <- trim_toLowerCase, trim_idempotent.
Qed.

Lemma App_handleSubmit_query (st : State) :
  App.searchDestinations st (Js.trim (searchInput st))
  = searchDestinations defaultConfig (searchInput st) (library <$> libraryData st).
Proof.
  rewrite App_searchDestinations_engine.
  unfold searchDestinations. destruct (library <$> libraryData st); [|done].
  cbn zeta. by rewrite <- trim_toLowerCase, trim_idempotent.
Qed.

Lemma App_handleSearch_cases (st : State) :
  let results :=
    searchDestinations defaultConfig (searchInput st) (library <$> libraryData st) in
  App.handleSearch st
  = match Js.trim (searchInput st), results with
    | [], _ | _, [] => App.hideSuggestions st
    | _ :: _, _ :: _ => App.showSuggestions (App.setItems results st)
    end.
Proof.
  cbn zeta. unfold App.handleSearch. cbn zeta.
  rewrite App_handleSearch_query.
  destruct (Js.trim (searchInput st)) as [|c q] eqn:Ht; [done|].
  cbn [Js.toLowerCase map length Nat.eqb].
  by destruct (searchDestinations _ _ _).
Qed.



End Handlers.

(** ** The state between two events *)

Section Consistency.
Variable displayRoute : State → Route → bool.

Local Ltac projections :=
  cbn [currentFloor selectedDestination currentRoute libraryData searchInput
       suggestionItems highlighted suggestionsShown view
       App.hideSuggestions App.showSuggestions App.setItems App.setView
       App.setSelection App.setFloor App.setInput App.setHighlighted] in *.

Lemma find_id_elem (nodeId : jsstring) (l : list Node.t) (d : Node.t) :
  List.find (fun n => Js.eqb (Node.id n) nodeId) l = Some d →
  d ∈ l ∧ Node.id d = nodeId.
Proof.
  intros [Hin He]%find_some. split; [by apply list_elem_of_In|].
  unfold Js.eqb in He. by apply bool_decide_eq_true in He.
Qed.

Lemma find_by_id (l : list Node.t) (n : Node.t) :
  NoDup (map Node.id l) → n ∈ l →
  List.find (fun m => Js.eqb (Node.id m) (Node.id n)) l = Some n.
Proof.
  induction l as [|m l IH]; intros Hnd Hin; [by apply elem_of_nil in Hin|].
  cbn [map] in Hnd. apply NoDup_cons in Hnd as [Hm Hnd].
  cbn [List.find]. unfold Js.eqb at 1. case_bool_decide as He.
  - apply elem_of_cons in Hin as [->|Hin]; [done|].
    exfalso. apply Hm. rewrite He. apply list_elem_of_fmap. eauto.
  - apply elem_of_cons in Hin as [->|Hin]; [done|]. by apply IH.
Qed.

Lemma hideSuggestions_consistent (st : State) :
  App.Consistent st → App.Consistent (App.hideSuggestions st).
Proof. intros [H1 H2 H3 H4 H5 H6]. split; projections; try done. Qed.

Lemma showSuggestions_consistent (st : State) :
  App.Consistent st → App.Consistent (App.showSuggestions st).
Proof. intros [H1 H2 H3 H4 H5 H6]. split; projections; done. Qed.

Lemma setInput_consistent v (st : State) :
  App.Consistent st → App.Consistent (App.setInput v st).
Proof. intros [H1 H2 H3 H4 H5 H6]. split; projections; done. Qed.

Lemma switchFloor_consistent f (st : State) :
  App.Consistent st → App.Consistent (App.switchFloor f st).
Proof.
  intros HC. unfold App.switchFloor. destruct (currentFloor st =? f); [done|].
  destruct HC as [H1 H2 H3 H4 H5 H6]. split; projections; done.
Qed.

Lemma setItems_consistent items (st : State) :
  (∀ n, n ∈ items →
     ∃ g, libraryData st = Some g ∧ n ∈ nodes (library g)
          ∧ isDestination n = true) →
  App.Consistent st → App.Consistent (App.setItems items st).
Proof. intros Hitems [H1 H2 H3 H4 H5 H6]. split; projections; done. Qed.

Lemma displaySuggestions_consistent items (st : State) :
  (∀ n, n ∈ items →
     ∃ g, libraryData st = Some g ∧ n ∈ nodes (library g)
          ∧ isDestination n = true) →
  App.Consistent st → App.Consistent (App.displaySuggestions items st).
Proof.
  intros Hitems HC. unfold App.displaySuggestions. destruct items as [|n items].
  - by apply hideSuggestions_consistent.
  - apply showSuggestions_consistent. by apply setItems_consistent.
Qed.

Lemma setHighlighted_consistent i (st : State) :
  (i < length (suggestionItems st))%nat →
  App.Consistent st → App.Consistent (App.setHighlighted (Some i) st).
Proof.
  intros Hi [H1 H2 H3 H4 H5 H6]. split; projections; try done.
  by intros ? [= <-].
Qed.

Lemma arrowDown_consistent (st : State) :
  App.Consistent st → App.Consistent (App.arrowDown st).
Proof.
  intros HC. unfold App.arrowDown. cbn zeta.
  destruct (highlighted st) as [i|] eqn:Hh.
  - apply setHighlighted_consistent; [|done].
    pose proof (App.highlighted_is_item st HC i Hh).
    destruct (Nat.ltb_spec (S i) (length (suggestionItems st))); lia.
  - destruct (Nat.ltb_spec 0 (length (suggestionItems st))); [|done].
    by apply setHighlighted_consistent.
Qed.

Lemma arrowUp_consistent (st : State) :
  App.Consistent st → App.Consistent (App.arrowUp st).
Proof.
  intros HC. unfold App.arrowUp. cbn zeta.
  destruct (highlighted st) as [i|] eqn:Hh.
  - apply setHighlighted_consistent; [|done].
    pose proof (App.highlighted_is_item st HC i Hh).
    destruct i; lia.
  - destruct (Nat.ltb_spec 0 (length (suggestionItems st))); [|done].
    apply setHighlighted_consistent; [lia|done].
Qed.

Lemma selectDestination_consistent nodeId (st : State) :
  App.Consistent st → App.Consistent (App.selectDestination displayRoute nodeId st).
Proof.
  intros HC. unfold App.selectDestination.
  destruct (libraryData st) as [g|] eqn:Hg; [|done].
  destruct (List.find _ _) as [d|] eqn:Hfind; [|done].
  apply find_id_elem in Hfind as [Hd _].
  cbn zeta. unfold App.generateRoute. projections. rewrite Hg.
  destruct HC as [H1 H2 H3 H4 H5 H6].
  destruct (paths g) as [table|] eqn:Hp.
  2:{ split; projections; try done. intros ? [= <-]. eauto. }
  destruct (table !! routeKey kiosk nodeId) as [route|] eqn:Hr.
  2:{ split; projections; try done. intros ? [= <-]. eauto. }
  destruct (displayRoute _ route);
    split; projections; try done; try (intros ? [= <-]; eauto 10).
Qed.

Lemma selectDestination_libraryData nodeId (st : State) :
  libraryData (App.selectDestination displayRoute nodeId st) = libraryData st.
Proof.
  unfold App.selectDestination.
  destruct (libraryData st) as [g|] eqn:Hg; [|done].
  destruct (List.find _ _) as [d|]; [|done].
  cbn zeta. destruct (App.generateRoute _ _ _) as [route|]; [|done].
  by destruct (displayRoute _ route).
Qed.

Lemma engine_results_are_destinations (st : State) (query : jsstring) n :
  n ∈ searchDestinations defaultConfig query (library <$> libraryData st) →
  ∃ g, libraryData st = Some g ∧ n ∈ nodes (library g) ∧ isDestination n = true.
Proof.
  destruct (libraryData st) as [g|]; cbn [fmap option_fmap option_map].
  - intros H%result_elem. exists g. tauto.
  - intros H. by apply elem_of_nil in H.
Qed.

Lemma handleSearch_consistent (st : State) :
  App.Consistent st → App.Consistent (App.handleSearch st).
Proof.
  intros HC. rewrite App_handleSearch_cases. cbn zeta.
  destruct (Js.trim (searchInput st)); [by apply hideSuggestions_consistent|].
  destruct (searchDestinations _ _ _) as [|n0 l0] eqn:Hres;
    [by apply hideSuggestions_consistent|].
  apply showSuggestions_consistent, setItems_consistent; [|done].
  intros m Hm. apply (engine_results_are_destinations st (searchInput st)).
  by rewrite Hres.
Qed.

Lemma handleSearchSubmit_consistent (st : State) :
  App.Consistent st → App.Consistent (App.handleSearchSubmit displayRoute st).
Proof.
  intros HC. unfold App.handleSearchSubmit. cbn zeta.
  destruct (Js.trim (searchInput st)); [done|].
  destruct (App.searchDestinations _ _); [done|].
  by apply selectDestination_consistent.
Qed.

Lemma inCategory_destination keywords (n : Node.t) :
  App.inCategory keywords n = true → isDestination n = true.
Proof.
  unfold App.inCategory, isDestination.
  by destruct (Js.eqb (Node.type n) (lit "destination")).
Qed.

Lemma categoryMatches_elem category (l found : list Node.t) (n : Node.t) :
  App.categoryMatches category l = Some found → n ∈ found →
  n ∈ l ∧ isDestination n = true.
Proof.
  unfold App.categoryMatches.
  destruct (App.categoryKeywords category) as [keywords|].
  - intros [= <-] [Hn Hc]%list_elem_of_In%filter_In.
    split; [by apply list_elem_of_In|]. by apply inCategory_destination in Hc.
  - destruct (existsb isDestination l); [done|].
    intros [= <-] Hn. by apply elem_of_nil in Hn.
Qed.

Lemma handleCategorySelect_consistent category (st : State) :
  App.Consistent st →
  App.Consistent (App.handleCategorySelect displayRoute category st).
Proof.
  intros HC. unfold App.handleCategorySelect.
  destruct (libraryData st) as [g|] eqn:Hg; [|done].
  destruct (App.categoryMatches _ _) as [[|n [|m l]]|] eqn:Hm; [done| | |done].
  - by apply selectDestination_consistent.
  - apply displaySuggestions_consistent; [|done].
    intros x Hx. apply (categoryMatches_elem _ _ _ x Hm) in Hx as [Hx Hc].
    by exists g.
Qed.

Lemma showSelectionView_consistent (st : State) :
  App.Consistent st → App.Consistent (App.showSelectionView st).
Proof.
  intros [H1 H2 H3 H4 H5 H6]. unfold App.showSelectionView. cbn zeta.
  projections.
  destruct (negb (currentFloor st =? 1)); [apply switchFloor_consistent|];
    split; projections; try done; by intros [? ?].
Qed.

Lemma step_consistent (st : State) (e : App.Event) :
  App.Consistent st → App.Consistent (App.step displayRoute st e).
Proof.
  intros HC. destruct e; cbn [App.step].
  - by apply setInput_consistent.
  - by apply handleSearch_consistent.
  - destruct (Js.trim (searchInput st)); [done|].
    by apply showSuggestions_consistent.
  - by apply arrowDown_consistent.
  - by apply arrowUp_consistent.
  - unfold App.enter. destruct (highlighted st).
    + destruct (suggestionItems st !! _); [|done].
      by apply selectDestination_consistent.
    + by apply handleSearchSubmit_consistent.
  - by apply hideSuggestions_consistent.
  - by apply handleSearchSubmit_consistent.
  - by apply handleCategorySelect_consistent.
  - destruct (suggestionItems st !! _); [|done].
    by apply selectDestination_consistent.
  - by apply hideSuggestions_consistent.
  - by apply showSelectionView_consistent.
  - by apply switchFloor_consistent.
  - unfold App.checkUrlParameters. destruct (_ && _); [|done].
    by apply selectDestination_consistent.
Qed.

Lemma step_libraryData (st : State) (e : App.Event) :
  libraryData (App.step displayRoute st e) = libraryData st.
Proof.
  destruct e; cbn [App.step]; try done.
  - rewrite App_handleSearch_cases. cbn zeta.
    destruct (Js.trim (searchInput st)); [done|].
    by destruct (searchDestinations _ _ _).
  - by destruct (Js.trim (searchInput st)).
  - unfold App.arrowDown. cbn zeta. destruct (highlighted st); [done|].
    by destruct (0 <? _)%nat.
  - unfold App.arrowUp. cbn zeta. destruct (highlighted st); [done|].
    by destruct (0 <? _)%nat.
  - unfold App.enter, App.handleSearchSubmit. cbn zeta.
    repeat case_match; try done; by rewrite selectDestination_libraryData.
  - unfold App.handleSearchSubmit. cbn zeta.
    repeat case_match; try done; by rewrite selectDestination_libraryData.
  - unfold App.handleCategorySelect, App.displaySuggestions.
    repeat case_match; try done; by rewrite selectDestination_libraryData.
  - case_match; [|done]. by rewrite selectDestination_libraryData.
  - unfold App.showSelectionView, App.switchFloor. cbn zeta.
    repeat case_match; done.
  - unfold App.switchFloor. by case_match.
  - unfold App.checkUrlParameters. case_match; [|done].
    apply selectDestination_libraryData.
Qed.

Lemma run_consistent (events : list App.Event) (st : State) :
  App.Consistent st →
  App.Consistent (App.run displayRoute events st)
  ∧ libraryData (App.run displayRoute events st) = libraryData st.
Proof.
  unfold App.run. revert st. induction events as [|e events IH]; intros st HC.
  - done.
  - cbn [foldl]. destruct (IH (App.step displayRoute st e)) as [H1 H2].
    + by apply step_consistent.
    + split; [done|]. by rewrite H2, step_libraryData.
Qed.

End Consistency.

(** ** Categories, badges and markers *)

Section Categories.

Lemma filter_sublist_impl {A} (p q : A → bool) (l : list A) :
  (∀ x, p x = true → q x = true) →
  sublist (List.filter p l) (List.filter q l).
Proof.
  intros Hpq. induction l as [|x l IH]; [constructor|].
  cbn [List.filter]. destruct (p x) eqn:Hp.
  - rewrite (Hpq x Hp). by constructor.
  - destruct (q x); [by constructor|done].
Qed.

Lemma filter_sublist {A} (p : A → bool) (l : list A) :
  sublist (List.filter p l) l.
Proof.
  induction l as [|x l IH]; [constructor|].
  cbn [List.filter]. destruct (p x); by constructor.
Qed.

Lemma includes_toLowerCase (s q : jsstring) :
  Js.includes s q = true →
  Js.includes (Js.toLowerCase s) (Js.toLowerCase q) = true.
Proof.
  rewrite !includes_infix. intros (l1 & l2 & ->).
  exists (Js.toLowerCase l1), (Js.toLowerCase l2).
  unfold Js.toLowerCase. by rewrite !map_app.
Qed.

(** The keywords of the orchestrator are keywords of the first
    application, and in lower case; the two maps have no array for the same
    names. *)
Lemma Main_keywords (category : jsstring) :
  match Main.categoryKeywords category, App.categoryKeywords category with
  | Some km, Some ka => ∀ k, k ∈ km → k ∈ ka ∧ Js.toLowerCase k = k
  | None, None => True
  | _, _ => False
  end.
Proof.
  unfold Main.categoryKeywords, App.categoryKeywords.
  destruct (Js.eqb category (lit "restroom")).
  { intros k. rewrite !elem_of_cons, elem_of_nil. intros [->|[->|[]]]; split; auto. }
  destruct (Js.eqb category (lit "study")).
  { intros k. rewrite !elem_of_cons, elem_of_nil. intros [->|[->|[]]]; split; auto. }
  destruct (Js.eqb category (lit "computer")).
  { intros k. rewrite !elem_of_cons, elem_of_nil. intros [->|[->|[]]]; split; auto. }
  destruct (inherited category); [done|].
  intros k H. by apply elem_of_nil in H.
Qed.

Lemma Main_inCategory_App (km ka : list jsstring) (n : Node.t) :
  (∀ k, k ∈ km → k ∈ ka ∧ Js.toLowerCase k = k) →
  Main.inCategory km n = true → App.inCategory ka n = true.
Proof.
  unfold Main.inCategory, App.inCategory.
  intros Hkeys [Hd Hk]%andb_true_iff. rewrite Hd. cbn [negb].
  apply existsb_elem_of in Hk as (k & Hk & Hm).
  apply Hkeys in Hk as [Hk Hlow].
  apply existsb_elem_of. exists k. split; [done|]. rewrite Hlow.
  apply orb_true_iff in Hm as [Hname | Hsk].
  - rewrite Hname. apply orb_true_r.
  - destruct (Node.search_keywords n) as [sks|]; [|done].
    apply orb_true_iff. left.
    apply existsb_elem_of in Hsk as (sk & Hsk & Hinc).
    apply existsb_elem_of. exists sk. split; [done|].
    rewrite <- Hlow. by apply includes_toLowerCase.
Qed.

(** The filter of the orchestrator throws when that of the first
    application does, and finds a sublist of what it finds. *)
Lemma Main_categoryMatches_App (category : jsstring) (l : list Node.t) :
  match Main.categoryMatches category l, App.categoryMatches category l with
  | Some mm, Some ma => sublist mm ma
  | None, None => True
  | _, _ => False
  end.
Proof.
  unfold Main.categoryMatches, App.categoryMatches.
  pose proof (Main_keywords category) as Hk.
  destruct (Main.categoryKeywords category) as [km|],
           (App.categoryKeywords category) as [ka|]; try done.
  - apply filter_sublist_impl. intros n. by apply Main_inCategory_App.
  - by destruct (existsb isDestination l).
Qed.

Lemma includes_refl (s : jsstring) : Js.includes s s = true.
Proof. apply startsWith_includes, startsWith_refl. Qed.

(** A node with a keyword equal to a keyword of the list is in the
    category, for the orchestrator. *)
Lemma Main_inCategory_keyword (km : list jsstring) (k : jsstring) kws (n : Node.t) :
  isDestination n = true → Node.search_keywords n = Some kws →
  k ∈ kws → k ∈ km → Main.inCategory km n = true.
Proof.
  intros Hd Hkws Hk Hc. unfold Main.inCategory.
  unfold isDestination in Hd. rewrite Hd. cbn [andb].
  apply existsb_elem_of. exists k. split; [done|].
  rewrite Hkws. apply orb_true_iff. right.
  apply existsb_elem_of. exists k. split; [done|]. apply includes_refl.
Qed.

Lemma hasKeyword_elem kws (k : string) :
  App.hasKeyword kws k = true → lit k ∈ kws.
Proof. unfold App.hasKeyword. by intros ?%bool_decide_eq_true. Qed.

Local Ltac by_keywords H :=
  eexists; eexists; split; [done|]; split; [exact H|];
  split; [vm_compute; reflexivity|];
  rewrite !elem_of_cons; first [by left | by right; left].

Lemma badge_keyword (n : Node.t) (b : App.Badge) (c : jsstring) :
  App.getSuggestionBadge n = Some b → App.badgeCategory b = Some c →
  ∃ kws k km, Node.search_keywords n = Some kws ∧ k ∈ kws
              ∧ Main.categoryKeywords c = Some km ∧ k ∈ km.
Proof.
  unfold App.getSuggestionBadge. cbn zeta.
  destruct (Node.search_keywords n) as [kws|]; cbn [from_option id].
  2:{ unfold App.hasKeyword. rewrite !bool_decide_eq_false_2
        by (intros H; by apply elem_of_nil in H). done. }
  intros Hb Hc. exists kws.
  destruct (App.hasKeyword kws "restroom") eqn:H1.
  { cbn [orb] in Hb. injection Hb as <-. injection Hc as <-.
    apply hasKeyword_elem in H1. by_keywords H1. }
  cbn [orb] in Hb.
  destruct (App.hasKeyword kws "bathroom") eqn:H2.
  { cbn [orb] in Hb. injection Hb as <-. injection Hc as <-.
    apply hasKeyword_elem in H2. by_keywords H2. }
  cbn [orb] in Hb.
  destruct (App.hasKeyword kws "study") eqn:H3.
  { cbn [orb] in Hb. injection Hb as <-. injection Hc as <-.
    apply hasKeyword_elem in H3. by_keywords H3. }
  cbn [orb] in Hb.
  destruct (App.hasKeyword kws "group room") eqn:H4.
  { cbn [orb] in Hb. injection Hb as <-. injection Hc as <-.
    apply hasKeyword_elem in H4. by_keywords H4. }
  cbn [orb] in Hb.
  destruct (App.hasKeyword kws "computer") eqn:H5.
  { cbn [orb] in Hb. injection Hb as <-. injection Hc as <-.
    apply hasKeyword_elem in H5. by_keywords H5. }
  cbn [orb] in Hb.
  destruct (App.hasKeyword kws "lab") eqn:H6.
  { cbn [orb] in Hb. injection Hb as <-. injection Hc as <-.
    apply hasKeyword_elem in H6. by_keywords H6. }
  cbn [orb] in Hb. destruct (_ || _); [|done].
  injection Hb as <-. discriminate Hc.
Qed.

End Categories.

Section Markers.

Lemma splitOn_nonempty sep cur (s : jsstring) : splitOn sep cur s ≠ [].
Proof.
  revert cur. induction s as [|c s IH]; intros cur; [done|].
  cbn [splitOn]. case_bool_decide; [done|apply IH].
Qed.

Lemma join_cons sep (w : jsstring) (l : list jsstring) :
  l ≠ [] → join sep (w :: l) = w ++ sep ++ join sep l.
Proof. by destruct l. Qed.

(** Joining the pieces with the separator gives the string back. *)
Lemma join_splitOn sep cur (s : jsstring) :
  join [sep] (splitOn sep cur s) = cur ++ s.
Proof.
  revert cur. induction s as [|c s IH]; intros cur.
  - cbn [splitOn join]. by rewrite app_nil_r.
  - cbn [splitOn]. case_bool_decide as Hc.
    + rewrite join_cons by apply splitOn_nonempty. rewrite IH. by subst.
    + rewrite IH. by rewrite <- app_assoc.
Qed.

Lemma splitOn_no_sep sep cur (s : jsstring) :
  sep ∉ s → splitOn sep cur s = [cur ++ s].
Proof.
  revert cur. induction s as [|c s IH]; intros cur Hs.
  - cbn [splitOn]. by rewrite app_nil_r.
  - apply not_elem_of_cons in Hs as [Hc Hs]. cbn [splitOn].
    rewrite bool_decide_eq_false_2 by congruence.
    rewrite IH by done. by rewrite <- app_assoc.
Qed.

Lemma splitOn_first sep cur (p rest : jsstring) :
  sep ∉ p →
  splitOn sep cur (p ++ sep :: rest) = (cur ++ p) :: splitOn sep [] rest.
Proof.
  revert cur. induction p as [|c p IH]; intros cur Hp.
  - cbn [app splitOn]. rewrite bool_decide_eq_true_2 by done.
    by rewrite app_nil_r.
  - apply not_elem_of_cons in Hp as [Hc Hp]. cbn [app splitOn].
    rewrite bool_decide_eq_false_2 by congruence.
    rewrite IH by done. by rewrite <- app_assoc.
Qed.

(** The text of a number: all the digits of a small integer, the digits
    of the nearest double with zeros after them for a large one, the
    exponent form from 10^21. *)
Lemma numberToString_examples :
  numberToString 0 = lit "0"
  ∧ numberToString 2 = lit "2"
  ∧ numberToString (-3) = lit "-3"
  ∧ numberToString (2 ^ 53 + 1) = lit "9007199254740992"
  ∧ numberToString (2 ^ 60) = lit "1152921504606847000"
  ∧ numberToString (10 ^ 21) = lit "1e+21"
  ∧ numberToString (15 * 10 ^ 20 + 7) = lit "1.5e+21"
  ∧ numberToString (2 ^ 1024) = lit "Infinity".
Proof. repeat split; vm_compute; reflexivity. Qed.

Lemma idWithoutFloor_first (p rest : jsstring) :
  App.underscore ∉ p →
  App.idWithoutFloor (p ++ App.underscore :: rest) = rest.
Proof.
  intros Hp. unfold App.idWithoutFloor, split1.
  rewrite splitOn_first by done. cbn [drop]. apply join_splitOn.
Qed.

Lemma idWithoutFloor_none (s : jsstring) :
  App.underscore ∉ s → App.idWithoutFloor s = [].
Proof.
  intros Hs. unfold App.idWithoutFloor, split1.
  by rewrite splitOn_no_sep.
Qed.

End Markers.

Section Keys.
Variable displayRoute : State → Route → bool.

Local Ltac keys :=
  cbv beta iota zeta delta
    [App.arrowDown App.arrowUp App.setHighlighted currentFloor
     selectedDestination currentRoute libraryData searchInput suggestionItems
     highlighted suggestionsShown view].

Lemma arrowUp_arrowDown (st : State) i :
  highlighted st = Some i → (i < length (suggestionItems st))%nat →
  App.arrowUp (App.arrowDown st) = st.
Proof.
  destruct st as [f d r g inp items h shown v]. keys. intros -> Hi. keys.
  destruct (Nat.ltb_spec (S i) (length items)); keys; [done|].
  do 2 f_equal. lia.
Qed.

Lemma arrowDown_arrowUp (st : State) i :
  highlighted st = Some i → (i < length (suggestionItems st))%nat →
  App.arrowDown (App.arrowUp st) = st.
Proof.
  destruct st as [f d r g inp items h shown v]. keys. intros -> Hi. keys.
  destruct i as [|i]; keys.
  - destruct (Nat.ltb_spec (S (length items - 1)) (length items)); [lia|done].
  - destruct (Nat.ltb_spec (S i) (length items)); [done|lia].
Qed.

(** With identifiers that are unique, selecting the identifier of a node
    selects that node. *)
Lemma selectDestination_selects (st : State) g (n : Node.t) :
  libraryData st = Some g → NoDup (map Node.id (nodes (library g))) →
  n ∈ nodes (library g) →
  let st' := App.selectDestination displayRoute (Node.id n) st in
  selectedDestination st' = Some n
  ∧ suggestionsShown st' = false
  ∧ highlighted st' = None
  ∧ currentRoute st'
    = match App.generateRoute st kiosk (Node.id n) with
      | Some route => Some route
      | None => currentRoute st
      end.
Proof.
  intros Hg Hnd Hn. cbn zeta. unfold App.selectDestination.
  rewrite Hg, (find_by_id _ n Hnd Hn). cbn zeta.
  unfold App.generateRoute. cbn [libraryData App.hideSuggestions App.setSelection].
  rewrite Hg. destruct (paths g) as [table|]; [|done].
  destruct (table !! _) as [route|]; [|done].
  by destruct (displayRoute _ route).
Qed.

End Keys.

(** ** The claims of the specification *)

(** C8.  For all strings [a] and [b], [levenshteinDistance a b] returns a
    non-negative integer, and that integer is the least number of
    single-character insertions, deletions and substitutions that transform
    [a] into [b]: that many edits do it, and no sequence of edits from [a] to
    [b] is shorter. *)
Theorem levenshteinDistance_is_edit_distance (a b : jsstring) :
  ∃ d : Z,
    Utils.levenshteinDistance a b = Some d
    ∧ 0 ≤ d
    ∧ edits (Z.to_nat d) a b
    ∧ ∀ m, edits m a b → d ≤ Z.of_nat m.
Proof.
  exists (Z.of_nat (editDistance a b)).
  destruct (lev_rev_least a b) as [Hreach Hleast].
  rewrite levenshteinDistance_lev, Nat2Z.id. unfold editDistance.
  repeat split; [lia | done |].
  intros m Hm. apply Hleast in Hm. lia.
Qed.

(** The distance from kitten to sitting is at most 3: substitute k by s,
    substitute e by i, insert g. *)
Lemma levenshteinDistance_is_edit_distance_witness :
  ∃ d : Z,
    Utils.levenshteinDistance (lit "kitten") (lit "sitting") = Some d ∧ d ≤ 3.
Proof.
  destruct (levenshteinDistance_is_edit_distance (lit "kitten") (lit "sitting"))
    as (d & Hd & _ & _ & Hleast).
  exists d. split; [exact Hd|].
  apply (Hleast 3%nat).
  apply (edits_S _ _ (lit "sitten")); [apply (edit_subst [] "k" "s" (lit "itten"))|].
  apply (edits_S _ _ (lit "sittin")); [apply (edit_subst (lit "sitt") "e" "i" (lit "n"))|].
  apply (edits_S _ _ (lit "sitting")); [apply (edit_insert (lit "sittin") "g" [])|].
  apply edits_O.
Defined.

(** C7.  The fuzzy heuristic is the best, over the whitespace-delimited words
    of the text whose length is within 2 of the query's, of
    floor(similarity * 60) for the words with similarity >= 0.70, where
    similarity = 1 - distance / max(len(word), len(query)); it is 0 when no
    word is accepted.  For the query libary and the name Library Commons the
    distance to the word library is 1, the similarity 6/7 and the score 51,
    in exact arithmetic and on doubles. *)
Theorem fuzzy_heuristic_spec (text query : jsstring) :
  getFuzzyMatchScore text query = FuzzySpec.score text query
  ∧ Utils.levenshteinDistance (lit "library") (lit "libary") = Some 1
  ∧ (FuzzySpec.similarity (lit "library") (lit "libary") == 6 # 7)%Q
  ∧ FuzzySpec.wordScore (lit "libary") (lit "library") = 51
  ∧ getFuzzyMatchScore (Js.toLowerCase (lit "Library Commons")) (lit "libary") = 51
  ∧ Binary64.wordScore 7 1 = Some 51.
Proof.
  split; [apply getFuzzyMatchScore_spec|].
  repeat split; vm_compute; reflexivity.
Qed.

(** C6.  The fuzzy heuristic runs only when the score after heuristics 1 to 8
    is 0 and the query has at least 3 characters: the final score is then the
    fuzzy score, and otherwise the score after heuristics 1 to 8.  Whenever
    one of the heuristics 1 to 8 gives the node a score other than 0, the
    final score is the score those heuristics produced, whatever the fuzzy
    score would be. *)
Theorem fuzzy_only_as_last_resort (q : jsstring) (node : Node.t) :
  scoreNode q node
  = (if (scoreBeforeFuzzy q node =? 0) && (3 <=? Js.len q)
     then getFuzzyMatchScore (Js.toLowerCase (Node.name node)) q
     else scoreBeforeFuzzy q node)
  ∧ scoreBeforeFuzzy q node = maxOf (Heuristic.upTo8 q node)
  ∧ ∀ h, h ∈ Heuristic.upTo8 q node → h ≠ 0 →
         scoreNode q node = scoreBeforeFuzzy q node.
Proof.
  assert (Hgate : scoreNode q node
    = (if (scoreBeforeFuzzy q node =? 0) && (3 <=? Js.len q)
       then getFuzzyMatchScore (Js.toLowerCase (Node.name node)) q
       else scoreBeforeFuzzy q node)).
  { unfold scoreNode, withFuzzy.
    destruct (Z.eqb_spec (scoreBeforeFuzzy q node) 0) as [->|]; [|done].
    destruct (3 <=? Js.len q); [|done]. cbn [andb].
    pose proof (getFuzzyMatchScore_range (Js.toLowerCase (Node.name node)) q).
    lia. }
  split; [exact Hgate|]. split; [apply scoreBeforeFuzzy_max|].
  intros h Hh Hne. rewrite Hgate.
  pose proof (maxOf_upper _ _ Hh) as Hle. rewrite <- scoreBeforeFuzzy_max in Hle.
  assert (0 ≤ h).
  { apply (heuristic_range q node). unfold Heuristic.all.
    apply elem_of_app. by left. }
  destruct (Z.eqb_spec (scoreBeforeFuzzy q node) 0); [lia | done].
Qed.

(** For the query lib the name Library Commons starts with the query (95),
    so the fuzzy heuristic leaves the score alone. *)
Lemma fuzzy_only_as_last_resort_witness :
  scoreNode (lit "lib") Sample.commons = scoreBeforeFuzzy (lit "lib") Sample.commons.
Proof.
  apply (proj2 (proj2 (fuzzy_only_as_last_resort (lit "lib") Sample.commons)) 95).
  - apply (list_elem_of_lookup_2 _ 1%nat). vm_compute. reflexivity.
  - lia.
Defined.

(** C5.  For every query and node the final score is the maximum of the
    scores of the individual heuristics, so it is one of those scores and not
    a sum of them, no heuristic scores higher than it, and it lies between 0
    and 100. *)
Theorem score_is_best_single_heuristic (q : jsstring) (node : Node.t) :
  scoreNode q node = maxOf (Heuristic.all q node)
  ∧ scoreNode q node ∈ Heuristic.all q node
  ∧ 0 ≤ scoreNode q node ≤ 100
  ∧ ∀ h, h ∈ Heuristic.all q node → h ≤ scoreNode q node.
Proof.
  split; [apply scoreNode_max|]. split; [|split; [apply scoreNode_range|]].
  - rewrite scoreNode_max.
    destruct (maxOf_elem_of (Heuristic.all q node)) as [H0|Hin]; [|done].
    rewrite H0.
    assert (Hhead : Heuristic.exactName q node ∈ Heuristic.all q node)
      by (unfold Heuristic.all, Heuristic.upTo8, Heuristic.upTo6; left).
    pose proof (maxOf_upper _ _ Hhead). pose proof (heuristic_range _ _ _ Hhead).
    replace 0 with (Heuristic.exactName q node) by lia. done.
  - intros h Hh. rewrite scoreNode_max. by apply maxOf_upper.
Qed.

(** The substring score 85 of Room 2B for the query 2b does not exceed the
    final score. *)
Lemma score_is_best_single_heuristic_witness :
  85 ≤ scoreNode (lit "2b") Sample.room2B.
Proof.
  apply (proj2 (proj2 (proj2
    (score_is_best_single_heuristic (lit "2b") Sample.room2B)))).
  apply (list_elem_of_lookup_2 _ 3%nat). vm_compute. reflexivity.
Defined.

(** C10.  The short-query fallback (heuristic 7) is unreachable.  For every
    query and node, if heuristics 1 to 6 left the score at 0 then no
    whitespace-delimited word of the lower-cased name contains the query, and
    the lower-cased name does not contain it; so heuristic 7 scores 0 where
    its gate lets it run, and the engine without heuristic 7 returns the same
    sequence as the engine of the source on every input. *)
Theorem short_query_fallback_unreachable :
  (∀ (q : jsstring) (node : Node.t),
     scoreAfterKeywords q node = 0 →
     existsb (fun word => Js.includes word q)
       (words (Js.toLowerCase (Node.name node))) = false
     ∧ Js.includes (Js.toLowerCase (Node.name node)) q = false)
  ∧ (∀ (q : jsstring) (node : Node.t),
       Heuristic.shortQuery q node (scoreAfterKeywords q node) = 0)
  ∧ (∀ config query libraryData,
       Without7.searchDestinations config query libraryData
       = searchDestinations config query libraryData).
Proof.
  assert (Hzero : ∀ (q : jsstring) (node : Node.t),
     scoreAfterKeywords q node = 0 →
     existsb (fun word => Js.includes word q)
       (words (Js.toLowerCase (Node.name node))) = false
     ∧ Js.includes (Js.toLowerCase (Node.name node)) q = false).
  { intros q node H0. pose proof (scoreAfterKeywords_zero q node H0) as Hinc.
    split; [|exact Hinc].
    destruct (existsb _ _) eqn:Hw; [|done].
    apply word_includes in Hw. unfold Heuristic.nameLower in Hinc. congruence. }
  split; [exact Hzero|]. split.
  - intros q node. unfold Heuristic.shortQuery.
    destruct (Js.len q <=? 3); [|done].
    destruct (Z.eqb_spec (scoreAfterKeywords q node) 0) as [H0|]; [|done].
    destruct (Hzero q node H0) as [Hw Hinc]. cbn [andb].
    unfold Heuristic.nameLower. by rewrite Hw, Hinc.
  - intros config query [data|]; [|done].
    unfold Without7.searchDestinations, searchDestinations.
    by rewrite Without7_visit.
Qed.

(** Room 2B scores 0 on heuristics 1 to 6 for the query zz, and indeed none
    of its words contains zz. *)
Lemma short_query_fallback_unreachable_witness :
  existsb (fun word => Js.includes word (lit "zz"))
    (words (Js.toLowerCase (Node.name Sample.room2B))) = false
  ∧ Js.includes (Js.toLowerCase (Node.name Sample.room2B)) (lit "zz") = false.
Proof.
  apply (proj1 short_query_fallback_unreachable (lit "zz") Sample.room2B).
  vm_compute. reflexivity.
Defined.

(** C4.  The sequence returned is the list of candidates (destination nodes
    with a score above 0) sorted by descending score, then by ascending name
    length, candidates equal on both keys keeping their load order, and cut
    to its first maxSuggestions elements: it has min(maxSuggestions, number
    of candidates) elements, every element kept ranks before every element
    cut, and with 20 candidates and maxSuggestions = 6 exactly 6 are
    returned.  The default of maxSuggestions is 6. *)
Theorem ranking_order_and_truncation
    (config : Config) (query : jsstring) (data : LibraryData) :
  0 ≤ maxSuggestions config →
  let cands := candidates (Js.trim (Js.toLowerCase query)) (nodes data) in
  let limit := Z.to_nat (maxSuggestions config) in
  let result := searchDestinations config query (Some data) in
  ∃ ranked : list Scored.t,
    ranked ≡ₚ cands
    ∧ StronglySorted ranksBefore ranked
    ∧ (∀ k, List.filter (hasKey k) ranked = List.filter (hasKey k) cands)
    ∧ result = map Scored.node (take limit ranked)
    ∧ (∀ x y, x ∈ take limit ranked → y ∈ drop limit ranked → ranksBefore x y)
    ∧ length result = Nat.min limit (length cands)
    ∧ (length cands = 20%nat → maxSuggestions config = 6 → length result = 6%nat)
    ∧ maxSuggestions (new None) = 6.
Proof.
  intros Hmax cands limit result.
  exists (Js.sort compare cands).
  assert (Hperm : Js.sort compare cands ≡ₚ cands) by apply sort_perm.
  assert (Hres : result = map Scored.node (take limit (Js.sort compare cands))).
  { unfold result. rewrite searchDestinations_ranked. by rewrite slice0_take. }
  assert (Hlen : length result = Nat.min limit (length cands)).
  { rewrite Hres, length_map, length_take. by rewrite Hperm. }
  repeat split.
  - exact Hperm.
  - apply ranked_sorted.
  - intros k. apply sort_stable. intros x y. apply compare_same_key.
  - exact Hres.
  - intros x y. apply StronglySorted_take_drop, ranked_sorted.
  - exact Hlen.
  - intros H20 H6. rewrite Hlen, H20. unfold limit. rewrite H6. reflexivity.
Qed.

(** With the default configuration and the query lab on the sample library,
    the two candidates come back, Lab (100) before Computer Lab Annex (90). *)
Lemma ranking_order_and_truncation_witness :
  ∃ ranked : list Scored.t,
    searchDestinations defaultConfig (lit "lab") (Some Sample.library)
    = map Scored.node (take 6 ranked)
    ∧ StronglySorted ranksBefore ranked.
Proof.
  destruct (ranking_order_and_truncation defaultConfig (lit "lab") Sample.library)
    as (ranked & _ & Hsorted & _ & Hres & _).
  - vm_compute. discriminate.
  - exists ranked. split; [exact Hres | exact Hsorted].
Defined.




(** C2, as amended.  For the query 2b a node named Room 2B has final score
    90: the word 2b of its name starts with the query (heuristic 3), and the
    85 of the exact room-code pattern match is below that maximum.  The node
    ranks above a node named 2nd Floor Break Room wherever both appear in a
    result. *)
Theorem room_code_query_ranking (a : Node.t) :
  Node.name a = lit "Room 2B" →
  scoreNode (lit "2b") a = 90
  ∧ Heuristic.wordPrefix (lit "2b") a = 90
  ∧ Heuristic.pattern (lit "2b") a = 85
  ∧ ∀ (config : Config) (data : LibraryData) (b : Node.t) (i j : nat),
      Node.name b = lit "2nd Floor Break Room" →
      searchDestinations config (lit "2b") (Some data) !! i = Some a →
      searchDestinations config (lit "2b") (Some data) !! j = Some b →
      (i < j)%nat.
Proof.
  intros Ha. destruct (room2B_score a Ha) as (Hsa & Hw & Hp).
  repeat split; [done | done | done |].
  intros config data b i j Hb Hi Hj.
  rewrite searchDestinations_ranked in Hi, Hj.
  change (Js.trim (Js.toLowerCase (lit "2b"))) with (lit "2b") in Hi, Hj.
  set (cands := candidates (lit "2b") (nodes data)) in *.
  destruct (slice0_prefix (Js.sort compare cands) (maxSuggestions config))
    as [n Hn].
  rewrite Hn in Hi, Hj.
  apply list_lookup_fmap_Some_1 in Hi as (sa & -> & Hi).
  apply list_lookup_fmap_Some_1 in Hj as (sb & -> & Hj).
  apply lookup_take_Some in Hi as [Hi _]. apply lookup_take_Some in Hj as [Hj _].
  assert (Hcand : ∀ k s, Js.sort compare cands !! k = Some s →
            Scored.score s = scoreNode (lit "2b") (Scored.node s)).
  { intros k s Hs. apply list_elem_of_lookup_2 in Hs. rewrite sort_perm in Hs.
    by apply candidates_score in Hs as [? _]. }
  pose proof (Hcand _ _ Hi) as Hscore_a. pose proof (Hcand _ _ Hj) as Hscore_b.
  pose proof (breakRoom_score _ Hb) as Hsb.
  destruct (Nat.lt_trichotomy i j) as [Hlt | [Heq | Hgt]]; [done | |].
  - subst j. rewrite Hi in Hj. injection Hj as <-. rewrite Ha in Hb. discriminate.
  - pose proof (StronglySorted_lookup _ _ _ _ _ _ (ranked_sorted cands) Hj Hi Hgt)
      as Hrank.
    unfold ranksBefore in Hrank. lia.
Qed.

(** On the sample library, whose break room has the keyword [2b lounge],
    both nodes are returned for the query 2b, Room 2B first and with score
    90. *)
Lemma room_code_query_ranking_witness :
  scoreNode (lit "2b") Sample.room2B = 90
  ∧ searchDestinations defaultConfig (lit "2b") (Some Sample.library)
    = [Sample.room2B; Sample.breakRoom].
Proof.
  split.
  - apply (room_code_query_ranking Sample.room2B). reflexivity.
  - vm_compute. reflexivity.
Defined.

(** C2 as stated fails: the final score of Room 2B for the query 2b is 90,
    not 85. *)
Lemma room_code_query_score_not_85 :
  scoreNode (lit "2b") Sample.room2B = 90
  ∧ scoreNode (lit "2b") Sample.room2B ≠ 85.
Proof. split; vm_compute; (reflexivity || discriminate). Qed.

(** C3, the behaviour of the code where the claim fails.  In the lower-cased
    name [room 12b 2b] the room codes found are [12b] and [2b]; the query
    [2b] is a room code and equals the second, but the loop returns 75 at the
    first, which contains the query, and never reaches the exact match.  With
    the two codes in the other order the result is 85.  (The final score of
    the node is 90 either way, see [pattern_heuristic_masked].) *)
Theorem pattern_score_depends_on_order :
  matchesPattern (lit "2b") = true
  ∧ Regex.matchAll false (Regex.Alt numberCode roomCode) (lit "room 12b 2b")
    = [lit "12b"; lit "2b"]
  ∧ getPatternMatchScore (lit "room 12b 2b") (lit "2b") = 75
  ∧ getPatternMatchScore (lit "room 2b 12b") (lit "2b") = 85
  ∧ Heuristic.pattern (lit "2b") Sample.room12B = 75
  ∧ scoreNode (lit "2b") Sample.room12B = 90.
Proof. repeat split; vm_compute; reflexivity. Qed.

(** C9, as amended.  [highlightSearchTerm] returns the name unchanged when
    the raw query is empty.  Otherwise the pattern it builds is, for every
    query, the group of the query's characters taken literally (the regex
    metacharacters are escaped), and the result is the name in which the
    case-insensitive occurrences of the query met by a scan from left to
    right are wrapped in the marker, the scan resuming after each wrapped
    occurrence: the text between the markers is the name's own (original
    casing), every wrapped block is an occurrence, and every occurrence
    either is wrapped or begins inside a wrapped occurrence that starts
    before it.  So [highlight("Room 2B", "2b")] wraps [2B], and the query
    [.*+(] is found only where these four characters stand in the name. *)
Theorem highlight_wraps_scanned_occurrences (name q : jsstring) :
  (q = [] → highlightSearchTerm name q = Some name)
  ∧ (q ≠ [] →
     ∃ segs : list Highlight.segment,
       highlightSearchTerm name q = Some (Highlight.render segs)
       ∧ Highlight.plainText segs = name
       ∧ (∀ m, Highlight.Marked m ∈ segs →
               Js.toLowerCase m = Js.toLowerCase q)
       ∧ (∀ s, s ∈ Highlight.markedStarts 0 segs → Highlight.occursAt name q s)
       ∧ (∀ i, Highlight.occursAt name q i →
               ∃ s, s ∈ Highlight.markedStarts 0 segs
                    ∧ (s ≤ i < s + length q)%nat))
  ∧ Regex.parseGroup (lit "(" ++ Utils.escapeRegExp q ++ lit ")")
    = Some (Regex.Group (Highlight.literal q))
  ∧ highlightSearchTerm (lit "Room 2B") (lit "2b")
    = Some (lit "Room " ++ mark (lit "2B"))
  ∧ highlightSearchTerm (lit "ab .*+( abbb") (lit ".*+(")
    = Some (lit "ab " ++ mark (lit ".*+(") ++ lit " abbb").
Proof.
  split; [by intros ->|].
  split; [|split; [apply parseGroup_escaped | split; vm_compute; reflexivity]].
  intros Hq. exists (Highlight.scanFrom q 0 name).
  assert (Hlen : (length q <? 1)%nat = false).
  { apply Nat.ltb_ge. by apply length_q_pos. }
  repeat split.
  - unfold highlightSearchTerm. rewrite Hlen, parseGroup_escaped.
    unfold Regex.replaceAll. cbn [mbind option_bind].
    by rewrite (replaceFrom_scan q Hq).
  - rewrite (scan_text q Hq) by lia. done.
  - intros m. by apply (scan_marked q).
  - intros s Hs. apply (scan_starts q Hq name 0%nat 0%nat) in Hs
      as (k & -> & _ & Hk). done.
  - intros i Hi.
    destruct (scan_covers q Hq name 0%nat 0%nat i Hi) as (s & Hs & Hin); [lia|].
    exists s. split; [done | lia].
Qed.

(** The query [a.b] in the name [Room (a.b) axb]: the dot is literal, so one
    block is wrapped, at index 6, and [axb] is left alone. *)
Lemma highlight_wraps_scanned_occurrences_witness :
  ∃ segs : list Highlight.segment,
    highlightSearchTerm (lit "Room (a.b) axb") (lit "A.B")
    = Some (Highlight.render segs)
    ∧ Highlight.plainText segs = lit "Room (a.b) axb".
Proof.
  destruct (proj1 (proj2
    (highlight_wraps_scanned_occurrences (lit "Room (a.b) axb") (lit "A.B"))))
    as (segs & Hres & Htext & _).
  - discriminate.
  - exists segs. split; [exact Hres | exact Htext].
Defined.

(** C9 as stated fails: in [aaa] the query [aa] occurs at the indices 0 and
    1, and the result wraps the first occurrence only: the last unit of the
    second occurrence is outside the marked text. *)
Lemma highlight_skips_overlapping_occurrence :
  highlightSearchTerm (lit "aaa") (lit "aa")
  = Some (mark (lit "aa") ++ lit "a")
  ∧ Highlight.occursAt (lit "aaa") (lit "aa") 0
  ∧ Highlight.occursAt (lit "aaa") (lit "aa") 1
  ∧ ¬ Highlight.wrapsEveryOccurrence (lit "aaa") (lit "aa")
        (mark (lit "aa") ++ lit "a").
Proof.
  repeat split; try (vm_compute; reflexivity).
  intros (segs & Hout & Htext & Hocc).
  assert (H1 : Highlight.occursAt (lit "aaa") (lit "aa") 1) by reflexivity.
  specialize (Hocc 1%nat 2%nat H1 ltac:(simpl; lia)).
  unfold mark in Hout. rewrite <- !app_assoc in Hout.
  destruct segs as [|[c|m] segs].
  - discriminate.
  - rewrite render_plain in Hout. injection Htext as -> _. discriminate.
  - rewrite render_marked in Hout. apply app_inv_head in Hout.
    unfold Highlight.plainText in Htext. cbn [map concat Highlight.segmentText] in Htext.
    destruct m as [|x [|y [|z m]]].
    + discriminate.
    + injection Htext as -> _. discriminate.
    + injection Htext as -> -> Htext.
      apply app_inv_head in Hout. apply app_inv_head in Hout.
      destruct segs as [|[c|m] segs].
      * discriminate.
      * discriminate Hocc.
      * rewrite render_marked in Hout. discriminate.
    + injection Htext as -> -> -> _. discriminate.
Qed.

(** ** Further properties of the code *)

(** X1.  [levenshteinDistance] is a metric on strings: the distance is 0
    exactly between equal strings, it is the same in both directions, and
    the distance from [a] to [c] is at most the distance from [a] to [b]
    plus the distance from [b] to [c]. *)
Theorem levenshteinDistance_metric (a b c : jsstring) :
  (Utils.levenshteinDistance a b = Some 0 ↔ a = b)
  ∧ Utils.levenshteinDistance a b = Utils.levenshteinDistance b a
  ∧ ∃ x y z,
      Utils.levenshteinDistance a b = Some x
      ∧ Utils.levenshteinDistance b c = Some y
      ∧ Utils.levenshteinDistance a c = Some z
      ∧ z ≤ x + y.
Proof.
  rewrite !levenshteinDistance_editDistance. repeat split.
  - intros [= H]. apply editDistance_zero. lia.
  - intros ->. by rewrite (proj2 (editDistance_zero b b)).
  - by rewrite editDistance_sym.
  - eexists _, _, _. repeat split.
    pose proof (editDistance_triangle a b c). lia.
Qed.

(** The distance of a string to a real change of it is not 0. *)
Lemma levenshteinDistance_metric_witness :
  lit "libary" ≠ lit "library".
Proof.
  intros H.
  apply (proj1 (levenshteinDistance_metric (lit "libary") (lit "library") []))
    in H.
  vm_compute in H. discriminate.
Defined.

(** X2.  The distance lies between the difference of the two lengths and
    the longer of the two lengths. *)
Theorem levenshteinDistance_bounds (a b : jsstring) :
  ∃ d,
    Utils.levenshteinDistance a b = Some d
    ∧ Z.abs (Js.len a - Js.len b) ≤ d ≤ Z.max (Js.len a) (Js.len b).
Proof.
  rewrite levenshteinDistance_editDistance. eexists. split; [done|].
  pose proof (editDistance_bounds a b). unfold Js.len. lia.
Qed.

(** X3.  [matchesPattern] accepts exactly the room codes: one or more
    digits followed by letters, or one or more letters, one or more digits,
    then letters (letters are A-Z and a-z). *)
Theorem matchesPattern_language (q : jsstring) :
  matchesPattern q = true ↔ isNumberCode q ∨ isRoomCode q.
Proof. apply matchesPattern_spec. Qed.

(** The query a14b is a room code. *)
Lemma matchesPattern_language_witness : matchesPattern (lit "a14b") = true.
Proof.
  apply matchesPattern_language. right.
  exists (lit "a"), (lit "14"), (lit "b").
  repeat split; try done; repeat constructor.
Defined.

(** X4.  A partial word match implies that the text contains the query, so
    heuristic 5 never decides a score: the chain of heuristics 1 to 5 gives
    85 or more when the lower-cased name contains the query, 0 otherwise,
    and never 80. *)
Theorem partial_word_match_never_decides (text q : jsstring) :
  (hasPartialWordMatch text q = true → Js.includes text q = true)
  ∧ nameScore text (words text) q ≠ 80
  ∧ (Js.includes text q = true ↔ 85 ≤ nameScore text (words text) q)
  ∧ (Js.includes text q = false ↔ nameScore text (words text) q = 0).
Proof.
  split; [apply hasPartialWordMatch_includes|].
  destruct (nameScore_values text q) as [[-> Hinc] | [Hs Hinc]].
  - rewrite Hinc. repeat split; (done || lia).
  - rewrite Hinc. rewrite !elem_of_cons, elem_of_nil in Hs.
    repeat split; (done || lia).
Qed.

(** The word 2b of room 2b ends the partial word match of the query 2b,
    and the text contains the query. *)
Lemma partial_word_match_never_decides_witness :
  Js.includes (lit "room 2b") (lit "2b") = true.
Proof.
  apply (proj1 (partial_word_match_never_decides (lit "room 2b") (lit "2b"))).
  vm_compute. reflexivity.
Defined.

(** X5.  The final score falls in one of three bands that do not overlap.
    When the lower-cased name contains the query it is 85, 90, 95 or 100;
    otherwise, when a keyword matches, it is the keyword score, 65, 70 or 75;
    otherwise it is 0 or a fuzzy score between 42 and 59.  So every name
    match outranks every keyword-only match, which outranks every fuzzy
    match. *)
Theorem score_bands (q : jsstring) (node : Node.t) :
  let nameLower := Js.toLowerCase (Node.name node) in
  (Js.includes nameLower q = true → scoreNode q node ∈ [85; 90; 95; 100])
  ∧ (Js.includes nameLower q = false → Heuristic.keywords q node ≠ 0 →
     scoreNode q node = Heuristic.keywords q node
     ∧ scoreNode q node ∈ [65; 70; 75])
  ∧ (Js.includes nameLower q = false → Heuristic.keywords q node = 0 →
     scoreNode q node = 0 ∨ 42 ≤ scoreNode q node ≤ 59).
Proof. exact (scoreNode_bands q node). Qed.

(** Library Commons does not contain libary and has no keywords: its score
    for that query is a fuzzy one. *)
Lemma score_bands_witness :
  scoreNode (lit "libary") Sample.commons = 0
  ∨ 42 ≤ scoreNode (lit "libary") Sample.commons ≤ 59.
Proof.
  apply (proj2 (proj2 (score_bands (lit "libary") Sample.commons)));
    vm_compute; reflexivity.
Defined.

(** X6.  Heuristic 8, the room-code pattern, never changes a score: when it
    scores at all the lower-cased name contains the query, and heuristic 4 or
    an earlier one has given at least 85 already.  The score after
    heuristics 1 to 8 is the score after heuristics 1 to 6. *)
Theorem pattern_heuristic_never_raises (q : jsstring) (node : Node.t) :
  scoreBeforeFuzzy q node = scoreAfterKeywords q node
  ∧ Heuristic.pattern q node ≤ scoreAfterKeywords q node
  ∧ (Heuristic.pattern q node ≠ 0 →
     Js.includes (Js.toLowerCase (Node.name node)) q = true).
Proof.
  split; [apply pattern_heuristic_masked|].
  assert (Hinc : Heuristic.pattern q node ≠ 0 →
     Js.includes (Js.toLowerCase (Node.name node)) q = true).
  { intros Hp%pattern_needs_substring. unfold Heuristic.substring in Hp.
    unfold Heuristic.nameLower in Hp. by destruct (Js.includes _ q). }
  split; [|exact Hinc].
  rewrite scoreAfterKeywords_split.
  pose proof (pattern_range q node). pose proof (keywords_range q node).
  destruct (decide (Heuristic.pattern q node = 0)) as [->|Hne]; [|].
  - destruct (nameScore_values (Heuristic.nameLower node) q) as [[-> _]|[Hv _]].
    + lia.
    + rewrite !elem_of_cons, elem_of_nil in Hv. lia.
  - apply Hinc in Hne.
    destruct (nameScore_values (Heuristic.nameLower node) q) as [[_ Hv]|[Hv _]].
    + unfold Heuristic.nameLower in Hv. congruence.
    + rewrite !elem_of_cons, elem_of_nil in Hv. lia.
Qed.

(** For the query 2b the pattern heuristic gives Room 2B 85, and the name
    contains the query. *)
Lemma pattern_heuristic_never_raises_witness :
  Js.includes (Js.toLowerCase (Node.name Sample.room2B)) (lit "2b") = true.
Proof.
  apply (proj2 (proj2 (pattern_heuristic_never_raises (lit "2b") Sample.room2B))).
  vm_compute. discriminate.
Defined.

(** X7.  A node scores 100 exactly when its lower-cased name is the
    normalised query, and in every result such a node stands before every
    node whose name is not the query. *)
Theorem exact_match_ranks_first
    (config : Config) (query : jsstring) (data : LibraryData) :
  let q := Js.trim (Js.toLowerCase query) in
  (∀ node, scoreNode q node = 100 ↔ Js.toLowerCase (Node.name node) = q)
  ∧ ∀ (a b : Node.t) (i j : nat),
      Js.toLowerCase (Node.name a) = q →
      Js.toLowerCase (Node.name b) ≠ q →
      searchDestinations config query (Some data) !! i = Some a →
      searchDestinations config query (Some data) !! j = Some b →
      (i < j)%nat.
Proof.
  intros q. split; [intros node; apply exact_score|].
  intros a b i j Ha Hb Hi Hj.
  apply (result_order config query data i j a b Hi Hj). fold q.
  apply exact_score in Ha. rewrite Ha.
  pose proof (scoreNode_range q b).
  destruct (decide (scoreNode q b = 100)) as [H100|]; [|lia].
  by apply exact_score in H100.
Qed.

(** For the query lab on the sample library, Lab is the exact match and
    comes first. *)
Lemma exact_match_ranks_first_witness :
  searchDestinations defaultConfig (lit "LAB ") (Some Sample.library) !! 0%nat
  = Some Sample.lab
  ∧ scoreNode (lit "lab") Sample.lab = 100.
Proof.
  split; [vm_compute; reflexivity|].
  apply (proj1 (exact_match_ranks_first defaultConfig (lit "LAB ") Sample.library)).
  vm_compute. reflexivity.
Defined.

(** X8.  Every node returned is a node of the data, of type destination,
    with a score above 0; a destination node with a score above 0 is missing
    from the result only when the result holds maxSuggestions nodes; and
    without data or without nodes the result is empty. *)
Theorem results_sound_and_complete
    (config : Config) (query : jsstring) (data : LibraryData) :
  let q := Js.trim (Js.toLowerCase query) in
  (∀ n, n ∈ searchDestinations config query (Some data) →
        n ∈ nodes data ∧ Node.type n = lit "destination" ∧ 0 < scoreNode q n)
  ∧ (0 ≤ maxSuggestions config →
     ∀ n, n ∈ nodes data → Node.type n = lit "destination" → 0 < scoreNode q n →
          n ∈ searchDestinations config query (Some data)
          ∨ length (searchDestinations config query (Some data))
            = Z.to_nat (maxSuggestions config))
  ∧ searchDestinations config query None = []
  ∧ (nodes data = [] → searchDestinations config query (Some data) = []).
Proof.
  intros q.
  assert (Hdest : ∀ n, isDestination n = true ↔ Node.type n = lit "destination").
  { intros n. unfold isDestination, Js.eqb. apply bool_decide_eq_true. }
  repeat split.
  - apply result_elem in H. tauto.
  - apply Hdest. apply result_elem in H. tauto.
  - apply result_elem in H. tauto.
  - intros Hmax n Hn Hd Hs. apply result_complete; [done | done | | done].
    by apply Hdest.
  - intros Hnil. unfold searchDestinations. rewrite Hnil. simpl.
    unfold Js.slice0. destruct (maxSuggestions config <? 0); by rewrite take_nil.
Qed.

(** Every node returned for lab from the sample library is a destination
    node of it. *)
Lemma results_sound_and_complete_witness :
  Node.type Sample.annex = lit "destination"
  ∧ 0 < scoreNode (lit "lab") Sample.annex.
Proof.
  assert (H : Sample.annex
              ∈ searchDestinations defaultConfig (lit "lab") (Some Sample.library)).
  { apply (list_elem_of_lookup_2 _ 1%nat). vm_compute. reflexivity. }
  apply (proj1 (results_sound_and_complete defaultConfig (lit "lab") Sample.library))
    in H.
  tauto.
Defined.

(** X9.  Normalising a query (lower case, then trim) is idempotent, and
    lower-casing and trimming commute, so the engine returns the same
    sequence for a query, for its normal form, and for the query trimmed
    first and lower-cased after. *)
Theorem query_normalisation
    (config : Config) (query : jsstring) (libraryData : option LibraryData) :
  Js.trim (Js.toLowerCase (Js.trim (Js.toLowerCase query)))
  = Js.trim (Js.toLowerCase query)
  ∧ Js.toLowerCase (Js.trim query) = Js.trim (Js.toLowerCase query)
  ∧ searchDestinations config (Js.trim (Js.toLowerCase query)) libraryData
    = searchDestinations config query libraryData
  ∧ searchDestinations config (Js.toLowerCase (Js.trim query)) libraryData
    = searchDestinations config query libraryData.
Proof.
  split; [apply normalize_idempotent|]. split; [by rewrite trim_toLowerCase|].
  destruct libraryData as [data|]; [|done]. unfold searchDestinations. split.
  - by rewrite normalize_idempotent.
  - by rewrite toLowerCase_idempotent, <- trim_toLowerCase, trim_idempotent.
Qed.

(** X10.  [highlightSearchTerm] returns the name unchanged exactly when the
    raw query is empty or does not occur in the name under the case folding
    of the [i] flag (every code unit replaced by its [Canonicalize]); in
    every other case the result carries a marker.  On the strings of the
    development, those of code units 0..255, that folding finds the same
    occurrences as [toLowerCase]: there the name is unchanged exactly when
    the query is empty or the lower-cased name does not contain the
    lower-cased query. *)
Theorem highlight_changes_matching_names (name q : jsstring) :
  (highlightSearchTerm name q = Some name
   ↔ q = [] ∨ Js.includes (canonicalizeAll name) (canonicalizeAll q) = false)
  ∧ Js.includes (canonicalizeAll name) (canonicalizeAll q)
    = Js.includes (Js.toLowerCase name) (Js.toLowerCase q).
Proof.
  split; [|apply includes_canonicalizeAll].
  rewrite includes_canonicalizeAll. apply highlight_unchanged.
Qed.

(** The raw query with its spaces, [lab ] with a space after it, does not
    occur in Lab: the suggestion is found by the trimmed query and shown
    without a marker. *)
Lemma highlight_changes_matching_names_witness :
  highlightSearchTerm (lit "Lab") (lit "lab ") = Some (lit "Lab").
Proof.
  apply (proj1 (highlight_changes_matching_names (lit "Lab") (lit "lab "))).
  right. vm_compute. reflexivity.
Defined.

(** X11.  On words and queries of at most 200 code units the fuzzy
    heuristic computed on doubles (binary64 division, comparison with 0.7,
    multiplication by 60, [Math.floor]) gives the score of the exact
    quotients. *)
Theorem fuzzy_score_on_doubles (text query : jsstring) :
  Js.len text ≤ 200 → Js.len query ≤ 200 →
  Doubles.getFuzzyMatchScore text query = getFuzzyMatchScore text query.
Proof.
  intros Ht Hq. unfold Doubles.getFuzzyMatchScore, getFuzzyMatchScore.
  apply foldl_ext_elem. intros b w Hw. apply fuzzyStep_doubles; [|done].
  apply words_infix in Hw as (l1 & l2 & Hw).
  unfold Js.len in *. rewrite Hw, !length_app in Ht. lia.
Qed.

(** Library Commons and libary are shorter than 200 units: the score on
    doubles is 51. *)
Lemma fuzzy_score_on_doubles_witness :
  Doubles.getFuzzyMatchScore (lit "library commons") (lit "libary") = 51.
Proof.
  rewrite (fuzzy_score_on_doubles (lit "library commons") (lit "libary")).
  - vm_compute. reflexivity.
  - vm_compute. discriminate.
  - vm_compute. discriminate.
Defined.

(** X12.  The search of the first application, which also records how each
    node was matched, returns the sequence that [SearchEngine] returns for
    the same query and data with the configuration of the orchestrator:
    the recorded [matchInfo] plays no part in the order or in the cut. *)
Theorem app_search_is_the_engine (st : State) (query : jsstring) :
  App.searchDestinations st query
  = searchDestinations (new (Some Main.config)) query
      (library <$> libraryData st).
Proof. exact (App_searchDestinations_engine st query). Qed.

(** X13.  The [matchInfo] that the first application records for a node
    tells the band of its score.  For the normalised query of a search:
    type name goes with a lower-cased name that contains the query and a
    score of 85 to 100, and the matched text is the query; type keyword
    goes with a keyword of the node that contains the query, a name that
    does not, and a score of 65 to 75; type other goes with a score of 0 or
    a fuzzy score of 42 to 59. *)
Theorem match_info_tells_the_band (query : jsstring) (node : Node.t) :
  let q := Js.trim (Js.toLowerCase query) in
  match App.getMatchInfo node q with
  | NameMatch text =>
      text = q ∧ Js.includes (Js.toLowerCase (Node.name node)) q = true
      ∧ 85 ≤ scoreNode q node ≤ 100
  | KeywordMatch keyword =>
      (∃ kws, Node.search_keywords node = Some kws ∧ keyword ∈ kws)
      ∧ Js.includes (Js.toLowerCase keyword) q = true
      ∧ Js.includes (Js.toLowerCase (Node.name node)) q = false
      ∧ 65 ≤ scoreNode q node ≤ 75
  | OtherMatch =>
      Js.includes (Js.toLowerCase (Node.name node)) q = false
      ∧ Heuristic.keywords q node = 0
      ∧ (scoreNode q node = 0 ∨ 42 ≤ scoreNode q node ≤ 59)
  end.
Proof. cbn zeta. apply getMatchInfo_band, normal_query_lower. Qed.

(** X14.  The search handler of the first application shows the list
    exactly when the input is not blank and the engine finds something for
    it; the items shown are then the result of the engine for the raw
    input, in its order.  When it hides the list the items stay as they
    were, and in both cases the selection, the route, the view and the
    input are untouched. *)
Theorem handleSearch_shows_engine_results (st : State) :
  let results :=
    searchDestinations defaultConfig (searchInput st)
      (library <$> libraryData st) in
  let st' := App.handleSearch st in
  (suggestionsShown st' = true
   ↔ Js.trim (searchInput st) ≠ [] ∧ results ≠ [])
  ∧ (suggestionsShown st' = true → suggestionItems st' = results)
  ∧ (suggestionsShown st' = false → suggestionItems st' = suggestionItems st)
  ∧ selectedDestination st' = selectedDestination st
  ∧ currentRoute st' = currentRoute st
  ∧ view st' = view st
  ∧ searchInput st' = searchInput st.
Proof.
  cbn zeta. rewrite App_handleSearch_cases. cbn zeta.
  destruct (Js.trim (searchInput st)) as [|c q].
  { repeat split; try done. by intros [? _]. }
  destruct (searchDestinations _ _ _) as [|n l].
  { repeat split; try done. by intros [_ ?]. }
  repeat split; done.
Qed.

(** With rest typed, the list shows the Restroom. *)
Lemma handleSearch_shows_engine_results_witness :
  suggestionItems (App.handleSearch (Kiosk.loaded (lit " Rest ")))
  = [Kiosk.restroom].
Proof.
  rewrite (proj1 (proj2 (handleSearch_shows_engine_results
                           (Kiosk.loaded (lit " Rest "))))).
  - vm_compute. reflexivity.
  - vm_compute. reflexivity.
Defined.



(** X16.  Submitting the search selects the first suggestion.  When the
    identifiers of the nodes are unique and the engine finds something for
    an input that is not blank, the selected destination becomes the first
    node of the result, the list is hidden, and the current route becomes
    the stored route from the kiosk to that node, or stays what it was when
    none is stored.  On a blank input, or when nothing is found, the state
    does not change. *)
Theorem search_submit_selects_first_suggestion
    (displayRoute : State → Route → bool) (st : State) (g : LibraryGraph) :
  libraryData st = Some g →
  NoDup (map Node.id (nodes (library g))) →
  let results := searchDestinations defaultConfig (searchInput st) (Some (library g)) in
  let st' := App.handleSearchSubmit displayRoute st in
  match Js.trim (searchInput st), results with
  | [], _ | _, [] => st' = st
  | _ :: _, first :: _ =>
      selectedDestination st' = Some first
      ∧ suggestionsShown st' = false
      ∧ currentRoute st'
        = match App.generateRoute st kiosk (Node.id first) with
          | Some route => Some route
          | None => currentRoute st
          end
  end.
Proof.
  intros Hg Hnd. cbn zeta. unfold App.handleSearchSubmit. cbn zeta.
  rewrite App_handleSubmit_query, Hg. cbn [fmap option_fmap option_map].
  destruct (Js.trim (searchInput st)) as [|c q]; [done|].
  destruct (searchDestinations _ _ _) as [|first rest] eqn:Hres; [done|].
  assert (Hin : first ∈ nodes (library g)).
  { apply (result_elem defaultConfig (searchInput st) (library g)).
    rewrite Hres. apply list_elem_of_here. }
  destruct (selectDestination_selects displayRoute st g first Hg Hnd Hin)
    as (H1 & H2 & _ & H4).
  done.
Qed.

(** Rest typed and submitted: the Restroom is selected and its route is
    current. *)
Lemma search_submit_selects_first_suggestion_witness :
  let st' := App.handleSearchSubmit Kiosk.drawn (Kiosk.loaded (lit "rest")) in
  selectedDestination st' = Some Kiosk.restroom
  ∧ suggestionsShown st' = false
  ∧ currentRoute st' = Some Kiosk.toRestroom.
Proof.
  assert (Hnd : NoDup (map Node.id (nodes (library Kiosk.graph)))).
  { refine (bool_decide_unpack _ _). vm_compute. exact I. }
  pose proof (search_submit_selects_first_suggestion Kiosk.drawn
                (Kiosk.loaded (lit "rest")) Kiosk.graph eq_refl Hnd) as H.
  exact H.
Defined.

(** X17.  Every run of events keeps the state consistent.  Whatever the
    user does, and whether drawing a route succeeds or throws: the
    directions view is shown only with a current route; a current route
    comes with a selected destination and is one of the stored routes from
    the kiosk; the selected destination is a node of the library; every
    item of the suggestion list is a destination node of the library; the
    highlighted item is one of the items; and the library data is never
    written. *)
Theorem events_keep_state_consistent
    (displayRoute : State → Route → bool)
    (events : list App.Event) (st : State) :
  App.Consistent st →
  App.Consistent (App.run displayRoute events st)
  ∧ libraryData (App.run displayRoute events st) = libraryData st.
Proof. apply run_consistent. Qed.

(** Typing, searching, moving down, selecting and going back, from the
    loaded state. *)
Lemma events_keep_state_consistent_witness :
  App.Consistent
    (App.run Kiosk.drawn
       [App.Type_ (lit "rest"); App.SearchDue; App.KeyArrowDown; App.KeyEnter;
        App.BackButton]
       (Kiosk.loaded []))
  ∧ libraryData
      (App.run Kiosk.drawn
         [App.Type_ (lit "rest"); App.SearchDue; App.KeyArrowDown; App.KeyEnter;
          App.BackButton]
         (Kiosk.loaded []))
    = libraryData (Kiosk.loaded []).
Proof.
  apply events_keep_state_consistent.
  split; cbn [Kiosk.loaded view currentRoute selectedDestination
              suggestionItems highlighted].
  - discriminate.
  - intros Hr. by apply is_Some_None in Hr.
  - discriminate.
  - discriminate.
  - intros n Hn. by apply elem_of_nil in Hn.
  - discriminate.
Defined.

(** X18.  The category buttons of the orchestrator find a sublist of what
    those of the first application find, and the two filters throw on the
    same inputs (a category that is a property name inherited by the map,
    with a destination in the library).  What the first application finds
    is a sublist of the destination nodes, in load order; a category that
    is none of restroom, study and computer never changes its state; and
    the inclusion is strict: a destination named Tech Help Desk is under
    computer for the first application alone. *)
Theorem orchestrator_categories_are_narrower
    (displayRoute : State → Route → bool)
    (category : jsstring) (l : list Node.t) :
  match Main.categoryMatches category l, App.categoryMatches category l with
  | Some mm, Some ma =>
      sublist mm ma ∧ sublist ma (List.filter isDestination l)
  | None, None => inherited category = true
  | _, _ => False
  end
  ∧ (category ∉ [lit "restroom"; lit "study"; lit "computer"] →
     ∀ st, App.handleCategorySelect displayRoute category st = st)
  ∧ Main.categoryMatches (lit "computer") [Kiosk.techDesk] = Some []
  ∧ App.categoryMatches (lit "computer") [Kiosk.techDesk]
    = Some [Kiosk.techDesk].
Proof.
  split; [|split].
  - pose proof (Main_categoryMatches_App category l) as H.
    destruct (Main.categoryMatches category l) as [mm|] eqn:Hm,
             (App.categoryMatches category l) as [ma|] eqn:Ha; try done.
    + split; [done|]. unfold App.categoryMatches in Ha.
      destruct (App.categoryKeywords category) as [ka|].
      * injection Ha as <-. apply filter_sublist_impl, inCategory_destination.
      * destruct (existsb isDestination l); [done|].
        injection Ha as <-. apply sublist_nil_l.
    + unfold App.categoryMatches, App.categoryKeywords in Ha.
      repeat case_match; done.
  - rewrite !elem_of_cons, elem_of_nil. intros Hc st.
    unfold App.handleCategorySelect.
    destruct (libraryData st) as [g|]; [|done].
    unfold App.categoryMatches, App.categoryKeywords, Js.eqb.
    rewrite !bool_decide_eq_false_2 by tauto.
    destruct (inherited category).
    + by destruct (existsb isDestination _).
    + assert (List.filter (App.inCategory []) (nodes (library g)) = []) as ->;
        [|done].
      induction (nodes (library g)) as [|n l' IH]; [done|]. cbn [List.filter].
      unfold App.inCategory at 1. by destruct (negb _).
  - split; vm_compute; reflexivity.
Qed.

(** X19.  A badge tells the category.  A destination whose suggestion
    carries the restroom, study or computer badge is found by the category
    button of that name, in the orchestrator and in the first
    application. *)
Theorem badge_implies_category
    (n : Node.t) (l : list Node.t) (b : App.Badge) (category : jsstring) :
  n ∈ l → isDestination n = true →
  App.getSuggestionBadge n = Some b → App.badgeCategory b = Some category →
  ∃ mm ma, Main.categoryMatches category l = Some mm ∧ n ∈ mm
           ∧ App.categoryMatches category l = Some ma ∧ n ∈ ma.
Proof.
  intros Hn Hd Hb Hc.
  destruct (badge_keyword n b category Hb Hc)
    as (kws & k & km & Hkws & Hk & Hkm & Hkc).
  pose proof (Main_inCategory_keyword km k kws n Hd Hkws Hk Hkc) as Hm.
  pose proof (Main_keywords category) as Hkeys.
  unfold Main.categoryMatches, App.categoryMatches.
  rewrite Hkm in *. destruct (App.categoryKeywords category) as [ka|]; [|done].
  eexists _, _. split; [done|].
  split; [apply list_elem_of_In, filter_In; split;
            [by apply list_elem_of_In|done]|].
  split; [done|].
  apply list_elem_of_In, filter_In. split; [by apply list_elem_of_In|].
  by apply (Main_inCategory_App km ka).
Qed.

(** The Restroom carries the restroom badge and is under restroom. *)
Lemma badge_implies_category_witness :
  ∃ mm ma,
    Main.categoryMatches (lit "restroom") (nodes (library Kiosk.graph)) = Some mm
    ∧ Kiosk.restroom ∈ mm
    ∧ App.categoryMatches (lit "restroom") (nodes (library Kiosk.graph)) = Some ma
    ∧ Kiosk.restroom ∈ ma.
Proof.
  apply (badge_implies_category Kiosk.restroom _ App.Restroom).
  - apply list_elem_of_further, list_elem_of_here.
  - vm_compute. reflexivity.
  - vm_compute. reflexivity.
  - reflexivity.
Defined.

(** X20.  The selector of the end marker drops the first component of the
    identifier and puts the floor of the node in its place, in the text that
    a template literal gives a number (all the digits of a small integer).
    For an identifier [p_rest] with no underscore in [p] the selector is
    [#F<floor>_rest_DEST]; it is [#<id>_DEST] when [p] is [F<floor>]; and
    for an identifier without an underscore nothing of the identifier is
    left: the selector is [#F<floor>__DEST]. *)
Theorem end_marker_selector (destination : Node.t) :
  (∀ p rest,
     App.underscore ∉ p →
     Node.id destination = p ++ App.underscore :: rest →
     App.endMarkerSelector destination
     = lit "#F" ++ numberToString (Node.floor destination) ++ lit "_" ++ rest
       ++ lit "_DEST"
     ∧ (p = lit "F" ++ numberToString (Node.floor destination) →
        App.endMarkerSelector destination
        = lit "#" ++ Node.id destination ++ lit "_DEST"))
  ∧ (App.underscore ∉ Node.id destination →
     App.endMarkerSelector destination
     = lit "#F" ++ numberToString (Node.floor destination) ++ lit "__DEST").
Proof.
  split.
  - intros p rest Hp Hid. unfold App.endMarkerSelector.
    rewrite Hid, idWithoutFloor_first by done. split; [done|].
    intros ->. cbn [lit list_ascii_of_string app].
    by rewrite <- !app_assoc.
  - intros Hid. unfold App.endMarkerSelector.
    by rewrite idWithoutFloor_none.
Qed.

(** The Tech Help Desk, [F2_TECH_DESK] on floor 2. *)
Lemma end_marker_selector_witness :
  App.endMarkerSelector Kiosk.techDesk = lit "#F2_TECH_DESK_DEST".
Proof.
  destruct (proj1 (end_marker_selector Kiosk.techDesk) (lit "F2")
              (lit "TECH_DESK")) as [H _].
  - refine (bool_decide_unpack _ _). vm_compute. exact I.
  - reflexivity.
  - rewrite H. vm_compute. reflexivity.
Defined.

(** X21.  The arrow keys move the highlight around the list and undo each
    other: with an item highlighted, ArrowDown then ArrowUp, and ArrowUp
    then ArrowDown, leave the state as it was, also across the ends of the
    list.  Enter, or a press on the item, then selects the node of that
    item when identifiers are unique. *)
Theorem arrow_keys_undo_each_other
    (displayRoute : State → Route → bool) (st : State) (i : nat) (n : Node.t) :
  highlighted st = Some i → suggestionItems st !! i = Some n →
  App.step displayRoute (App.step displayRoute st App.KeyArrowDown) App.KeyArrowUp
  = st
  ∧ App.step displayRoute (App.step displayRoute st App.KeyArrowUp) App.KeyArrowDown
    = st
  ∧ App.step displayRoute st App.KeyEnter
    = App.step displayRoute st (App.ClickItem i)
  ∧ (∀ g, libraryData st = Some g → n ∈ nodes (library g) →
          NoDup (map Node.id (nodes (library g))) →
          selectedDestination (App.step displayRoute st App.KeyEnter) = Some n).
Proof.
  intros Hh Hi. pose proof (lookup_lt_Some _ _ _ Hi) as Hlt.
  cbn [App.step]. split; [by apply (arrowUp_arrowDown st i)|].
  split; [by apply (arrowDown_arrowUp st i)|].
  unfold App.enter. rewrite Hh, Hi. split; [done|].
  intros g Hg Hn Hnd.
  by destruct (selectDestination_selects displayRoute st g n Hg Hnd Hn) as [? _].
Qed.

(** The list with the two destinations and the second one highlighted. *)
Lemma arrow_keys_undo_each_other_witness :
  let st := App.setHighlighted (Some 1%nat)
              (App.setItems [Kiosk.restroom; Kiosk.techDesk] (Kiosk.loaded [])) in
  App.step Kiosk.drawn (App.step Kiosk.drawn st App.KeyArrowDown) App.KeyArrowUp
  = st.
Proof.
  apply (arrow_keys_undo_each_other Kiosk.drawn _ 1%nat Kiosk.techDesk);
    reflexivity.
Defined.
